(** * Local UniFi Drive: the icon placer and its self-healing watcher

    A shallow embedding of [content/content.js] (the content script) and of
    the save handler of the options page, over a small model of the DOM.

    - A document is the list of children of the [Document] node; a node is
      a character-data node or an element with its children.  Every node
      carries an identity ([nid]), the model's stand-in for the identity of
      a JavaScript object: the script's variables ([protectAnchor],
      [container], [existing], ...) hold identities and every property read
      ([parentElement], [nextSibling], [children], ...) is evaluated on the
      document as it is at that moment.
    - A DOM call that can raise returns a [result]; [try]/[catch] is a match
      on it.
    - [Date.now()] is an argument of the functions that read the clock.
    - [chrome.storage.sync.get] answers later: a call that issues it returns
      with the callback pending ([loadAndCreate_call], [observer_callback],
      [onChanged], [start]).  [loadAndCreate], [observer] and
      [storage_changed] are these calls together with the answer of the
      store.
    - A [setTimeout] is a pending timer that may fire at any later time;
      the length of its delay is not part of the model.
    - Inline style properties, computed styles, and what the [error]
      listener of the image and the end of [repairExisting] do to an image
      (a new [src], a data attribute, one more class) are not part of the
      model: they touch neither the shape of the tree nor the identifiers,
      classes and click listeners that the script reads. *)

From Stdlib Require Import List String Ascii ZArith NArith Bool Arith Lia.
From Stdlib Require Import QArith.
From Stdlib Require Import Permutation.
Import ListNotations.

Set Warnings "-register-all".

Local Open Scope string_scope.
Local Open Scope list_scope.
Local Open Scope nat_scope.

(** ** JavaScript strings *)

Module JsString.

(** A string value is a sequence of UTF-16 code units. *)
Definition t := list N.

Definition lit (s : string) : t := map N_of_ascii (list_ascii_of_string s).

(** [ToBoolean] on a string: only the empty string is falsy. *)
Definition truthy (s : t) : bool :=
  match s with [] => false | _ :: _ => true end.

(** [a || b] on strings. *)
Definition or_else (a b : t) : t := if truthy a then a else b.

(** [WhiteSpace] and [LineTerminator] code points of ECMAScript, the ones
    [String.prototype.trim] strips. *)
Definition is_space (c : N) : bool :=
  (existsb (N.eqb c)
     [9; 10; 11; 12; 13; 32; 160; 5760; 8232; 8233; 8239; 8287; 12288; 65279]
   || ((8192 <=? c) && (c <=? 8202)))%N.

Fixpoint trim_start (s : t) : t :=
  match s with
  | [] => []
  | c :: r => if is_space c then trim_start r else s
  end.

Definition trim (s : t) : t := rev (trim_start (rev (trim_start s))).

End JsString.

Definition jsstring : Type := JsString.t.

(** ** The DOM *)

(** The click listener that [createIcon] attaches to the wrapper captures
    its [link] argument ([None] is [undefined]).  It is the only click
    listener the script registers. *)
Inductive listener : Type :=
| ClickOpen (link : option jsstring).

Record element : Type := mkElement {
  tag : string;                       (* local name, lower case *)
  svg : bool;                         (* namespaceURI is the SVG namespace *)
  eid : string;                       (* the id attribute, empty when absent *)
  testid : option string;             (* the data-testid attribute *)
  classes : list string;              (* classList *)
  others : list (string * string);    (* attributes written and never read *)
  listeners : list listener
}.

Inductive node : Type :=
| Text (i : nat) (data : string)
| Elem (i : nat) (e : element) (cs : list node).

Definition nid (n : node) : nat :=
  match n with Text i _ => i | Elem i _ _ => i end.

Definition children (n : node) : list node :=
  match n with Text _ _ => [] | Elem _ _ cs => cs end.

Definition is_element (n : node) : bool :=
  match n with Text _ _ => false | Elem _ _ _ => true end.

(** Induction over a node with the induction hypothesis on every child. *)
Section NodeInd.
Variable P : node -> Prop.
Hypothesis HText : forall i data, P (Text i data).
Hypothesis HElem : forall i e cs, Forall P cs -> P (Elem i e cs).

Fixpoint node_ind' (n : node) : P n :=
    match n with
    | Text i data => HText i data
    | Elem i e cs =>
        HElem i e cs
          ((fix go (l : list node) : Forall P l :=
              match l with
              | [] => Forall_nil P
              | c :: r => Forall_cons c (node_ind' c) (go r)
              end) cs)
    end.
End NodeInd.

(** The node and its descendants in document order. *)
Fixpoint preorder (n : node) : list node :=
  match n with
  | Text _ _ => [n]
  | Elem _ _ cs => n :: flat_map preorder cs
  end.

Definition all_nodes (ns : list node) : list node := flat_map preorder ns.

Definition nids (n : node) : list nat := map nid (preorder n).
Definition nids_f (ns : list node) : list nat := map nid (all_nodes ns).

(** First node of the forest, in document order, that satisfies [P]. *)
Definition first_node (P : node -> bool) (ns : list node) : option node :=
  find P (all_nodes ns).

Definition has_nid (k : nat) (n : node) : bool := nid n =? k.
Definition has_child (k : nat) (n : node) : bool := existsb (has_nid k) (children n).

(** The node object behind an identity. *)
Definition lookup (k : nat) (ns : list node) : option node :=
  first_node (has_nid k) ns.

Inductive parent : Type :=
| PDocument
| PElement (p : nat).

Definition parentElement (k : nat) (ns : list node) : option nat :=
  option_map nid (first_node (has_child k) ns).

Definition parentNode (k : nat) (ns : list node) : option parent :=
  if existsb (has_nid k) ns then Some PDocument
  else option_map PElement (parentElement k ns).

(** The child list [k] sits in: the document's, or its parent element's. *)
Definition siblings (k : nat) (ns : list node) : list node :=
  if existsb (has_nid k) ns then ns
  else match first_node (has_child k) ns with
       | Some p => children p
       | None => []
       end.

Fixpoint after (k : nat) (cs : list node) : list node :=
  match cs with
  | [] => []
  | c :: r => if has_nid k c then r else after k r
  end.

Definition nextSibling (k : nat) (ns : list node) : option nat :=
  option_map nid (hd_error (after k (siblings k ns))).

Definition nextElementSibling (k : nat) (ns : list node) : option nat :=
  option_map nid (find is_element (after k (siblings k ns))).

(** [c.contains(k)]: [k] is [c] or one of its descendants. *)
Definition contains (c k : nat) (ns : list node) : bool :=
  match lookup c ns with
  | Some n => existsb (Nat.eqb k) (nids n)
  | None => false
  end.

(** [c.children]: the element children of [c]. *)
Definition element_children (c : nat) (ns : list node) : list node :=
  match lookup c ns with
  | Some n => filter is_element (children n)
  | None => []
  end.

Definition classes_of (k : nat) (ns : list node) : list string :=
  match lookup k ns with
  | Some (Elem _ e _) => classes e
  | _ => []
  end.

(** *** Selectors *)

Definition selector := element -> bool.

Definition matches (sel : selector) (n : node) : bool :=
  match n with Text _ _ => false | Elem _ e _ => sel e end.

Definition has_class (c : string) (e : element) : bool :=
  existsb (String.eqb c) (classes e).

(** [div.unifi-portal-1vz64y0.evzy7n80] *)
Definition container_sel : selector := fun e =>
  String.eqb (tag e) "div" && has_class "unifi-portal-1vz64y0" e && has_class "evzy7n80" e.

(** [a[data-testid="..."]] *)
Definition applink_sel (name : string) : selector := fun e =>
  String.eqb (tag e) "a" &&
  match testid e with Some v => String.eqb v name | None => false end.

Definition protect_sel : selector := applink_sel "applink-protect".
Definition network_sel : selector := applink_sel "applink-network".

(** [img, svg] and [rect] *)
Definition img_or_svg_sel : selector := fun e =>
  String.eqb (tag e) "img" || String.eqb (tag e) "svg".
Definition rect_sel : selector := fun e => String.eqb (tag e) "rect".

Definition id_sel (id : string) : selector := fun e => String.eqb (eid e) id.

(** [document.querySelector(sel)] *)
Definition querySelector (sel : selector) (ns : list node) : option nat :=
  option_map nid (first_node (matches sel) ns).

(** [c.querySelector(sel)]: among the descendants of [c], [c] excluded. *)
Definition querySelectorIn (c : nat) (sel : selector) (ns : list node) : option nat :=
  match lookup c ns with
  | Some n => querySelector sel (children n)
  | None => None
  end.

Definition getElementById (id : string) (ns : list node) : option nat :=
  querySelector (id_sel id) ns.

(** [document.documentElement] and [document.body]: the body is the first
    [body] or [frameset] child of an [html] document element. *)
Definition documentElement (ns : list node) : option node := find is_element ns.

Definition is_body (n : node) : bool :=
  matches (fun e => String.eqb (tag e) "body" || String.eqb (tag e) "frameset") n.

Definition body (ns : list node) : option nat :=
  match documentElement ns with
  | Some (Elem _ e cs) =>
      if String.eqb (tag e) "html" then option_map nid (find is_body cs) else None
  | _ => None
  end.

(** *** Mutation *)

Inductive result (A : Type) : Type :=
| Ok (a : A)
| Throw.
Arguments Ok {A} a.
Arguments Throw {A}.

(** Take every node with identity [k] out of the tree. *)
Fixpoint remove (k : nat) (n : node) : node :=
  match n with
  | Text _ _ => n
  | Elem i e cs => Elem i e (filter (fun c => negb (has_nid k c)) (map (remove k) cs))
  end.

Definition remove_f (k : nat) (ns : list node) : list node :=
  filter (fun c => negb (has_nid k c)) (map (remove k) ns).

(** Put [w] in a child list before the child [r], or at the end. *)
Fixpoint insert_before (r : nat) (w : node) (cs : list node) : list node :=
  match cs with
  | [] => [w]
  | c :: rest => if has_nid r c then w :: cs else c :: insert_before r w rest
  end.

Definition insert_children (w : node) (ref : option nat) (cs : list node) : list node :=
  match ref with
  | None => cs ++ [w]
  | Some r => insert_before r w cs
  end.

Fixpoint insert_at (p : nat) (w : node) (ref : option nat) (n : node) : node :=
  match n with
  | Text _ _ => n
  | Elem i e cs =>
      let cs' := map (insert_at p w ref) cs in
      Elem i e (if i =? p then insert_children w ref cs' else cs')
  end.

Definition insert_f (p : nat) (w : node) (ref : option nat) (ns : list node) : list node :=
  map (insert_at p w ref) ns.

(** Rewrite the attributes of the element [k]. *)
Fixpoint update (k : nat) (f : element -> element) (n : node) : node :=
  match n with
  | Text _ _ => n
  | Elem i e cs => Elem i (if i =? k then f e else e) (map (update k f) cs)
  end.

Definition update_f (k : nat) (f : element -> element) (ns : list node) : list node :=
  map (update k f) ns.

(** [classList.add(c)] for each non-empty [c] of [cls], in order. *)
Definition add_class (c : string) (l : list string) : list string :=
  if String.eqb c "" then l
  else if existsb (String.eqb c) l then l else l ++ [c].

Definition add_classes (cls : list string) (e : element) : element :=
  mkElement (tag e) (svg e) (eid e) (testid e)
            (fold_left (fun l c => add_class c l) cls (classes e))
            (others e) (listeners e).

Definition add_classes_node (cls : list string) (n : node) : node :=
  match n with
  | Text _ _ => n
  | Elem i e cs => Elem i (add_classes cls e) cs
  end.

(** [p.insertBefore(w, ref)] with the checks of the DOM standard: [p] must
    be able to have children, [w] must not be an inclusive ancestor of [p]
    (HierarchyRequestError), [ref] must be a child of [p] (NotFoundError).
    A node that is already in the tree is moved: it leaves its old place
    first, and when [ref] is [w] itself the reference becomes the next
    sibling of [w]. *)
Definition insertBefore (p : nat) (w : node) (ref : option nat) (ns : list node)
  : result (list node) :=
  match lookup p ns with
  | Some (Elem _ _ cs) =>
      if existsb (Nat.eqb p) (nids w) then Throw
      else
        let ok := match ref with
                  | Some r => existsb (has_nid r) cs
                  | None => true
                  end in
        if ok then
          let ref' := match ref with
                      | Some r => if r =? nid w then nextSibling (nid w) ns else ref
                      | None => None
                      end in
          Ok (insert_f p w ref' (remove_f (nid w) ns))
        else Throw
  | _ => Throw
  end.

Definition appendChild (p : nat) (w : node) (ns : list node) : result (list node) :=
  insertBefore p w None ns.

(** The same calls on a node that is looked up in the document. *)
Definition moveBefore (p k : nat) (ref : option nat) (ns : list node)
  : result (list node) :=
  match lookup k ns with
  | Some w => insertBefore p w ref ns
  | None => Throw
  end.

(** [t.insertAdjacentElement('afterend', w)]: nothing happens when [t] has
    no parent; a second element child of the document is refused. *)
Definition insertAdjacentAfterEnd (t : nat) (w : node) (ns : list node)
  : result (list node) :=
  match parentNode t ns with
  | None => Ok ns
  | Some PDocument => Throw
  | Some (PElement p) => insertBefore p w (nextSibling t ns) ns
  end.

(** ** The content script *)

Definition ICON_ID : string := "local-unifi-drive-icon".
Definition DEFAULT_LINK : jsstring := JsString.lit "https://example.com".

(** *** Environment and state *)

(** [chrome.runtime]: missing (no [chrome], or no [chrome.runtime.id]), live
    with the URL that [getURL('icons/DriveDark.png')] returns, or present
    with a [getURL] that raises. *)
Inductive runtime_env : Type :=
| RuntimeAbsent
| RuntimeLive (url : string)
| RuntimeThrows.

(** The two keys of [chrome.storage.sync]; [None] is a key never written. *)
Record settings : Type := mkSettings {
  driveLink : option jsstring;
  delayedCreate : option Q
}.

Inductive storage_env : Type :=
| StorageAbsent
| StorageLive (items : settings)
| StorageThrows.

(** A pending [setTimeout] of [loadAndCreate]: the link it captured and the
    [delayedSeconds] it was set with.  The delay handed to [setTimeout] is
    [delayedSeconds * 1000], a product of doubles, which is not computed
    here: a pending timer may fire at any later time. *)
Inductive timer : Type :=
| DelayedCreate (link : jsstring) (delayedSeconds : Q).

Record state : Type := mkState {
  doc : list node;
  last : option Z;                 (* createIcon._last *)
  currentDriveLink : jsstring;     (* _currentDriveLink *)
  fresh : nat;                     (* identities from here on are unused *)
  timers : list timer;
  runtime : runtime_env;
  storage : storage_env
}.

Definition with_doc (d : list node) (s : state) : state :=
  mkState d (last s) (currentDriveLink s) (fresh s) (timers s) (runtime s) (storage s).
Definition with_last (l : option Z) (s : state) : state :=
  mkState (doc s) l (currentDriveLink s) (fresh s) (timers s) (runtime s) (storage s).
Definition with_currentDriveLink (l : jsstring) (s : state) : state :=
  mkState (doc s) (last s) l (fresh s) (timers s) (runtime s) (storage s).
Definition with_fresh (f : nat) (s : state) : state :=
  mkState (doc s) (last s) (currentDriveLink s) f (timers s) (runtime s) (storage s).
Definition with_timers (t : list timer) (s : state) : state :=
  mkState (doc s) (last s) (currentDriveLink s) (fresh s) t (runtime s) (storage s).
Definition with_storage (st : storage_env) (s : state) : state :=
  mkState (doc s) (last s) (currentDriveLink s) (fresh s) (timers s) (runtime s) st.

(** How a call ends: it returns, or an exception leaves it.  Either way the
    state carries what the call did until then. *)
Inductive outcome : Type :=
| Returned (s : state)
| Threw (s : state).

Definition state_of (o : outcome) : state :=
  match o with Returned s => s | Threw s => s end.

(** *** Building the icon *)

Definition motif : string :=
  "M12 2C7.03 2 3 3.79 3 6v12c0 2.21 4.03 4 9 4s9-1.79 9-4V6c0-2.21-4.03-4-9-4zm0 2c3.87 0 7 1.12 7 2s-3.13 2-7 2-7-1.12-7-2 3.13-2 7-2zm0 14c-3.87 0-7-1.12-7-2V10c1.3 1.07 4.2 1.71 7 1.71s5.7-.64 7-1.71v6c0 .88-3.13 2-7 2z".

Definition make_img (i : nat) (src : string) : node :=
  Elem i (mkElement "img" false "" None ["local-unifi-drive-img"]
            [("title", "Open Drive Link"); ("alt", "Drive"); ("src", src)] []) [].

(** [makeInlineSvg]; the path is painted ['#60a5fa'] when the svg becomes
    the child of the wrapper. *)
Definition makeInlineSvg (i : nat) (fill : string) : node :=
  Elem i (mkElement "svg" true "" None ["local-unifi-drive-svg"]
            [("width", "28"); ("height", "28"); ("viewBox", "0 0 24 24")] [])
    [Elem (S i) (mkElement "path" true "" None [] [("fill", fill); ("d", motif)] []) []].

Definition make_wrapper (i : nat) (link : option jsstring) (childEl : node) : node :=
  Elem i (mkElement "a" false ICON_ID None ["local-unifi-drive-wrapper"]
            [("data-local-unifi-drive", "1"); ("role", "button");
             ("href", "#"); ("tabindex", "0")]
            [ClickOpen link])
    [childEl].

(** The wrapper of one [createIcon] call; it uses the identities [f] (the
    image), [f+1] and [f+2] (the inline svg and its path) and [f+3] (the
    wrapper). *)
Definition build_icon (rt : runtime_env) (link : option jsstring) (f : nat) : node :=
  let childEl :=
    match rt with
    | RuntimeLive url => make_img f url
    | RuntimeAbsent | RuntimeThrows => makeInlineSvg (f + 1) "#60a5fa"
    end in
  make_wrapper (f + 3) link childEl.

(** *** removeIcon *)

Definition removeIcon (d : list node) : list node :=
  match getElementById ICON_ID d with
  | Some el =>
      match parentNode el d with
      | Some _ => remove_f el d
      | None => d
      end
  | None => d
  end.

(** *** Helpers of the placement *)

(** The element ancestors of [k], nearest first. *)
Fixpoint ancestors_in (k : nat) (n : node) : option (list nat) :=
  match n with
  | Text i _ => if i =? k then Some [] else None
  | Elem i _ cs =>
      if i =? k then Some []
      else
        (fix go (l : list node) : option (list nat) :=
           match l with
           | [] => None
           | c :: r =>
               match ancestors_in k c with
               | Some up => Some (up ++ [i])
               | None => go r
               end
           end) cs
  end.

Fixpoint ancestors (k : nat) (ns : list node) : list nat :=
  match ns with
  | [] => []
  | n :: r =>
      match ancestors_in k n with
      | Some up => up
      | None => ancestors k r
      end
  end.

(** The container: the explicit header container, else the nearest
    ancestor of the network anchor that contains the protect anchor, else
    [document.body] ([None] when there is none). *)
Definition resolve_container (d : list node) : option nat :=
  match querySelector container_sel d with
  | Some sc => Some sc
  | None =>
      match querySelector network_sel d, querySelector protect_sel d with
      | Some n, Some p =>
          match find (fun anc => contains anc p d) (ancestors n d) with
          | Some anc => Some anc
          | None => body d
          end
      | _, _ => body d
      end
  end.

Definition findDirectChildContaining (anchor containerEl : nat) (d : list node)
  : option nat :=
  option_map nid
    (find (fun child => existsb (Nat.eqb anchor) (nids child))
          (element_children containerEl d)).

Fixpoint index_of (k : nat) (l : list node) : option nat :=
  match l with
  | [] => None
  | c :: r => if has_nid k c then Some 0 else option_map S (index_of k r)
  end.

(** [k.parentElement || c] *)
Definition parent_or (k c : nat) (d : list node) : nat :=
  match parentElement k d with
  | Some p => p
  | None => c
  end.

(** How the body of a [try] ends: with the document it produced, or with an
    exception, the wrapper still detached (and as it was built so far). *)
Inductive completion : Type :=
| Normal (d : list node)
| Abrupt (w : node).

(** Insert an existing or new node after the direct child of [c] that holds
    the anchor: before [c.children[idx + 1]] when that child is found among
    [c.children], else after [topChild] in its own parent. *)
Definition insert_after_top (w : node) (c topChild : nat) (d : list node)
  : result (list node) :=
  let kids := element_children c d in
  match index_of topChild kids with
  | Some idx => insertBefore c w (option_map nid (nth_error kids (S idx))) d
  | None => insertBefore (parent_or topChild c d) w (nextSibling topChild d) d
  end.

Definition robust_insert (w : node) (c anchor : nat) (d : list node) : completion :=
  let topChild :=
    match findDirectChildContaining anchor c d with
    | Some t => t
    | None => anchor
    end in
  let w' := add_classes_node (classes_of topChild d) w in
  match insert_after_top w' c topChild d with
  | Ok d' => Normal d'
  | Throw =>
      match insertAdjacentAfterEnd topChild w' d with
      | Ok d' => Normal d'
      | Throw =>
          match insertBefore (parent_or topChild c d) w' (nextSibling topChild d) d with
          | Ok d' => Normal d'
          | Throw => Abrupt w'
          end
      end
  end.

(** *** repairExisting *)

(** The end of [repairExisting]: the first [img] or [svg] under the icon;
    an inline svg loses its first [rect].  (For an [img] only its [src],
    dataset and class change.) *)
Definition scrub (existing : nat) (d : list node) : list node :=
  match querySelectorIn existing img_or_svg_sel d with
  | Some child =>
      match lookup child d with
      | Some (Elem _ e _) =>
          if String.eqb (tag e) "img" then d
          else if svg e then
            match querySelectorIn child rect_sel d with
            | Some rect =>
                match parentNode rect d with
                | Some _ => remove_f rect d
                | None => d
                end
            | None => d
            end
          else d
      | _ => d
      end
  | None => d
  end.

Definition copy_host_classes (pa : option nat) (existing : nat) (d : list node)
  : list node :=
  match pa with
  | Some a =>
      match parentElement a d with
      | Some host => update_f existing (add_classes (classes_of host d)) d
      | None => d
      end
  | None => d
  end.

(** The move of [repairExisting]: after the protect anchor; when that
    raises, after the direct child of the header that holds the anchor;
    when that raises too, or without an anchor, at the end of the header. *)
Definition repair_move (existing sc : nat) (pa : option nat) (d : list node)
  : result (list node) :=
  match pa with
  | Some a =>
      match parentElement a d with
      | Some par =>
          match moveBefore par existing (nextSibling a d) d with
          | Ok d' => Ok d'
          | Throw =>
              let topChild :=
                match findDirectChildContaining a sc d with
                | Some t => t
                | None => a
                end in
              match lookup existing d with
              | Some w =>
                  match insert_after_top w sc topChild d with
                  | Ok d' => Ok d'
                  | Throw => moveBefore sc existing None d
                  end
              | None => moveBefore sc existing None d
              end
          end
      | None => moveBefore sc existing None d
      end
  | None => moveBefore sc existing None d
  end.

Definition repairExisting (d : list node) : list node :=
  match getElementById ICON_ID d with
  | None => d
  | Some existing =>
      match querySelector container_sel d with
      | None => d
      | Some sc =>
          let pa := querySelectorIn sc protect_sel d in
          match repair_move existing sc pa d with
          | Throw => d
          | Ok d1 => scrub existing (copy_host_classes pa existing d1)
          end
      end
  end.

(** *** createIcon *)

Definition debounced (now : Z) (s : state) : bool :=
  match last s with
  | Some l => negb (l =? 0)%Z && (now - l <? 500)%Z
  | None => false
  end.

Definition eqb_handle (a b : option nat) : bool :=
  match a, b with
  | Some x, Some y => x =? y
  | None, None => true
  | _, _ => false
  end.

(** The verification pass after the plain append. *)
Definition verification_pass (pa : option nat) (c : nat) (d : list node)
  : list node :=
  match pa, getElementById ICON_ID d with
  | Some a, Some created =>
      let d1 :=
        if eqb_handle (nextElementSibling a d) (Some created) then d
        else
          match parentElement a d with
          | Some par =>
              match moveBefore par created (nextSibling a d) d with
              | Ok d' => d'
              | Throw => d
              end
          | None => d
          end in
      if eqb_handle (nextElementSibling a d1) (Some created) then d1
      else
        let topChild :=
          match findDirectChildContaining a c d1 with
          | Some t => t
          | None => a
          end in
        match lookup created d1 with
        | Some w =>
            match insert_after_top w c topChild d1 with
            | Ok d' => d'
            | Throw => d1
            end
        | None => d1
        end
  | _, _ => d
  end.

(** The body of the [try] of [createIcon]. *)
Definition place_try (w : node) (c : nat) (pa na : option nat) (d : list node)
  : completion :=
  match pa with
  | Some a =>
      let par := parent_or a c d in
      match insertBefore par w (nextSibling a d) d with
      | Ok d' => Normal (update_f (nid w) (add_classes (classes_of par d')) d')
      | Throw => robust_insert w c a d
      end
  | None =>
      match na with
      | Some n => robust_insert w c n d
      | None =>
          match appendChild c w d with
          | Ok d1 => Normal (repairExisting (verification_pass pa c d1))
          | Throw => Abrupt w
          end
      end
  end.

(** The whole placement once the container is known, the last resort of
    the outer [catch] included. *)
Definition place (w : node) (c : nat) (d : list node) : list node :=
  let protectAnchor := querySelectorIn c protect_sel d in
  let networkAnchor := querySelectorIn c network_sel d in
  match place_try w c protectAnchor networkAnchor d with
  | Normal d' => d'
  | Abrupt w' =>
      match body d with
      | Some b =>
          match appendChild b w' d with
          | Ok d' => d'
          | Throw => d
          end
      | None => d
      end
  end.

Definition createIcon (link : option jsstring) (now : Z) (s : state) : outcome :=
  if debounced now s then Returned s
  else
    let d1 := removeIcon (doc s) in
    let wrapper := build_icon (runtime s) link (fresh s) in
    let s1 := with_fresh (fresh s + 4) (with_doc d1 (with_last (Some now) s)) in
    match resolve_container d1 with
    | None => Threw s1
    | Some container => Returned (with_doc (place wrapper container d1) s1)
    end.

(** *** loadAndCreate and the watchers *)

Definition positive (q : Q) : bool := (0 <? Qnum q)%Z.

(** [apply] of [loadAndCreate]; [now] and [now'] are the clock readings of
    the call and of the retry in the [catch]. *)
Definition apply_settings (link : jsstring) (delayedSeconds : Q) (now now' : Z)
  (s : state) : outcome :=
  let l := JsString.or_else link DEFAULT_LINK in
  let schedule (s' : state) : state :=
    if positive delayedSeconds
    then with_timers (timers s' ++ [DelayedCreate l delayedSeconds]) s'
    else s' in
  match createIcon (Some l) now s with
  | Returned s1 => Returned (schedule s1)
  | Threw s1 =>
      match createIcon (Some DEFAULT_LINK) now' s1 with
      | Returned s2 => Returned (schedule s2)
      | Threw s2 => Threw s2
      end
  end.

Definition stored_link (items : settings) : jsstring :=
  match driveLink items with Some l => l | None => [] end.

(** [Number(items.delayedCreate || 0)] with the default 5 of the [get]. *)
Definition stored_delay (items : settings) : Q :=
  match delayedCreate items with
  | Some q => if (Qnum q =? 0)%Z then 0%Q else q
  | None => 5%Q
  end.

(** [loadAndCreate] with the answer of the store: on a live store, the call
    and the callback of the [get] it issues, which runs at [now]; otherwise
    the call alone, which runs [apply] itself. *)
Definition loadAndCreate (now now' : Z) (s : state) : outcome :=
  match storage s with
  | StorageLive items =>
      let l := JsString.or_else (stored_link items) DEFAULT_LINK in
      apply_settings l (stored_delay items) now now' (with_currentDriveLink l s)
  | StorageAbsent | StorageThrows =>
      apply_settings DEFAULT_LINK 5%Q now now' (with_currentDriveLink DEFAULT_LINK s)
  end.

(** What a call leaves behind to run later: the callback of
    [chrome.storage.sync.get], which is [loadAndCreate] on a live store;
    the interval and the navigation listeners of the persistent watcher,
    which run [checkAndCreate]; the mutation observer on its target; and
    the one-time delayed [createIcon()]. *)
Inductive deferred : Type :=
| GetCallback
| Watcher
| Observer (target : option nat)
| DelayedCreate5.

(** [loadAndCreate] up to its return: on a live store the call issues
    [chrome.storage.sync.get] and returns, with the state as it was and the
    callback pending; without one it sets the link and runs [apply] before
    it returns. *)
Definition loadAndCreate_call (now now' : Z) (s : state) : outcome * list deferred :=
  match storage s with
  | StorageLive _ => (Returned s, [GetCallback])
  | StorageAbsent | StorageThrows => (loadAndCreate now now' s, [])
  end.

(** The answer of the store: a pending callback of [get] runs, at [now], on
    the state the call has left, with no other event in between. *)
Definition settle (now now' : Z) (r : outcome * list deferred) : outcome :=
  match r with
  | (Returned s, GetCallback :: _) => loadAndCreate now now' s
  | (o, _) => o
  end.

Definition last_or_zero (s : state) : Z :=
  match last s with Some l => l | None => 0%Z end.

Definition icon_lost (s : state) : result bool :=
  match getElementById ICON_ID (doc s) with
  | None => Ok true
  | Some icon =>
      match body (doc s) with
      | Some b => Ok (negb (contains b icon (doc s)))
      | None => Throw
      end
  end.

(** The callback of the mutation observer up to its return; [t] is its own
    clock reading, [now] and [now'] are those of the [apply] that
    [loadAndCreate] runs when there is no live store. *)
Definition observer_callback (t now now' : Z) (s : state) : outcome * list deferred :=
  match icon_lost s with
  | Throw => (Threw s, [])
  | Ok false => (Returned s, [])
  | Ok true =>
      if (t - last_or_zero s <? 1000)%Z then (Returned s, [])
      else loadAndCreate_call now now' s
  end.

(** The callback of the mutation observer with the answer of the store:
    when the callback has issued a [get], the callback of that [get] runs
    next, at [now]. *)
Definition observer (t now now' : Z) (s : state) : outcome :=
  settle now now' (observer_callback t now now' s).

(** [checkAndCreate] of the persistent watcher: the flag tells the poll to
    stop. *)
Definition checkAndCreate (now : Z) (s : state) : bool * state :=
  match querySelector protect_sel (doc s), getElementById ICON_ID (doc s) with
  | Some _, None =>
      match createIcon None now s with
      | Returned s' => (true, s')
      | Threw s' => (false, s')
      end
  | _, _ => (false, s)
  end.

(** The [i]-th pending timer of [loadAndCreate] fires. *)
Definition fire_timer (i : nat) (now : Z) (s : state) : state :=
  match nth_error (timers s) i with
  | Some (DelayedCreate link _) =>
      let s' := with_timers (firstn i (timers s) ++ skipn (S i) (timers s)) s in
      state_of (createIcon (Some (JsString.or_else link DEFAULT_LINK)) now s')
  | None => s
  end.

(** *** The click on the icon *)

Inductive effect : Type :=
| PreventDefault
| WindowOpen (url : jsstring) (target : string).

(** [link || _currentDriveLink || DEFAULT_LINK] *)
Definition click_target (link : option jsstring) (s : state) : jsstring :=
  let l := match link with Some l => l | None => [] end in
  JsString.or_else l (JsString.or_else (currentDriveLink s) DEFAULT_LINK).

Definition run_listener (s : state) (l : listener) : list effect :=
  match l with
  | ClickOpen link => [PreventDefault; WindowOpen (click_target link s) "_blank"]
  end.

(** A click event dispatched on the node [k]. *)
Definition click (k : nat) (s : state) : list effect :=
  match lookup k (doc s) with
  | Some (Elem _ e _) => flat_map (run_listener s) (listeners e)
  | _ => []
  end.

(** ** The options page *)

(** The click handler of the save button: the text of the link input and
    the number read from the delay input ([None] when it is not a number). *)
Definition save (input : jsstring) (delay : option Q) : settings :=
  mkSettings (Some (JsString.trim input))
             (Some match delay with
                   | Some q => q
                   | None => 0%Q
                   end).

(** [load] of the options page: the text it puts in the link input. *)
Definition options_load (items : settings) : jsstring :=
  JsString.or_else (stored_link items) [].

(** [load] of the options page: the number it puts in the delay input,
    [Number(items.delayedCreate || 5)] ([save] only ever stores a
    number). *)
Definition options_load_delay (items : settings) : Q :=
  match delayedCreate items with
  | Some q => if (Qnum q =? 0)%Z then 5%Q else q
  | None => 5%Q
  end.

(** What a handler of the options page does to the outside. *)
Inductive options_effect : Type :=
| OptionsOpen (url : jsstring) (target : string)
| OptionsAlert (message : string).

(** The click handler of the open button. *)
Definition open_click (input : jsstring) : options_effect :=
  let val := JsString.trim input in
  if JsString.truthy val then OptionsOpen val "_blank"
  else OptionsAlert "Please enter a link first".

(** ** The events of a page

    What can run after the script has started: the calls of the page
    bridges ([create], [remove], [repair]) and of the one-shot delayed
    create, the callback of the mutation observer, the poll of the
    persistent watcher, a pending timer of [loadAndCreate], and a save on
    the options page with the [storage.onChanged] listener it triggers.
    The observer and the listener are taken with the answer of the store
    to the [get] they issue. *)

Fixpoint jsstring_eqb (a b : jsstring) : bool :=
  match a, b with
  | [], [] => true
  | x :: a', y :: b' => N.eqb x y && jsstring_eqb a' b'
  | _, _ => false
  end.

(** The listener of [chrome.storage.onChanged] up to its return:
    [changes.driveLink] is there when the stored value is a new one. *)
Definition onChanged (old new : settings) (now now' : Z) (s : state)
  : outcome * list deferred :=
  let changed :=
    match driveLink old, driveLink new with
    | Some a, Some b => negb (jsstring_eqb a b)
    | None, None => false
    | _, _ => true
    end in
  if changed then loadAndCreate_call now now' s else (Returned s, []).

(** The listener with the answer of the store. *)
Definition storage_changed (old new : settings) (now now' : Z) (s : state) : state :=
  state_of (settle now now' (onChanged old new now now' s)).

Inductive action : Type :=
| ACreate (link : option jsstring) (now : Z)
| ARemove
| ARepair
| AObserver (t now now' : Z)
| APoll (now : Z)
| ATimer (i : nat) (now : Z)
| ASave (input : jsstring) (delay : option Q) (now now' : Z).

Definition step (a : action) (s : state) : state :=
  match a with
  | ACreate link now => state_of (createIcon link now s)
  | ARemove => with_doc (removeIcon (doc s)) s
  | ARepair => with_doc (repairExisting (doc s)) s
  | AObserver t now now' => state_of (observer t now now' s)
  | APoll now => snd (checkAndCreate now s)
  | ATimer i now => fire_timer i now s
  | ASave input delay now now' =>
      match storage s with
      | StorageLive old =>
          storage_changed old (save input delay) now now'
            (with_storage (StorageLive (save input delay)) s)
      | StorageAbsent | StorageThrows => s
      end
  end.

Fixpoint run (l : list action) (s : state) : state :=
  match l with
  | [] => s
  | a :: r => run r (step a s)
  end.

Inductive reachable (s0 : state) : state -> Prop :=
| reach_init : reachable s0 s0
| reach_step (a : action) (s : state) : reachable s0 s -> reachable s0 (step a s).

(** ** The start of the script and the page bridges *)

(** The target of [ensureObserver]: the header container, else
    [document.documentElement]. *)
Definition observer_target (d : list node) : option nat :=
  match querySelector container_sel d with
  | Some c => Some c
  | None => option_map nid (documentElement d)
  end.

(** [start], which runs once, when no watcher is installed and no delayed
    create is scheduled yet: the repair of a leftover icon, [loadAndCreate]
    (on a live store only the [get] is issued now, and [apply] runs in its
    callback), the first check of the persistent watcher at [t], the
    observer and the delayed create.  An exception that leaves
    [loadAndCreate] leaves [start], and nothing after it is set up. *)
Definition start (now now' t : Z) (s : state) : outcome * list deferred :=
  let s1 := with_doc (repairExisting (doc s)) s in
  let finish (s2 : state) (pending : list deferred) : outcome * list deferred :=
    let s3 := snd (checkAndCreate t s2) in
    (Returned s3,
     pending ++ [Watcher; Observer (observer_target (doc s3)); DelayedCreate5]) in
  match storage s1 with
  | StorageLive _ => finish s1 [GetCallback]
  | StorageAbsent | StorageThrows =>
      match loadAndCreate now now' s1 with
      | Returned s2 => finish s2 []
      | Threw s2 => (Threw s2, [])
      end
  end.

(** The answer of a page bridge: [status: 'ok'] or [status: 'error'] with
    the action it was asked for (the text of the error is left out). *)
Inductive response : Type :=
| Acknowledged (action : string)
| Failed (action : string).

(** The listener of the [local-unifi-drive] event, and just so the one of
    the [message] event: [action] is [detail.action], the empty string
    when it is missing. *)
Definition bridge (action : string) (link : option jsstring) (now : Z) (s : state)
  : state * option response :=
  if String.eqb action "" then (s, None)
  else if String.eqb action "create" then
    match createIcon link now s with
    | Returned s' => (s', Some (Acknowledged action))
    | Threw s' => (s', Some (Failed action))
    end
  else if String.eqb action "remove" then
    (with_doc (removeIcon (doc s)) s, Some (Acknowledged action))
  else if String.eqb action "repair" then
    (with_doc (repairExisting (doc s)) s, Some (Acknowledged action))
  else (s, Some (Acknowledged action)).

(** * Well-formed documents and the reserved identifier *)

Fixpoint nodupb (l : list nat) : bool :=
  match l with
  | [] => true
  | x :: r => negb (existsb (Nat.eqb x) r) && nodupb r
  end.

(** Node identities are pairwise different and below the next free one. *)
Definition wf_doc (d : list node) (f : nat) : bool :=
  nodupb (nids_f d) && forallb (fun i => i <? f) (nids_f d).

Definition is_icon (n : node) : bool := matches (id_sel ICON_ID) n.

(** The number of elements that carry the reserved identifier. *)
Definition count_icons (d : list node) : nat :=
  List.length (filter is_icon (all_nodes d)).

(** The tags the placer keys on. *)
Definition keyed (t : string) : bool :=
  existsb (String.eqb t) ["html"; "body"; "frameset"; "div"; "a"].

Definition plain (n : node) : bool :=
  match n with
  | Text _ _ => true
  | Elem _ e _ => negb (keyed (tag e))
  end.

(** The shape of an icon: an [a] element without [data-testid] whose
    descendants are none of the elements the placer looks for. *)
Definition icon_shape (n : node) : bool :=
  match n with
  | Text _ _ => true
  | Elem _ e cs =>
      String.eqb (tag e) "a"
      && match testid e with None => true | Some _ => false end
      && forallb plain (all_nodes cs)
  end.

(** The identifier is reserved: whatever carries it has the shape of an
    icon. *)
Definition icons_ok (d : list node) : bool :=
  forallb (fun n => implb (is_icon n) (icon_shape n)) (all_nodes d).

Definition wf_state (s : state) : bool :=
  wf_doc (doc s) (fresh s) && (count_icons (doc s) <=? 1) && icons_ok (doc s).

(** * Vocabulary of the proofs *)

(** What a mutation keeps of a node when it moves it: its identity and,
    for an element, its attributes. *)
Definition label (n : node) : nat * option element :=
  match n with
  | Text i _ => (i, None)
  | Elem i e _ => (i, Some e)
  end.

(** The labels of a document, in document order. *)
Definition labels (ns : list node) : list (nat * option element) :=
  map label (all_nodes ns).

(** The label of an element that carries the reserved identifier. *)
Definition icon_label (l : nat * option element) : bool :=
  match snd l with
  | Some e => id_sel ICON_ID e
  | None => false
  end.

(** The label of a node after [update k f]. *)
Definition relabel (k : nat) (f : element -> element) (l : nat * option element)
  : nat * option element :=
  (fst l, if fst l =? k then option_map f (snd l) else snd l).

(** A node with its class list replaced. *)
Definition with_classes (cls : list string) (n : node) : node :=
  match n with
  | Text _ _ => n
  | Elem i e cs =>
      Elem i (mkElement (tag e) (svg e) (eid e) (testid e) cls (others e) (listeners e)) cs
  end.

(** The wrapper of the call that started with [f] as next free identity,
    whatever classes it has been given since. *)
Definition is_wrapper (rt : runtime_env) (link : option jsstring) (f : nat) (n : node)
  : Prop :=
  exists cls, n = with_classes cls (build_icon rt link f).

(** Pairwise different identities, all below [f]. *)
Definition sound (d : list node) (f : nat) : Prop :=
  NoDup (nids_f d) /\ Forall (fun i => i < f) (nids_f d).

(** The invariant of the script: distinct identities and at most one
    icon. *)
Definition singleton (s : state) : Prop :=
  sound (doc s) (fresh s) /\ count_icons (doc s) <= 1.

(** A selector of the placer: what it matches has a keyed tag, and an [a]
    only with a [data-testid]. *)
Definition host_sel (sel : selector) : Prop :=
  forall e, sel e = true ->
            keyed (tag e) = true /\
            (String.eqb (tag e) "a" = true -> testid e <> None).

(** The tags of [document.documentElement] and [document.body]. *)
Definition html_sel : selector := fun e => String.eqb (tag e) "html".

Definition body_sel : selector := fun e =>
  String.eqb (tag e) "body" || String.eqb (tag e) "frameset".

(** [d'] is [d0] with the wrapper [w] somewhere in it, and it has the body
    that [d0] has. *)
Definition placed_in (d0 d' : list node) (w : node) : Prop :=
  Permutation (labels d') (labels d0 ++ labels [w]) /\ In w (all_nodes d') /\
  (forall b, body d0 = Some b -> body d' = Some b).

(** The state in which [createIcon] places the wrapper, once the debounce is
    passed and the old icon is out. *)
Definition cleared (now : Z) (s : state) : state :=
  with_fresh (fresh s + 4) (with_doc (removeIcon (doc s)) (with_last (Some now) s)).

(** The container of a document without protect anchor: the explicit
    header container, else the body. *)
Definition plain_container (d : list node) (c : nat) : Prop :=
  querySelector container_sel d = Some c \/
  (querySelector container_sel d = None /\ body d = Some c).

(** [plain] read off a label. *)
Definition plain_label (l : nat * option element) : bool :=
  match snd l with
  | Some e => negb (keyed (tag e))
  | None => true
  end.

(** [a] is the identity of a descendant of the element [c]. *)
Definition inside (d : list node) (c a : nat) : Prop :=
  exists nc, lookup c d = Some nc /\ In a (nids_f (children nc)).

(** The link and the delay that [loadAndCreate] hands to [apply]: those of
    the store when it is live, the defaults otherwise. *)
Definition configured_link (s : state) : jsstring :=
  match storage s with
  | StorageLive items => JsString.or_else (stored_link items) DEFAULT_LINK
  | StorageAbsent | StorageThrows => DEFAULT_LINK
  end.

Definition configured_delay (s : state) : Q :=
  match storage s with
  | StorageLive items => stored_delay items
  | StorageAbsent | StorageThrows => 5%Q
  end.

(** * Example pages

    Small pages on which the script is run in the examples further down. *)

Module Page.

Definition el (t : string) (cls : list string) (tid : option string) : element :=
  mkElement t false "" tid cls [] [].

Definition network : node := Elem 5 (el "a" [] (Some "applink-network")) [].
Definition protect : node := Elem 6 (el "a" ["app"] (Some "applink-protect")) [].

(** The header of the console, with both anchors and some text after
    them. *)
Definition header : node :=
  Elem 4 (el "div" ["unifi-portal-1vz64y0"; "evzy7n80"] None)
    [network; protect; Text 7 " "].

(** The console: a doctype, a head, and a body with the header and the main
    view. *)
Definition console : list node :=
  [Text 0 "html";
   Elem 1 (el "html" [] None)
     [Elem 2 (el "head" [] None) [];
      Elem 3 (el "body" [] None) [header; Elem 8 (el "div" ["main"] None) []]]].

(** A document whose root has no child: [document.body] is [null]. *)
Definition bare : list node := [Elem 1 (el "html" [] None) []].

(** No header container and no protect anchor; the network anchor sits in
    a [div] of the body, followed by text and a paragraph. *)
Definition network_only : list node :=
  [Elem 1 (el "html" [] None)
     [Elem 3 (el "body" [] None)
        [Elem 8 (el "div" [] None) [network];
         Text 7 " ";
         Elem 9 (el "p" [] None) []]]].

(** Neither anchor: a body with one [div] and some text. *)
Definition plain_body : list node :=
  [Elem 1 (el "html" [] None)
     [Elem 3 (el "body" [] None) [Elem 8 (el "div" [] None) []; Text 7 " "]]].

(** The header container is there and empty, and the network anchor is
    outside of it. *)
Definition stray : list node :=
  [Elem 1 (el "html" [] None)
     [Elem 3 (el "body" [] None)
        [Elem 4 (el "div" ["unifi-portal-1vz64y0"; "evzy7n80"] None) [];
         network]]].

(** An earlier icon, an inline svg with a [rect], hangs on the body; the
    header is beside it. *)
Definition fallen : list node :=
  [Elem 1 (el "html" [] None)
     [Elem 3 (el "body" [] None)
        [header;
         Elem 30 (mkElement "a" false ICON_ID None ["local-unifi-drive-wrapper"] []
                    [ClickOpen None])
           [Elem 31 (mkElement "svg" true "" None [] [] [])
              [Elem 32 (mkElement "rect" true "" None [] [] []) []]]]]].

(** The header holds the network anchor only, and an earlier icon hangs on
    the body. *)
Definition no_protect : list node :=
  [Elem 1 (el "html" [] None)
     [Elem 3 (el "body" [] None)
        [Elem 4 (el "div" ["unifi-portal-1vz64y0"; "evzy7n80"] None)
           [network; Text 7 " "];
         Elem 30 (mkElement "a" false ICON_ID None ["local-unifi-drive-wrapper"] []
                    [ClickOpen None])
           [Elem 31 (mkElement "svg" true "" None [] [] [])
              [Elem 32 (mkElement "rect" true "" None [] [] []) []]]]]].

(** Another version of the console: the anchors sit in a [nav] that has
    none of the classes of the header container. *)
Definition other_header : list node :=
  [Elem 1 (el "html" [] None)
     [Elem 3 (el "body" [] None)
        [Elem 4 (el "nav" ["bar"] None) [network; protect; Text 7 " "];
         Elem 8 (el "div" ["main"] None) []]]].

(** The script has just started on the page [d]: nothing was created yet,
    and identities from [f] on are unused. *)
Definition start (d : list node) (f : nat) (st : storage_env) : state :=
  mkState d None DEFAULT_LINK f [] RuntimeAbsent st.

Definition files : jsstring := JsString.lit "https://files.example.org/x".
Definition other : jsstring := JsString.lit "https://nas.example.org/y".

End Page.

(** * Lists *)

Section ListFacts.
Context {A : Type}.

Lemma find_app (P : A -> bool) (l1 l2 : list A) :
    find P (l1 ++ l2) =
    match find P l1 with Some x => Some x | None => find P l2 end.
Proof.
    induction l1 as [|x l1 IH]; simpl; [reflexivity|].
    destruct (P x); [reflexivity|apply IH].
Qed.

Lemma find_none_iff (P : A -> bool) (l : list A) :
    find P l = None <-> (forall x, In x l -> P x = false).
Proof.
    split.
    - intros H x Hx. exact (find_none P l H x Hx).
    - induction l as [|x l IH]; simpl; intros H; [reflexivity|].
      rewrite (H x (or_introl eq_refl)). apply IH. intros y Hy. apply H. now right.
Qed.

Lemma find_in (P : A -> bool) (l : list A) (x : A) :
    find P l = Some x -> In x l /\ P x = true.
Proof. apply find_some. Qed.

Lemma filter_length_le (P : A -> bool) (l : list A) :
    List.length (filter P l) <= List.length l.
Proof.
    induction l as [|x l IH]; simpl; [lia|]. destruct (P x); simpl; lia.
Qed.

Lemma find_unique (f : A -> nat) (l : list A) (x : A) :
    NoDup (map f l) -> In x l -> find (fun y => f y =? f x) l = Some x.
Proof.
    induction l as [|y l IH]; simpl; intros Hnd Hin; [contradiction|].
    inversion Hnd as [|? ? Hn Hnd']; subst.
    destruct Hin as [->|Hin].
    - now rewrite Nat.eqb_refl.
    - destruct (f y =? f x) eqn:E.
      + apply Nat.eqb_eq in E. exfalso. apply Hn. rewrite E. now apply in_map.
      + now apply IH.
Qed.
End ListFacts.

Lemma nodupb_spec (l : list nat) : nodupb l = true <-> NoDup l.
Proof.
  induction l as [|x l IH]; simpl.
  - split; [constructor|reflexivity].
  - rewrite andb_true_iff, negb_true_iff, IH. split.
    + intros [Hx Hl]. constructor; [|exact Hl].
      intros Hin. apply Bool.not_true_iff_false in Hx. apply Hx.
      apply existsb_exists. exists x. split; [exact Hin|apply Nat.eqb_refl].
    + intros H. inversion H as [|? ? Hn Hl]; subst. split; [|exact Hl].
      apply Bool.not_true_iff_false. intros Hex. apply existsb_exists in Hex.
      destruct Hex as [y [Hy Hxy]]. apply Nat.eqb_eq in Hxy. now subst.
Qed.

Lemma existsb_eqb_In (k : nat) (l : list nat) :
  existsb (Nat.eqb k) l = true <-> In k l.
Proof.
  rewrite existsb_exists. split.
  - intros [x [Hx E]]. apply Nat.eqb_eq in E. now subst.
  - intros H. exists k. split; [exact H|apply Nat.eqb_refl].
Qed.

Lemma existsb_has_nid (k : nat) (l : list node) :
  existsb (has_nid k) l = true <-> In k (map nid l).
Proof.
  rewrite existsb_exists, in_map_iff. unfold has_nid. split.
  - intros [x [Hx E]]. apply Nat.eqb_eq in E. now exists x.
  - intros [x [E Hx]]. exists x. split; [exact Hx|now apply Nat.eqb_eq].
Qed.

(** * The shape of the tree *)

Lemma all_nodes_cons (n : node) (ns : list node) :
  all_nodes (n :: ns) = preorder n ++ all_nodes ns.
Proof. reflexivity. Qed.

Lemma all_nodes_app (l1 l2 : list node) :
  all_nodes (l1 ++ l2) = all_nodes l1 ++ all_nodes l2.
Proof. unfold all_nodes. apply flat_map_app. Qed.

Lemma preorder_elem (i : nat) (e : element) (cs : list node) :
  preorder (Elem i e cs) = Elem i e cs :: all_nodes cs.
Proof. reflexivity. Qed.

Lemma preorder_self (n : node) : In n (preorder n).
Proof. destruct n; simpl; now left. Qed.

Lemma preorder_children (n : node) :
  preorder n = n :: all_nodes (children n).
Proof. destruct n; reflexivity. Qed.

Lemma in_all_nodes (ns : list node) (m : node) :
  In m (all_nodes ns) <-> exists n, In n ns /\ In m (preorder n).
Proof. unfold all_nodes. rewrite in_flat_map. reflexivity. Qed.

Lemma top_in_all_nodes (ns : list node) (n : node) :
  In n ns -> In n (all_nodes ns).
Proof. intros H. apply in_all_nodes. exists n. split; [exact H|apply preorder_self]. Qed.

(** A descendant's descendants are descendants. *)
Lemma preorder_trans (n : node) :
  forall m x, In m (preorder n) -> In x (preorder m) -> In x (preorder n).
Proof.
  induction n as [i data|i e cs IH] using node_ind'; intros m x Hm Hx.
  - simpl in Hm. destruct Hm as [<-|[]]. exact Hx.
  - rewrite preorder_elem in Hm. destruct Hm as [<-|Hm]; [exact Hx|].
    rewrite preorder_elem. right.
    apply in_all_nodes in Hm. destruct Hm as [c [Hc Hm]].
    apply in_all_nodes. exists c. split; [exact Hc|].
    rewrite Forall_forall in IH. exact (IH c Hc m x Hm Hx).
Qed.

Lemma all_nodes_trans (ns : list node) (m x : node) :
  In m (all_nodes ns) -> In x (preorder m) -> In x (all_nodes ns).
Proof.
  intros Hm Hx. apply in_all_nodes in Hm. destruct Hm as [n [Hn Hm]].
  apply in_all_nodes. exists n. split; [exact Hn|].
  exact (preorder_trans n m x Hm Hx).
Qed.

Lemma children_in_all_nodes (ns : list node) (m c : node) :
  In m (all_nodes ns) -> In c (children m) -> In c (all_nodes ns).
Proof.
  intros Hm Hc. apply (all_nodes_trans ns m c Hm).
  rewrite preorder_children. right. now apply top_in_all_nodes.
Qed.

Lemma first_node_cons (P : node -> bool) (n : node) (ns : list node) :
  first_node P (n :: ns) =
  match find P (preorder n) with
  | Some x => Some x
  | None => first_node P ns
  end.
Proof. unfold first_node. rewrite all_nodes_cons. apply find_app. Qed.

Lemma find_preorder (P : node -> bool) (n : node) :
  find P (preorder n) = if P n then Some n else first_node P (children n).
Proof. rewrite preorder_children. reflexivity. Qed.

Lemma first_node_in (P : node -> bool) (ns : list node) (n : node) :
  first_node P ns = Some n -> In n (all_nodes ns) /\ P n = true.
Proof. apply find_some. Qed.

(** With pairwise different identities, the node behind an identity is
    any node of the document that has it. *)
Lemma lookup_unique (ns : list node) (n : node) :
  NoDup (nids_f ns) -> In n (all_nodes ns) -> lookup (nid n) ns = Some n.
Proof.
  intros Hnd Hin. unfold lookup, first_node, has_nid.
  exact (find_unique nid (all_nodes ns) n Hnd Hin).
Qed.

Lemma lookup_in (k : nat) (ns : list node) (n : node) :
  lookup k ns = Some n -> In n (all_nodes ns) /\ nid n = k.
Proof.
  intros H. apply first_node_in in H. destruct H as [Hin E].
  split; [exact Hin|now apply Nat.eqb_eq].
Qed.

Lemma lookup_none (k : nat) (ns : list node) :
  lookup k ns = None <-> ~ In k (nids_f ns).
Proof.
  unfold lookup, first_node, nids_f. rewrite find_none_iff. split.
  - intros H Hin. apply in_map_iff in Hin. destruct Hin as [x [E Hx]].
    specialize (H x Hx). unfold has_nid in H. apply Nat.eqb_neq in H. contradiction.
  - intros H x Hx. unfold has_nid. apply Nat.eqb_neq. intros E. apply H.
    rewrite <- E. now apply in_map.
Qed.

Lemma nids_f_cons (n : node) (ns : list node) :
  nids_f (n :: ns) = nids n ++ nids_f ns.
Proof. unfold nids_f, nids. rewrite all_nodes_cons. apply map_app. Qed.

Lemma nids_f_app (l1 l2 : list node) :
  nids_f (l1 ++ l2) = nids_f l1 ++ nids_f l2.
Proof. unfold nids_f. rewrite all_nodes_app. apply map_app. Qed.

Lemma nids_elem (i : nat) (e : element) (cs : list node) :
  nids (Elem i e cs) = i :: nids_f cs.
Proof. reflexivity. Qed.

Lemma nids_children (n : node) : nids n = nid n :: nids_f (children n).
Proof. destruct n; reflexivity. Qed.

Lemma nids_sub (ns : list node) (m : node) :
  In m (all_nodes ns) -> incl (nids m) (nids_f ns).
Proof.
  intros Hm k Hk. unfold nids in Hk. apply in_map_iff in Hk.
  destruct Hk as [x [E Hx]]. unfold nids_f. apply in_map_iff. exists x.
  split; [exact E|]. exact (all_nodes_trans ns m x Hm Hx).
Qed.

(** * Labels: what a node is, apart from its children *)

Lemma nid_label (n : node) : nid n = fst (label n).
Proof. destruct n; reflexivity. Qed.

Lemma is_icon_label (n : node) : is_icon n = icon_label (label n).
Proof. destruct n; reflexivity. Qed.

Lemma nids_f_labels (ns : list node) : nids_f ns = map fst (labels ns).
Proof.
  unfold nids_f, labels. rewrite map_map. apply map_ext. apply nid_label.
Qed.

Lemma filter_map_length {A B : Type} (f : A -> B) (P : B -> bool) (l : list A) :
  List.length (filter P (map f l)) = List.length (filter (fun x => P (f x)) l).
Proof.
  induction l as [|x l IH]; simpl; [reflexivity|].
  destruct (P (f x)); simpl; now rewrite IH.
Qed.

Lemma count_icons_labels (ns : list node) :
  count_icons ns = List.length (filter icon_label (labels ns)).
Proof.
  unfold count_icons, labels. rewrite filter_map_length.
  f_equal. apply filter_ext. apply is_icon_label.
Qed.

Lemma labels_cons (n : node) (ns : list node) :
  labels (n :: ns) = labels [n] ++ labels ns.
Proof.
  unfold labels. rewrite !all_nodes_cons. simpl. rewrite app_nil_r. apply map_app.
Qed.

Lemma labels_app (l1 l2 : list node) : labels (l1 ++ l2) = labels l1 ++ labels l2.
Proof. unfold labels. rewrite all_nodes_app. apply map_app. Qed.

Lemma labels_elem (i : nat) (e : element) (cs : list node) :
  labels [Elem i e cs] = (i, Some e) :: labels cs.
Proof. unfold labels. simpl. now rewrite app_nil_r. Qed.

Lemma labels_text (i : nat) (data : string) : labels [Text i data] = [(i, None)].
Proof. reflexivity. Qed.

Lemma Permutation_filter_length {A : Type} (P : A -> bool) (l l' : list A) :
  Permutation l l' -> List.length (filter P l) = List.length (filter P l').
Proof.
  induction 1 as [|x l l' _ IH|x y l|l l' l'' _ IH1 _ IH2]; simpl.
  - reflexivity.
  - destruct (P x); simpl; now rewrite IH.
  - destruct (P x), (P y); reflexivity.
  - now rewrite IH1.
Qed.

Section LabelPermutation.
Variables a b c : list node.
Hypothesis H : Permutation (labels a) (labels b ++ labels c).

Lemma perm_nids : Permutation (nids_f a) (nids_f b ++ nids_f c).
Proof.
    rewrite !nids_f_labels, <- map_app. now apply Permutation_map.
Qed.

Lemma perm_count : count_icons a = count_icons b + count_icons c.
Proof.
    rewrite !count_icons_labels, <- length_app, <- filter_app.
    now apply Permutation_filter_length.
Qed.
End LabelPermutation.

(** * Taking a node out *)

Lemma label_remove (k : nat) (n : node) : label (remove k n) = label n.
Proof. destruct n; reflexivity. Qed.

Lemma nid_remove (k : nat) (n : node) : nid (remove k n) = nid n.
Proof. destruct n; reflexivity. Qed.

Lemma has_nid_remove (k j : nat) (n : node) : has_nid j (remove k n) = has_nid j n.
Proof. unfold has_nid. now rewrite nid_remove. Qed.

Lemma remove_f_cons (k : nat) (n : node) (ns : list node) :
  remove_f k (n :: ns) =
  if has_nid k n then remove_f k ns else remove k n :: remove_f k ns.
Proof.
  unfold remove_f. simpl. rewrite has_nid_remove. now destruct (has_nid k n).
Qed.

Lemma remove_elem (k i : nat) (e : element) (cs : list node) :
  remove k (Elem i e cs) = Elem i e (remove_f k cs).
Proof. reflexivity. Qed.

Lemma remove_f_fresh_aux (k : nat) (cs : list node) :
  Forall (fun c => ~ In k (nids c) -> remove k c = c) cs ->
  ~ In k (nids_f cs) -> remove_f k cs = cs.
Proof.
  induction 1 as [|c cs Hc _ IH]; intros Hk; [reflexivity|].
  rewrite nids_f_cons in Hk. rewrite remove_f_cons.
  assert (Hc' : ~ In k (nids c)) by (intros X; apply Hk, in_or_app; now left).
  assert (E : has_nid k c = false).
  { unfold has_nid. apply Nat.eqb_neq. intros E. apply Hc'. rewrite <- E.
    rewrite nids_children. now left. }
  rewrite E, (Hc Hc'), IH; [reflexivity|].
  intros X; apply Hk, in_or_app; now right.
Qed.

Lemma remove_fresh (k : nat) (n : node) : ~ In k (nids n) -> remove k n = n.
Proof.
  induction n as [i data|i e cs IH] using node_ind'; intros Hk; [reflexivity|].
  rewrite remove_elem. f_equal. apply remove_f_fresh_aux; [exact IH|].
  rewrite nids_elem in Hk. intros X. apply Hk. now right.
Qed.

Lemma remove_f_fresh (k : nat) (ns : list node) :
  ~ In k (nids_f ns) -> remove_f k ns = ns.
Proof.
  apply remove_f_fresh_aux. apply Forall_forall. intros c _. apply remove_fresh.
Qed.

(** Under pairwise different identities, taking [k] out removes exactly the
    subtree behind [k]. *)
Lemma lookup_cons (k : nat) (n : node) (ns : list node) :
  lookup k (n :: ns) =
  if has_nid k n then Some n
  else match lookup k (children n) with
       | Some x => Some x
       | None => lookup k ns
       end.
Proof.
  unfold lookup. rewrite first_node_cons, find_preorder.
  now destruct (has_nid k n).
Qed.

Lemma NoDup_app_l {A : Type} (l1 l2 : list A) : NoDup (l1 ++ l2) -> NoDup l1.
Proof. intros H. apply NoDup_app_remove_r in H. exact H. Qed.

Lemma NoDup_app_r {A : Type} (l1 l2 : list A) : NoDup (l1 ++ l2) -> NoDup l2.
Proof. intros H. apply NoDup_app_remove_l in H. exact H. Qed.

Lemma NoDup_app_disjoint {A : Type} (l1 l2 : list A) (x : A) :
  NoDup (l1 ++ l2) -> In x l1 -> ~ In x l2.
Proof.
  induction l1 as [|y l1 IH]; simpl; intros Hnd Hin Hin2; [contradiction|].
  inversion Hnd as [|? ? Hn Hnd']; subst. destruct Hin as [->|Hin].
  - apply Hn, in_or_app. now right.
  - exact (IH Hnd' Hin Hin2).
Qed.

Lemma remove_perm_aux (k : nat) (wn : node) (cs : list node) :
  Forall (fun c => nid c <> k -> NoDup (nids c) -> lookup k (children c) = Some wn ->
                   Permutation (labels [c]) (labels [remove k c] ++ labels [wn])) cs ->
  NoDup (nids_f cs) -> lookup k cs = Some wn ->
  Permutation (labels cs) (labels (remove_f k cs) ++ labels [wn]).
Proof.
  induction 1 as [|c cs Hc _ IH]; intros Hnd Hl; [discriminate|].
  rewrite nids_f_cons in Hnd. rewrite lookup_cons in Hl.
  rewrite remove_f_cons, labels_cons.
  destruct (has_nid k c) eqn:E.
  - inversion Hl; subst wn. rewrite remove_f_fresh.
    + apply Permutation_app_comm.
    + apply (NoDup_app_disjoint _ _ k Hnd). unfold has_nid in E.
      apply Nat.eqb_eq in E. rewrite <- E, nids_children. now left.
  - unfold has_nid in E. apply Nat.eqb_neq in E.
    rewrite (labels_cons (remove k c)).
    destruct (lookup k (children c)) as [x|] eqn:Hc'.
    + inversion Hl; subst x. rewrite remove_f_fresh.
      * rewrite (Hc E (NoDup_app_l _ _ Hnd) eq_refl).
        rewrite <- !app_assoc. apply Permutation_app_head, Permutation_app_comm.
      * apply (NoDup_app_disjoint _ _ k Hnd). rewrite nids_children. right.
        apply lookup_in in Hc'. destruct Hc' as [Hin <-].
        unfold nids_f. now apply in_map.
    + rewrite remove_fresh.
      * rewrite <- app_assoc. apply Permutation_app_head.
        exact (IH (NoDup_app_r _ _ Hnd) Hl).
      * rewrite nids_children. intros [X|X]; [contradiction|].
        apply lookup_none in Hc'. contradiction.
Qed.

Lemma remove_perm_node (k : nat) (wn : node) (n : node) :
  nid n <> k -> NoDup (nids n) -> lookup k (children n) = Some wn ->
  Permutation (labels [n]) (labels [remove k n] ++ labels [wn]).
Proof.
  induction n as [i data|i e cs IH] using node_ind'; intros Hk Hnd Hl; [discriminate|].
  simpl in Hl. rewrite remove_elem, !labels_elem. simpl.
  apply perm_skip. apply remove_perm_aux; [exact IH| |exact Hl].
  rewrite nids_elem in Hnd. now inversion Hnd.
Qed.

Lemma remove_perm (k : nat) (wn : node) (ns : list node) :
  NoDup (nids_f ns) -> lookup k ns = Some wn ->
  Permutation (labels ns) (labels (remove_f k ns) ++ labels [wn]).
Proof.
  apply remove_perm_aux. apply Forall_forall. intros c _. apply remove_perm_node.
Qed.

(** * Putting a node in *)

Lemma label_insert_at (p : nat) (w : node) (ref : option nat) (n : node) :
  label (insert_at p w ref n) = label n.
Proof. destruct n; reflexivity. Qed.

Lemma nid_insert_at (p : nat) (w : node) (ref : option nat) (n : node) :
  nid (insert_at p w ref n) = nid n.
Proof. destruct n; reflexivity. Qed.

Lemma insert_at_elem (p : nat) (w : node) (ref : option nat) i e cs :
  insert_at p w ref (Elem i e cs) =
  Elem i e (if i =? p then insert_children w ref (insert_f p w ref cs)
            else insert_f p w ref cs).
Proof. reflexivity. Qed.

Lemma insert_f_fresh_aux (p : nat) (w : node) (ref : option nat) (cs : list node) :
  Forall (fun c => ~ In p (nids c) -> insert_at p w ref c = c) cs ->
  ~ In p (nids_f cs) -> insert_f p w ref cs = cs.
Proof.
  induction 1 as [|c cs Hc _ IH]; intros Hp; [reflexivity|].
  rewrite nids_f_cons in Hp. unfold insert_f in *. simpl.
  rewrite Hc, IH; [reflexivity| |]; intros X; apply Hp, in_or_app; auto.
Qed.

Lemma insert_at_fresh (p : nat) (w : node) (ref : option nat) (n : node) :
  ~ In p (nids n) -> insert_at p w ref n = n.
Proof.
  induction n as [i data|i e cs IH] using node_ind'; intros Hp; [reflexivity|].
  rewrite nids_elem in Hp. rewrite insert_at_elem.
  destruct (i =? p) eqn:E.
  - apply Nat.eqb_eq in E. exfalso. apply Hp. now left.
  - f_equal. apply insert_f_fresh_aux; [exact IH|]. intros X. apply Hp. now right.
Qed.

Lemma insert_f_fresh (p : nat) (w : node) (ref : option nat) (ns : list node) :
  ~ In p (nids_f ns) -> insert_f p w ref ns = ns.
Proof.
  apply insert_f_fresh_aux. apply Forall_forall. intros c _. apply insert_at_fresh.
Qed.

Lemma labels_insert_before (r : nat) (w : node) (l : list node) :
  Permutation (labels (insert_before r w l)) (labels l ++ labels [w]).
Proof.
  induction l as [|c l IH]; simpl.
  - apply Permutation_refl.
  - destruct (has_nid r c).
    + rewrite (labels_cons w). apply Permutation_app_comm.
    + rewrite (labels_cons c), (labels_cons c l), <- app_assoc.
      now apply Permutation_app_head.
Qed.

Lemma labels_insert_children (w : node) (ref : option nat) (l : list node) :
  Permutation (labels (insert_children w ref l)) (labels l ++ labels [w]).
Proof.
  destruct ref as [r|]; simpl.
  - apply labels_insert_before.
  - rewrite labels_app. apply Permutation_refl.
Qed.

Lemma insert_perm_aux p w ref e' cs' (cs : list node) :
  Forall (fun c => NoDup (nids c) -> lookup p [c] = Some (Elem p e' cs') ->
                   Permutation (labels [insert_at p w ref c]) (labels [c] ++ labels [w])) cs ->
  NoDup (nids_f cs) -> lookup p cs = Some (Elem p e' cs') ->
  Permutation (labels (insert_f p w ref cs)) (labels cs ++ labels [w]).
Proof.
  induction 1 as [|c cs Hc _ IH]; intros Hnd Hl; [discriminate|].
  rewrite nids_f_cons in Hnd.
  change (insert_f p w ref (c :: cs)) with (insert_at p w ref c :: insert_f p w ref cs).
  rewrite (labels_cons (insert_at p w ref c)), (labels_cons c).
  destruct (lookup p [c]) as [x|] eqn:Hc'.
  - assert (Hin : In p (nids c)).
    { apply lookup_in in Hc'. destruct Hc' as [Hin <-].
      unfold all_nodes in Hin. simpl in Hin. rewrite app_nil_r in Hin.
      unfold nids. now apply in_map. }
    assert (E : x = Elem p e' cs').
    { rewrite lookup_cons in Hl, Hc'. destruct (has_nid p c); [congruence|].
      destruct (lookup p (children c)); [congruence|discriminate]. }
    subst x. rewrite insert_f_fresh.
    + rewrite (Hc (NoDup_app_l _ _ Hnd) eq_refl).
      rewrite <- !app_assoc. apply Permutation_app_head, Permutation_app_comm.
    + exact (NoDup_app_disjoint _ _ p Hnd Hin).
  - rewrite insert_at_fresh.
    + rewrite <- app_assoc. apply Permutation_app_head.
      apply IH; [exact (NoDup_app_r _ _ Hnd)|].
      rewrite lookup_cons in Hl, Hc'. destruct (has_nid p c); [discriminate|].
      destruct (lookup p (children c)); [discriminate|exact Hl].
    + apply lookup_none in Hc'. unfold nids_f, all_nodes in Hc'. simpl in Hc'.
      rewrite app_nil_r in Hc'. exact Hc'.
Qed.

Lemma insert_perm_node p w ref e' cs' (n : node) :
  NoDup (nids n) -> lookup p [n] = Some (Elem p e' cs') ->
  Permutation (labels [insert_at p w ref n]) (labels [n] ++ labels [w]).
Proof.
  induction n as [i data|i e cs IH] using node_ind'; intros Hnd Hl.
  - rewrite lookup_cons in Hl. simpl in Hl. destruct (has_nid p (Text i data)); discriminate.
  - rewrite nids_elem in Hnd. inversion Hnd as [|? ? Hi Hnd']; subst.
    rewrite lookup_cons in Hl. simpl children in Hl.
    rewrite insert_at_elem, !labels_elem. simpl. apply perm_skip.
    unfold has_nid in Hl. simpl in Hl. destruct (i =? p) eqn:E.
    + apply Nat.eqb_eq in E. subst i. rewrite insert_f_fresh by exact Hi.
      apply labels_insert_children.
    + apply insert_perm_aux with (e' := e') (cs' := cs'); [exact IH|exact Hnd'|].
      destruct (lookup p cs); [exact Hl|discriminate].
Qed.

(** Inserting below an element of a well-formed document adds exactly the
    nodes of [w]. *)
Lemma insert_perm p w ref e' cs' (ns : list node) :
  NoDup (nids_f ns) -> lookup p ns = Some (Elem p e' cs') ->
  Permutation (labels (insert_f p w ref ns)) (labels ns ++ labels [w]).
Proof.
  apply insert_perm_aux. apply Forall_forall. intros c _. apply insert_perm_node.
Qed.

Lemma in_insert_before (r : nat) (w : node) (l : list node) :
  In w (insert_before r w l).
Proof.
  induction l as [|c l IH]; simpl; [now left|].
  destruct (has_nid r c); [now left|now right].
Qed.

Lemma in_insert_children (w : node) (ref : option nat) (l : list node) :
  In w (insert_children w ref l).
Proof.
  destruct ref; simpl; [apply in_insert_before|].
  apply in_or_app. right. now left.
Qed.

Lemma in_insert_aux p w ref e' cs' (cs : list node) :
  Forall (fun c => lookup p [c] = Some (Elem p e' cs') ->
                   In w (preorder (insert_at p w ref c))) cs ->
  lookup p cs = Some (Elem p e' cs') ->
  In w (all_nodes (insert_f p w ref cs)).
Proof.
  induction 1 as [|c cs Hc _ IH]; intros Hl; [discriminate|].
  change (insert_f p w ref (c :: cs)) with (insert_at p w ref c :: insert_f p w ref cs).
  rewrite all_nodes_cons. apply in_or_app.
  destruct (lookup p [c]) as [x|] eqn:Hc'.
  - left. apply Hc. rewrite lookup_cons in Hl, Hc'.
    destruct (has_nid p c); [congruence|].
    destruct (lookup p (children c)); [congruence|discriminate].
  - right. apply IH. rewrite lookup_cons in Hl, Hc'.
    destruct (has_nid p c); [discriminate|].
    destruct (lookup p (children c)); [discriminate|exact Hl].
Qed.

Lemma in_insert_node p w ref e' cs' (n : node) :
  lookup p [n] = Some (Elem p e' cs') -> In w (preorder (insert_at p w ref n)).
Proof.
  induction n as [i data|i e cs IH] using node_ind'; intros Hl.
  - rewrite lookup_cons in Hl. simpl in Hl. destruct (has_nid p (Text i data)); discriminate.
  - rewrite lookup_cons in Hl. simpl children in Hl.
    rewrite insert_at_elem, preorder_elem. right.
    unfold has_nid in Hl. simpl in Hl. destruct (i =? p) eqn:E.
    + apply top_in_all_nodes, in_insert_children.
    + apply in_insert_aux with (e' := e') (cs' := cs'); [exact IH|].
      destruct (lookup p cs); [exact Hl|discriminate].
Qed.

Lemma in_insert p w ref e' cs' (ns : list node) :
  lookup p ns = Some (Elem p e' cs') -> In w (all_nodes (insert_f p w ref ns)).
Proof.
  apply in_insert_aux. apply Forall_forall. intros c _. apply in_insert_node.
Qed.

(** * Rewriting attributes *)

Lemma label_update (k : nat) (f : element -> element) (n : node) :
  label (update k f n) = relabel k f (label n).
Proof. destruct n as [i data|i e cs]; unfold relabel; simpl; now destruct (i =? k). Qed.

Lemma nid_update (k : nat) (f : element -> element) (n : node) :
  nid (update k f n) = nid n.
Proof. destruct n; reflexivity. Qed.

Lemma update_elem k f i e cs :
  update k f (Elem i e cs) = Elem i (if i =? k then f e else e) (update_f k f cs).
Proof. reflexivity. Qed.

Lemma labels_update_aux (k : nat) (f : element -> element) (cs : list node) :
  Forall (fun c => labels [update k f c] = map (relabel k f) (labels [c])) cs ->
  labels (update_f k f cs) = map (relabel k f) (labels cs).
Proof.
  induction 1 as [|c cs Hc _ IH]; [reflexivity|].
  change (update_f k f (c :: cs)) with (update k f c :: update_f k f cs).
  now rewrite (labels_cons (update k f c)), (labels_cons c), map_app, Hc, IH.
Qed.

Lemma labels_update_node (k : nat) (f : element -> element) (n : node) :
  labels [update k f n] = map (relabel k f) (labels [n]).
Proof.
  induction n as [i data|i e cs IH] using node_ind'.
  - unfold relabel. simpl. now destruct (i =? k).
  - rewrite update_elem, !labels_elem. simpl. unfold relabel at 1. simpl.
    rewrite (labels_update_aux k f cs IH). now destruct (i =? k).
Qed.

Lemma labels_update (k : nat) (f : element -> element) (ns : list node) :
  labels (update_f k f ns) = map (relabel k f) (labels ns).
Proof.
  apply labels_update_aux. apply Forall_forall. intros c _. apply labels_update_node.
Qed.

Lemma nids_f_update (k : nat) (f : element -> element) (ns : list node) :
  nids_f (update_f k f ns) = nids_f ns.
Proof.
  rewrite !nids_f_labels, labels_update, map_map. apply map_ext. reflexivity.
Qed.

Lemma count_icons_update (k : nat) (f : element -> element) (ns : list node) :
  (forall e, eid (f e) = eid e) ->
  count_icons (update_f k f ns) = count_icons ns.
Proof.
  intros Hf. rewrite !count_icons_labels, labels_update, filter_map_length.
  f_equal. apply filter_ext. intros [i [e|]]; unfold relabel, icon_label; simpl;
    [|now destruct (i =? k)].
  destruct (i =? k); simpl; [|reflexivity]. unfold id_sel. now rewrite Hf.
Qed.

(** * Queries across a mutation

    A query is the first node, in document order, with some property.  When
    the property of a node survives the mutation and the nodes that come or
    go do not have it, the query finds the same node, mutated. *)

Section Commute.
Variable P : node -> bool.

Lemma first_node_insert_children (w : node) (ref : option nat) (l : list node) :
    find P (preorder w) = None ->
    first_node P (insert_children w ref l) = first_node P l.
Proof.
    intros W. destruct ref as [r|]; simpl.
    - induction l as [|c l IH]; simpl.
      + rewrite first_node_cons, W. reflexivity.
      + destruct (has_nid r c).
        * rewrite first_node_cons, W. reflexivity.
        * rewrite !first_node_cons, IH. reflexivity.
    - unfold first_node. rewrite all_nodes_app, find_app.
      destruct (find P (all_nodes l)); [reflexivity|].
      unfold all_nodes. simpl. now rewrite app_nil_r.
Qed.

Section Insert.
Variables (p : nat) (w : node) (ref : option nat).
Hypothesis Pstable : forall n, P (insert_at p w ref n) = P n.
Hypothesis W : find P (preorder w) = None.

Lemma first_node_insert_aux (cs : list node) :
      Forall (fun c => find P (preorder (insert_at p w ref c)) =
                       option_map (insert_at p w ref) (find P (preorder c))) cs ->
      first_node P (insert_f p w ref cs) =
      option_map (insert_at p w ref) (first_node P cs).
Proof.
      induction 1 as [|c cs Hc _ IH]; [reflexivity|].
      change (insert_f p w ref (c :: cs))
        with (insert_at p w ref c :: insert_f p w ref cs).
      rewrite !first_node_cons, Hc, IH.
      now destruct (find P (preorder c)).
Qed.

Lemma find_insert_node (n : node) :
      find P (preorder (insert_at p w ref n)) =
      option_map (insert_at p w ref) (find P (preorder n)).
Proof.
      induction n as [i data|i e cs IH] using node_ind'.
      - simpl. now destruct (P (Text i data)).
      - rewrite (find_preorder P (Elem i e cs)), find_preorder, Pstable.
        destruct (P (Elem i e cs)); [reflexivity|].
        rewrite insert_at_elem. simpl children.
        destruct (i =? p).
        + rewrite first_node_insert_children by exact W.
          now apply first_node_insert_aux.
        + now apply first_node_insert_aux.
Qed.

Lemma first_node_insert (ns : list node) :
      first_node P (insert_f p w ref ns) =
      option_map (insert_at p w ref) (first_node P ns).
Proof.
      apply first_node_insert_aux. apply Forall_forall. intros c _.
      apply find_insert_node.
Qed.
End Insert.

Section Remove.
Variable k : nat.
Hypothesis Pstable : forall n, P (remove k n) = P n.

    (** No node with identity [k] has a descendant with the property. *)
Definition clear_of (ns : list node) : Prop :=
      forall m x, In m (all_nodes ns) -> nid m = k -> In x (preorder m) -> P x = false.

Lemma clear_of_tail (n : node) (ns : list node) :
      clear_of (n :: ns) -> clear_of ns.
Proof.
      intros H m x Hm. apply H. rewrite all_nodes_cons. apply in_or_app. now right.
Qed.

Lemma clear_of_children (n : node) (ns : list node) :
      clear_of (n :: ns) -> clear_of (children n).
Proof.
      intros H m x Hm. apply H. rewrite all_nodes_cons. apply in_or_app. left.
      rewrite preorder_children. now right.
Qed.

Lemma first_node_remove_aux (cs : list node) :
      Forall (fun c => clear_of (children c) ->
                       find P (preorder (remove k c)) =
                       option_map (remove k) (find P (preorder c))) cs ->
      clear_of cs ->
      first_node P (remove_f k cs) = option_map (remove k) (first_node P cs).
Proof.
      induction 1 as [|c cs Hc _ IH]; intros Hcl; [reflexivity|].
      rewrite remove_f_cons, first_node_cons.
      destruct (has_nid k c) eqn:E.
      - assert (Hn : find P (preorder c) = None).
        { apply find_none_iff. intros x Hx. apply (Hcl c x); [|now apply Nat.eqb_eq|exact Hx].
          apply top_in_all_nodes. now left. }
        rewrite Hn. apply IH. exact (clear_of_tail _ _ Hcl).
      - rewrite first_node_cons, (Hc (clear_of_children _ _ Hcl)),
          (IH (clear_of_tail _ _ Hcl)).
        now destruct (find P (preorder c)).
Qed.

Lemma find_remove_node (n : node) :
      clear_of (children n) ->
      find P (preorder (remove k n)) = option_map (remove k) (find P (preorder n)).
Proof.
      induction n as [i data|i e cs IH] using node_ind'; intros Hcl.
      - simpl. now destruct (P (Text i data)).
      - rewrite (find_preorder P (Elem i e cs)), find_preorder, Pstable.
        destruct (P (Elem i e cs)); [reflexivity|].
        rewrite remove_elem. simpl children. now apply first_node_remove_aux.
Qed.

Lemma first_node_remove (ns : list node) :
      clear_of ns ->
      first_node P (remove_f k ns) = option_map (remove k) (first_node P ns).
Proof.
      apply first_node_remove_aux. apply Forall_forall. intros c _.
      apply find_remove_node.
Qed.
End Remove.

Section Update.
Variables (k : nat) (f : element -> element).
Hypothesis Pstable : forall n, P (update k f n) = P n.

Lemma first_node_update_aux (cs : list node) :
      Forall (fun c => find P (preorder (update k f c)) =
                       option_map (update k f) (find P (preorder c))) cs ->
      first_node P (update_f k f cs) = option_map (update k f) (first_node P cs).
Proof.
      induction 1 as [|c cs Hc _ IH]; [reflexivity|].
      change (update_f k f (c :: cs)) with (update k f c :: update_f k f cs).
      rewrite !first_node_cons, Hc, IH.
      now destruct (find P (preorder c)).
Qed.

Lemma find_update_node (n : node) :
      find P (preorder (update k f n)) = option_map (update k f) (find P (preorder n)).
Proof.
      induction n as [i data|i e cs IH] using node_ind'.
      - simpl. now destruct (P (Text i data)).
      - rewrite (find_preorder P (Elem i e cs)), find_preorder, Pstable.
        destruct (P (Elem i e cs)); [reflexivity|].
        rewrite update_elem. simpl children. now apply first_node_update_aux.
Qed.

Lemma first_node_update (ns : list node) :
      first_node P (update_f k f ns) = option_map (update k f) (first_node P ns).
Proof.
      apply first_node_update_aux. apply Forall_forall. intros c _.
      apply find_update_node.
Qed.
End Update.
End Commute.

(** ** What the mutations keep *)

Lemma map_nid_insert_f p w ref (cs : list node) :
  map nid (insert_f p w ref cs) = map nid cs.
Proof. unfold insert_f. rewrite map_map. apply map_ext. apply nid_insert_at. Qed.

Lemma map_nid_update_f k f (cs : list node) :
  map nid (update_f k f cs) = map nid cs.
Proof. unfold update_f. rewrite map_map. apply map_ext. apply nid_update. Qed.

Lemma in_map_nid_remove_f (k j : nat) (cs : list node) :
  In j (map nid (remove_f k cs)) <-> In j (map nid cs) /\ j <> k.
Proof.
  induction cs as [|c cs IH]; simpl; [tauto|].
  rewrite remove_f_cons. unfold has_nid. destruct (nid c =? k) eqn:E.
  - apply Nat.eqb_eq in E. rewrite IH. split; [tauto|].
    intros [[X|X] Hj]; [congruence|tauto].
  - apply Nat.eqb_neq in E. simpl. rewrite nid_remove, IH. split; [|tauto].
    intros [X|X]; [split; [now left|congruence]|tauto].
Qed.

Lemma in_map_nid_insert_children (j : nat) (w : node) (ref : option nat) (cs : list node) :
  In j (map nid (insert_children w ref cs)) <-> j = nid w \/ In j (map nid cs).
Proof.
  destruct ref as [r|]; simpl.
  - induction cs as [|c cs IH]; simpl; [intuition|].
    destruct (has_nid r c); simpl; [intuition|]. rewrite IH. intuition.
  - rewrite map_app, in_app_iff. simpl. intuition.
Qed.

Lemma existsb_ext_in_nid (j : nat) (l l' : list node) :
  (In j (map nid l) <-> In j (map nid l')) ->
  existsb (has_nid j) l = existsb (has_nid j) l'.
Proof.
  intros H. destruct (existsb (has_nid j) l') eqn:E.
  - apply existsb_has_nid. apply H. now apply existsb_has_nid.
  - apply Bool.not_true_iff_false. intros X. apply Bool.not_true_iff_false in E.
    apply E. apply existsb_has_nid. apply H. now apply existsb_has_nid.
Qed.

Lemma has_nid_insert_at j p w ref (n : node) :
  has_nid j (insert_at p w ref n) = has_nid j n.
Proof. unfold has_nid. now rewrite nid_insert_at. Qed.

Lemma has_nid_update j k f (n : node) : has_nid j (update k f n) = has_nid j n.
Proof. unfold has_nid. now rewrite nid_update. Qed.

Lemma matches_insert_at sel p w ref (n : node) :
  matches sel (insert_at p w ref n) = matches sel n.
Proof. destruct n; reflexivity. Qed.

Lemma matches_remove sel k (n : node) : matches sel (remove k n) = matches sel n.
Proof. destruct n; reflexivity. Qed.

Lemma matches_update sel k f (n : node) :
  (forall e, sel (f e) = sel e) -> matches sel (update k f n) = matches sel n.
Proof. intros H. destruct n as [i data|i e cs]; simpl; [reflexivity|].
  destruct (i =? k); [apply H|reflexivity]. Qed.

Lemma has_child_insert_at j p w ref (n : node) :
  j <> nid w -> has_child j (insert_at p w ref n) = has_child j n.
Proof.
  intros Hj. destruct n as [i data|i e cs]; [reflexivity|].
  rewrite insert_at_elem. unfold has_child. simpl children.
  apply existsb_ext_in_nid. destruct (i =? p).
  - rewrite in_map_nid_insert_children, map_nid_insert_f. tauto.
  - now rewrite map_nid_insert_f.
Qed.

Lemma has_child_remove j k (n : node) :
  j <> k -> has_child j (remove k n) = has_child j n.
Proof.
  intros Hj. destruct n as [i data|i e cs]; [reflexivity|].
  rewrite remove_elem. unfold has_child. simpl children.
  apply existsb_ext_in_nid. rewrite in_map_nid_remove_f. tauto.
Qed.

Lemma has_child_update j k f (n : node) :
  has_child j (update k f n) = has_child j n.
Proof.
  destruct n as [i data|i e cs]; [reflexivity|].
  rewrite update_elem. unfold has_child. simpl children.
  apply existsb_ext_in_nid. now rewrite map_nid_update_f.
Qed.

(** ** Identities and parents in a well-formed document *)

Lemma nid_inj (l : list node) (x y : node) :
  NoDup (map nid l) -> In x l -> In y l -> nid x = nid y -> x = y.
Proof.
  intros Hnd Hx Hy E.
  pose proof (find_unique nid l x Hnd Hx) as Fx.
  pose proof (find_unique nid l y Hnd Hy) as Fy.
  rewrite E in Fx. congruence.
Qed.

Lemma node_inj (ns : list node) (x y : node) :
  NoDup (nids_f ns) -> In x (all_nodes ns) -> In y (all_nodes ns) ->
  nid x = nid y -> x = y.
Proof. apply nid_inj. Qed.

Lemma in_nids_f (ns : list node) (x : node) :
  In x (all_nodes ns) -> In (nid x) (nids_f ns).
Proof. intros H. unfold nids_f. now apply in_map. Qed.

Lemma in_nids (n x : node) : In x (preorder n) -> In (nid x) (nids n).
Proof. intros H. unfold nids. now apply in_map. Qed.

Lemma NoDup_nids_children (n : node) :
  NoDup (nids n) -> NoDup (nids_f (children n)) /\ ~ In (nid n) (nids_f (children n)).
Proof.
  rewrite nids_children. intros H. inversion H; subst. now split.
Qed.

Lemma NoDup_sub (ns : list node) (m : node) :
  NoDup (nids_f ns) -> In m (all_nodes ns) -> NoDup (nids m).
Proof.
  revert m. induction ns as [|n ns IH]; intros m Hnd Hm; [contradiction|].
  rewrite nids_f_cons in Hnd. rewrite all_nodes_cons in Hm.
  apply in_app_or in Hm. destruct Hm as [Hm|Hm].
  - clear IH. apply NoDup_app_l in Hnd. revert m Hm Hnd.
    induction n as [i data|i e cs IHn] using node_ind'; intros m Hm Hnd.
    + simpl in Hm. destruct Hm as [<-|[]]. exact Hnd.
    + rewrite preorder_elem in Hm. destruct Hm as [<-|Hm]; [exact Hnd|].
      apply NoDup_nids_children in Hnd. destruct Hnd as [Hnd _]. simpl in Hnd.
      clear i e. induction cs as [|c cs IHc]; [contradiction|].
      rewrite nids_f_cons in Hnd. rewrite all_nodes_cons in Hm.
      inversion IHn as [|? ? Hc Hcs]; subst.
      apply in_app_or in Hm. destruct Hm as [Hm|Hm].
      * exact (Hc m Hm (NoDup_app_l _ _ Hnd)).
      * exact (IHc Hcs Hm (NoDup_app_r _ _ Hnd)).
  - exact (IH m (NoDup_app_r _ _ Hnd) Hm).
Qed.

(** A node is the child of one node only, and then it is no child of the
    document. *)
Lemma parent_unique_aux (a : nat) (cs : list node) :
  Forall (fun c => NoDup (nids c) ->
            forall m x, In m (preorder c) -> In x (children m) -> nid x = a ->
                        find (has_child a) (preorder c) = Some m) cs ->
  NoDup (nids_f cs) ->
  forall m x, In m (all_nodes cs) -> In x (children m) -> nid x = a ->
              first_node (has_child a) cs = Some m /\ ~ In a (map nid cs).
Proof.
  induction 1 as [|c cs Hc Hcs IH]; intros Hnd m x Hm Hx Ha; [contradiction|].
  rewrite nids_f_cons in Hnd. rewrite all_nodes_cons in Hm.
  rewrite first_node_cons. apply in_app_or in Hm.
  assert (Hxin : forall n, In m (preorder n) -> In a (nids_f (children n))).
  { intros n Hn. rewrite <- Ha. apply in_nids_f.
    rewrite preorder_children in Hn. destruct Hn as [<-|Hn].
    - now apply top_in_all_nodes.
    - exact (children_in_all_nodes _ m x Hn Hx). }
  destruct Hm as [Hm|Hm].
  - pose proof (Hxin c Hm) as Hin.
    rewrite (Hc (NoDup_app_l _ _ Hnd) m x Hm Hx Ha). split; [reflexivity|].
    simpl. intros [E|E].
    + apply NoDup_app_l, NoDup_nids_children in Hnd. destruct Hnd as [_ Hn].
      apply Hn. now rewrite E.
    + apply (NoDup_app_disjoint _ _ a Hnd).
      * rewrite nids_children. now right.
      * apply in_map_iff in E. destruct E as [y [E Hy]]. rewrite <- E.
        apply in_nids_f. now apply top_in_all_nodes.
  - assert (Hain : In a (nids_f cs)).
    { rewrite <- Ha. apply in_nids_f. exact (children_in_all_nodes _ m x Hm Hx). }
    assert (Hac : ~ In a (nids c)).
    { intros X. exact (NoDup_app_disjoint _ _ a Hnd X Hain). }
    destruct (IH (NoDup_app_r _ _ Hnd) m x Hm Hx Ha) as [IH1 IH2].
    assert (Hn : find (has_child a) (preorder c) = None).
    { apply find_none_iff. intros y Hy. apply Bool.not_true_iff_false. intros Hch.
      unfold has_child in Hch. apply existsb_has_nid in Hch.
      apply in_map_iff in Hch. destruct Hch as [z [Ez Hz]].
      apply Hac. rewrite <- Ez. apply in_nids.
      apply (preorder_trans c y z Hy). rewrite preorder_children. right.
      now apply top_in_all_nodes. }
    rewrite Hn. split; [exact IH1|].
    simpl. intros [E|E]; [|contradiction].
    apply Hac. rewrite <- E, nids_children. now left.
Qed.

Lemma parent_unique_node (a : nat) (n : node) :
  NoDup (nids n) ->
  forall m x, In m (preorder n) -> In x (children m) -> nid x = a ->
              find (has_child a) (preorder n) = Some m.
Proof.
  induction n as [i data|i e cs IH] using node_ind'; intros Hnd m x Hm Hx Ha.
  - simpl in Hm. destruct Hm as [<-|[]]. contradiction.
  - rewrite find_preorder. simpl children.
    apply NoDup_nids_children in Hnd. simpl in Hnd. destruct Hnd as [Hnd Hi].
    rewrite preorder_elem in Hm. destruct Hm as [<-|Hm].
    + unfold has_child. simpl children.
      assert (E : existsb (has_nid a) cs = true).
      { apply existsb_has_nid. rewrite <- Ha. now apply in_map. }
      now rewrite E.
    + destruct (parent_unique_aux a cs IH Hnd m x Hm Hx Ha) as [H1 H2].
      unfold has_child. simpl children.
      assert (E : existsb (has_nid a) cs = false).
      { apply Bool.not_true_iff_false. intros X. apply existsb_has_nid in X.
        contradiction. }
      now rewrite E.
Qed.

Lemma parent_unique (ns : list node) (m x : node) :
  NoDup (nids_f ns) -> In m (all_nodes ns) -> In x (children m) ->
  first_node (has_child (nid x)) ns = Some m /\ ~ In (nid x) (map nid ns).
Proof.
  intros Hnd Hm Hx.
  apply (parent_unique_aux (nid x) ns) with (x := x); auto.
  apply Forall_forall. intros c _. apply parent_unique_node.
Qed.

Lemma child_facts (ns : list node) (m x : node) :
  NoDup (nids_f ns) -> In m (all_nodes ns) -> In x (children m) ->
  parentElement (nid x) ns = Some (nid m) /\
  siblings (nid x) ns = children m /\
  parentNode (nid x) ns = Some (PElement (nid m)).
Proof.
  intros Hnd Hm Hx. destruct (parent_unique ns m x Hnd Hm Hx) as [H1 H2].
  assert (E : existsb (has_nid (nid x)) ns = false).
  { apply Bool.not_true_iff_false. intros X. apply existsb_has_nid in X.
    contradiction. }
  unfold parentElement, siblings, parentNode, parentElement. rewrite H1, E.
  auto.
Qed.

(** Every node of a forest is a root or the child of a node of the forest. *)
Lemma root_or_child (ns : list node) (x : node) :
  In x (all_nodes ns) ->
  In x ns \/ exists m, In m (all_nodes ns) /\ In x (children m).
Proof.
  induction ns as [|n ns IH]; intros Hx; [contradiction|].
  rewrite all_nodes_cons in Hx. apply in_app_or in Hx. destruct Hx as [Hx|Hx].
  - clear IH. assert (G : x = n \/ exists m, In m (preorder n) /\ In x (children m)).
    { revert x Hx. induction n as [i data|i e cs IHn] using node_ind'; intros x Hx.
      - simpl in Hx. destruct Hx as [<-|[]]. now left.
      - rewrite preorder_elem in Hx. destruct Hx as [<-|Hx]; [now left|]. right.
        apply in_all_nodes in Hx. destruct Hx as [c [Hc Hx]].
        rewrite Forall_forall in IHn. destruct (IHn c Hc x Hx) as [->|[m [Hm Hxm]]].
        + exists (Elem i e cs). split; [apply preorder_self|exact Hc].
        + exists m. split; [|exact Hxm]. rewrite preorder_elem. right.
          apply in_all_nodes. now exists c. }
    destruct G as [->|[m [Hm Hxm]]]; [left; now left|].
    right. exists m. split; [|exact Hxm]. rewrite all_nodes_cons.
    apply in_or_app. now left.
  - destruct (IH Hx) as [H|[m [Hm Hxm]]]; [left; now right|].
    right. exists m. split; [|exact Hxm]. rewrite all_nodes_cons.
    apply in_or_app. now right.
Qed.

(** * insertBefore *)

Lemma insertBefore_inv p w ref d d' :
  insertBefore p w ref d = Ok d' ->
  exists e cs ref',
    lookup p d = Some (Elem p e cs) /\ ~ In p (nids w) /\
    d' = insert_f p w ref' (remove_f (nid w) d).
Proof.
  unfold insertBefore. intros H.
  destruct (lookup p d) as [[i data|i e cs]|] eqn:Hl; try discriminate.
  destruct (existsb (Nat.eqb p) (nids w)) eqn:Hw; [discriminate|].
  match type of H with (if ?b then _ else _) = _ => destruct b; [|discriminate] end.
  inversion H; subst d'. clear H.
  pose proof (lookup_in _ _ _ Hl) as [_ E]. simpl in E. subst i.
  eexists e, cs, _. split; [reflexivity|]. split; [|reflexivity].
  intros X. apply existsb_eqb_In in X. congruence.
Qed.

Lemma lookup_remove (k j : nat) (wn : node) (d : list node) :
  NoDup (nids_f d) -> lookup k d = Some wn -> ~ In j (nids wn) ->
  lookup j (remove_f k d) = option_map (remove k) (lookup j d).
Proof.
  intros Hnd Hk Hj. unfold lookup. apply first_node_remove.
  - intros n. apply has_nid_remove.
  - intros m x Hm Hmk Hx. apply lookup_in in Hk. destruct Hk as [Hw Hwk].
    assert (m = wn) by (apply (node_inj d); auto; congruence). subst m.
    unfold has_nid. apply Nat.eqb_neq. intros E. apply Hj. rewrite <- E.
    now apply in_nids.
Qed.

Lemma lookup_insert (p j : nat) (w : node) ref (d : list node) :
  ~ In j (nids w) ->
  lookup j (insert_f p w ref d) = option_map (insert_at p w ref) (lookup j d).
Proof.
  intros Hj. unfold lookup. apply first_node_insert.
  - intros n. apply has_nid_insert_at.
  - apply find_none_iff. intros x Hx. unfold has_nid. apply Nat.eqb_neq.
    intros E. apply Hj. rewrite <- E. now apply in_nids.
Qed.

Lemma lookup_update (k j : nat) f (d : list node) :
  lookup j (update_f k f d) = option_map (update k f) (lookup j d).
Proof.
  unfold lookup. apply first_node_update. intros n. apply has_nid_update.
Qed.

(** A node that is not yet in the document goes in. *)
Lemma insertBefore_new p w ref d e cs :
  NoDup (nids_f d) ->
  lookup p d = Some (Elem p e cs) ->
  (forall k, In k (nids w) -> ~ In k (nids_f d)) ->
  match ref with Some r => In r (map nid cs) | None => True end ->
  insertBefore p w ref d = Ok (insert_f p w ref d).
Proof.
  intros Hnd Hp Hw Hr. unfold insertBefore. rewrite Hp.
  pose proof (lookup_in _ _ _ Hp) as [Hpin _].
  assert (E1 : existsb (Nat.eqb p) (nids w) = false).
  { apply Bool.not_true_iff_false. intros X. apply existsb_eqb_In in X.
    apply (Hw p X). apply in_nids_f in Hpin. exact Hpin. }
  rewrite E1.
  assert (Hfresh : ~ In (nid w) (nids_f d)).
  { apply Hw. rewrite nids_children. now left. }
  rewrite (remove_f_fresh _ _ Hfresh).
  destruct ref as [r|]; [|reflexivity].
  assert (E2 : existsb (has_nid r) cs = true) by now apply existsb_has_nid.
  rewrite E2.
  assert (E3 : (r =? nid w) = false).
  { apply Nat.eqb_neq. intros X. apply Hfresh. rewrite <- X.
    apply in_map_iff in Hr. destruct Hr as [y [Ey Hy]]. rewrite <- Ey.
    apply in_nids_f. exact (children_in_all_nodes d _ y Hpin Hy). }
  now rewrite E3.
Qed.

Lemma insertBefore_new_labels p w ref d d' :
  NoDup (nids_f d) ->
  (forall k, In k (nids w) -> ~ In k (nids_f d)) ->
  insertBefore p w ref d = Ok d' ->
  Permutation (labels d') (labels d ++ labels [w]) /\ In w (all_nodes d') /\
  exists ref', d' = insert_f p w ref' d.
Proof.
  intros Hnd Hw H. apply insertBefore_inv in H.
  destruct H as [e [cs [ref' [Hp [_ ->]]]]].
  assert (Hfresh : ~ In (nid w) (nids_f d)).
  { apply Hw. rewrite nids_children. now left. }
  rewrite (remove_f_fresh _ _ Hfresh). split; [|split].
  - exact (insert_perm p w ref' e cs d Hnd Hp).
  - exact (in_insert p w ref' e cs d Hp).
  - now exists ref'.
Qed.

(** A node of the document that goes elsewhere: the document keeps its
    nodes. *)
Lemma insertBefore_move_labels p w ref d d' :
  NoDup (nids_f d) ->
  lookup (nid w) d = Some w ->
  insertBefore p w ref d = Ok d' ->
  Permutation (labels d') (labels d) /\ In w (all_nodes d') /\
  exists ref', d' = insert_f p w ref' (remove_f (nid w) d).
Proof.
  intros Hnd Hw H. apply insertBefore_inv in H.
  destruct H as [e [cs [ref' [Hp [Hpw ->]]]]].
  pose proof (remove_perm _ _ _ Hnd Hw) as Hperm.
  assert (Hnd0 : NoDup (nids_f (remove_f (nid w) d))).
  { pose proof (perm_nids _ _ _ Hperm) as Hn.
    apply (Permutation_NoDup Hn) in Hnd. exact (NoDup_app_l _ _ Hnd). }
  assert (Hp0 : lookup p (remove_f (nid w) d)
                = Some (Elem p e (remove_f (nid w) cs))).
  { rewrite (lookup_remove _ _ w d Hnd Hw Hpw), Hp. reflexivity. }
  split; [|split].
  - rewrite (insert_perm p w ref' _ _ _ Hnd0 Hp0). symmetry. exact Hperm.
  - exact (in_insert p w ref' _ _ _ Hp0).
  - now exists ref'.
Qed.

(** * document.body across a mutation *)

Lemma find_map_stable {A : Type} (P : A -> bool) (T : A -> A) (l : list A) :
  (forall x, P (T x) = P x) -> find P (map T l) = option_map T (find P l).
Proof.
  intros H. induction l as [|x l IH]; simpl; [reflexivity|].
  rewrite H. destruct (P x); [reflexivity|exact IH].
Qed.

Lemma find_insert_children_list (P : node -> bool) w ref (l : list node) :
  P w = false -> find P (insert_children w ref l) = find P l.
Proof.
  intros Hw. destruct ref as [r|]; simpl.
  - induction l as [|c l IH]; simpl; [now rewrite Hw|].
    destruct (has_nid r c); simpl; [now rewrite Hw|].
    destruct (P c); [reflexivity|exact IH].
  - rewrite find_app. destruct (find P l); [reflexivity|]. simpl. now rewrite Hw.
Qed.

Lemma find_remove_f_list (P : node -> bool) (k : nat) (l : list node) (x : node) :
  (forall n, P (remove k n) = P n) ->
  find P l = Some x -> nid x <> k ->
  find P (remove_f k l) = Some (remove k x).
Proof.
  intros HP. induction l as [|c l IH]; simpl; intros Hf Hx; [discriminate|].
  rewrite remove_f_cons. destruct (P c) eqn:Ec.
  - inversion Hf; subst c. unfold has_nid.
    destruct (nid x =? k) eqn:E; [apply Nat.eqb_eq in E; contradiction|].
    simpl. now rewrite HP, Ec.
  - destruct (has_nid k c); [now apply IH|].
    simpl. rewrite HP, Ec. now apply IH.
Qed.

Lemma is_element_insert_at p w ref n : is_element (insert_at p w ref n) = is_element n.
Proof. destruct n; reflexivity. Qed.

Lemma is_element_remove k n : is_element (remove k n) = is_element n.
Proof. destruct n; reflexivity. Qed.

Lemma is_element_update k f n : is_element (update k f n) = is_element n.
Proof. destruct n; reflexivity. Qed.

Lemma is_body_insert_at p w ref n : is_body (insert_at p w ref n) = is_body n.
Proof. apply matches_insert_at. Qed.

Lemma is_body_remove k n : is_body (remove k n) = is_body n.
Proof. apply matches_remove. Qed.

(** The body as two nodes: the document element and its body child. *)
Lemma body_spec (d : list node) (b : nat) :
  body d = Some b <->
  exists i e cs hb,
    documentElement d = Some (Elem i e cs) /\ String.eqb (tag e) "html" = true /\
    find is_body cs = Some hb /\ nid hb = b.
Proof.
  unfold body. split.
  - destruct (documentElement d) as [[i data|i e cs]|]; try discriminate.
    destruct (String.eqb (tag e) "html") eqn:E; [|discriminate].
    destruct (find is_body cs) as [hb|] eqn:F; [|discriminate].
    simpl. intros H. inversion H. now exists i, e, cs, hb.
  - intros [i [e [cs [hb [-> [-> [-> <-]]]]]]]. reflexivity.
Qed.

Lemma body_insert p w ref (d : list node) (b : nat) :
  is_body w = false -> body d = Some b -> body (insert_f p w ref d) = Some b.
Proof.
  intros Hw H. apply body_spec in H.
  destruct H as [i [e [cs [hb [Hd [Ht [Hf Hb]]]]]]].
  apply body_spec. unfold documentElement, insert_f in *.
  rewrite (find_map_stable _ _ _ (is_element_insert_at p w ref)), Hd.
  unfold option_map. rewrite insert_at_elem.
  eexists i, e, _, (insert_at p w ref hb). split; [reflexivity|].
  split; [exact Ht|]. split; [|now rewrite nid_insert_at].
  assert (G : find is_body (insert_f p w ref cs) = Some (insert_at p w ref hb)).
  { unfold insert_f. now rewrite (find_map_stable _ _ _ (is_body_insert_at p w ref)), Hf. }
  destruct (i =? p); [|exact G].
  now rewrite find_insert_children_list.
Qed.

Lemma body_remove (k : nat) (d : list node) (b : nat) :
  body d = Some b -> k <> b ->
  (forall h, documentElement d = Some h -> nid h <> k) ->
  body (remove_f k d) = Some b.
Proof.
  intros H Hkb Hh. apply body_spec in H.
  destruct H as [i [e [cs [hb [Hd [Ht [Hf Hb]]]]]]].
  apply body_spec. unfold documentElement in *.
  rewrite (find_remove_f_list is_element k d _ (is_element_remove k) Hd (Hh _ Hd)).
  rewrite remove_elem.
  eexists i, e, _, (remove k hb). split; [reflexivity|].
  split; [exact Ht|]. split; [|now rewrite nid_remove].
  apply find_remove_f_list; [apply is_body_remove|exact Hf|congruence].
Qed.

Lemma body_update (k : nat) f (d : list node) :
  (forall e, tag (f e) = tag e) -> body (update_f k f d) = body d.
Proof.
  intros Hf. unfold body, documentElement, update_f.
  rewrite (find_map_stable _ _ _ (is_element_update k f)).
  destruct (find is_element d) as [[i data|i e cs]|]; simpl; try reflexivity.
  assert (Et : tag (if i =? k then f e else e) = tag e)
    by (destruct (i =? k); [apply Hf|reflexivity]).
  rewrite Et. destruct (String.eqb (tag e) "html"); [|reflexivity].
  fold (update_f k f cs). unfold update_f.
  rewrite (find_map_stable is_body (update k f) cs).
  - destruct (find is_body cs); simpl; [now rewrite nid_update|reflexivity].
  - intros x. apply matches_update. intros e0. now rewrite Hf.
Qed.

Lemma update_f_fresh_aux (k : nat) f (cs : list node) :
  Forall (fun c => ~ In k (nids c) -> update k f c = c) cs ->
  ~ In k (nids_f cs) -> update_f k f cs = cs.
Proof.
  induction 1 as [|c cs Hc _ IH]; intros Hk; [reflexivity|].
  rewrite nids_f_cons in Hk. unfold update_f in *. simpl.
  rewrite Hc, IH; [reflexivity| |]; intros X; apply Hk, in_or_app; auto.
Qed.

Lemma update_fresh (k : nat) f (n : node) : ~ In k (nids n) -> update k f n = n.
Proof.
  induction n as [i data|i e cs IH] using node_ind'; intros Hk; [reflexivity|].
  rewrite nids_elem in Hk. rewrite update_elem.
  destruct (i =? k) eqn:E.
  - apply Nat.eqb_eq in E. exfalso. apply Hk. now left.
  - f_equal. apply update_f_fresh_aux; [exact IH|]. intros X. apply Hk. now right.
Qed.

Lemma update_f_fresh (k : nat) f (ns : list node) :
  ~ In k (nids_f ns) -> update_f k f ns = ns.
Proof.
  apply update_f_fresh_aux. apply Forall_forall. intros c _. apply update_fresh.
Qed.

(** * The wrapper that createIcon builds *)

Lemma build_icon_is_wrapper rt link f : is_wrapper rt link f (build_icon rt link f).
Proof. exists ["local-unifi-drive-wrapper"]. reflexivity. Qed.

Lemma add_classes_is_wrapper rt link f cls n :
  is_wrapper rt link f n -> is_wrapper rt link f (add_classes_node cls n).
Proof. intros [c ->]. eexists. reflexivity. Qed.

Section Wrapper.
Variables (rt : runtime_env) (link : option jsstring) (f : nat) (w : node).
Hypothesis Hw : is_wrapper rt link f w.

Lemma wrapper_nid : nid w = f + 3.
Proof. destruct Hw as [c ->]. reflexivity. Qed.

Lemma wrapper_nids : forall k, In k (nids w) -> f <= k < f + 4.
Proof.
  destruct Hw as [c ->]. intros k. destruct rt; simpl; intros H;
    repeat (destruct H as [<-|H]; [lia|]); contradiction.
Qed.

Lemma wrapper_nodup : NoDup (nids w).
Proof.
  destruct Hw as [c ->].
  destruct rt; unfold nids; simpl; repeat constructor; simpl;
    intros H; repeat (destruct H as [H|H]; [lia|]); exact H.
Qed.

Lemma wrapper_is_icon : is_icon w = true.
Proof. destruct Hw as [c ->]. reflexivity. Qed.

Lemma wrapper_shape : icon_shape w = true.
Proof. destruct Hw as [c ->]. destruct rt; reflexivity. Qed.

Lemma wrapper_count : count_icons [w] = 1.
Proof. destruct Hw as [c ->]. destruct rt; reflexivity. Qed.

Lemma wrapper_not_body : is_body w = false.
Proof. destruct Hw as [c ->]. reflexivity. Qed.

Lemma wrapper_no_match (sel : selector) :
  sel = container_sel \/ sel = protect_sel \/ sel = network_sel ->
  find (matches sel) (preorder w) = None.
Proof.
  destruct Hw as [c ->]. intros [-> | [-> | ->]]; destruct rt; reflexivity.
Qed.

Lemma wrapper_listeners :
  exists e cs, w = Elem (f + 3) e cs /\ listeners e = [ClickOpen link].
Proof. destruct Hw as [c ->]. eexists _, _. split; reflexivity. Qed.

Lemma wrapper_update cls :
  update (f + 3) (add_classes cls) w = add_classes_node cls w.
Proof.
  pose proof wrapper_nodup as Hnd. pose proof wrapper_nid as Hn.
  destruct Hw as [c E]. destruct w as [i data|i e cs]; [discriminate|].
  simpl in Hn. subst i. apply NoDup_nids_children in Hnd. destruct Hnd as [_ Hnd].
  rewrite update_elem, Nat.eqb_refl. simpl. f_equal.
  now apply update_f_fresh.
Qed.

Lemma wrapper_fresh (d : list node) :
  Forall (fun i => i < f) (nids_f d) ->
  forall k, In k (nids w) -> ~ In k (nids_f d).
Proof.
  intros Hb k Hk Hin. rewrite Forall_forall in Hb. specialize (Hb k Hin).
  apply wrapper_nids in Hk. lia.
Qed.
End Wrapper.

(** * Consequences of well-formedness *)

Lemma wf_doc_spec (d : list node) (f : nat) :
  wf_doc d f = true <-> NoDup (nids_f d) /\ Forall (fun i => i < f) (nids_f d).
Proof.
  unfold wf_doc. rewrite andb_true_iff, nodupb_spec, forallb_forall, Forall_forall.
  split; intros [H1 H2]; (split; [exact H1|]); intros x Hx; specialize (H2 x Hx).
  - now apply Nat.ltb_lt.
  - now apply Nat.ltb_lt.
Qed.

Lemma filter_unique {A : Type} (P : A -> bool) (l : list A) (x y : A) :
  List.length (filter P l) <= 1 -> In x l -> In y l -> P x = true -> P y = true ->
  x = y.
Proof.
  induction l as [|z l IH]; simpl; intros Hlen Hx Hy Px Py; [contradiction|].
  assert (Hin : forall u, In u l -> P u = true -> 1 <= List.length (filter P l)).
  { intros u Hu Pu. assert (In u (filter P l)) by (apply filter_In; auto).
    destruct (filter P l); [contradiction|simpl; lia]. }
  destruct (P z) eqn:Pz; simpl in Hlen.
  - destruct Hx as [->|Hx], Hy as [->|Hy]; try reflexivity.
    + specialize (Hin y Hy Py). lia.
    + specialize (Hin x Hx Px). lia.
    + specialize (Hin x Hx Px). lia.
  - destruct Hx as [->|Hx]; [congruence|]. destruct Hy as [->|Hy]; [congruence|].
    now apply IH.
Qed.

(** With at most one icon in the document, any icon is the icon. *)
Lemma icon_unique (d : list node) (x y : node) :
  count_icons d <= 1 -> In x (all_nodes d) -> In y (all_nodes d) ->
  is_icon x = true -> is_icon y = true -> x = y.
Proof. apply filter_unique. Qed.

Lemma icons_ok_spec (d : list node) :
  icons_ok d = true <->
  (forall n, In n (all_nodes d) -> is_icon n = true -> icon_shape n = true).
Proof.
  unfold icons_ok. rewrite forallb_forall. split; intros H n Hn.
  - intros Hi. specialize (H n Hn). now rewrite Hi in H.
  - destruct (is_icon n) eqn:E; [simpl; now apply H|reflexivity].
Qed.

Lemma icons_ok_one (d : list node) (w : node) :
  count_icons d <= 1 -> In w (all_nodes d) -> is_icon w = true ->
  icon_shape w = true -> icons_ok d = true.
Proof.
  intros Hc Hw Hi Hs. apply icons_ok_spec. intros n Hn Hin.
  now rewrite (icon_unique d n w Hc Hn Hw Hin Hi).
Qed.

Lemma count_icons_zero (d : list node) :
  count_icons d = 0 <-> (forall n, In n (all_nodes d) -> is_icon n = false).
Proof.
  unfold count_icons. split.
  - intros H n Hn. destruct (is_icon n) eqn:E; [|reflexivity].
    assert (In n (filter is_icon (all_nodes d))) by (apply filter_In; auto).
    destruct (filter is_icon (all_nodes d)); [contradiction|discriminate].
  - intros H. destruct (filter is_icon (all_nodes d)) as [|x l] eqn:E; [reflexivity|].
    assert (Hx : In x (filter is_icon (all_nodes d))) by (rewrite E; now left).
    apply filter_In in Hx. destruct Hx as [Hx Px]. rewrite (H x Hx) in Px. discriminate.
Qed.

Lemma icons_ok_zero (d : list node) : count_icons d = 0 -> icons_ok d = true.
Proof.
  intros H. apply icons_ok_spec. intros n Hn Hi.
  rewrite (proj1 (count_icons_zero d) H n Hn) in Hi. discriminate.
Qed.

Lemma getElementById_icon (d : list node) :
  getElementById ICON_ID d = option_map nid (first_node is_icon d).
Proof. reflexivity. Qed.

Lemma getElementById_spec (d : list node) (k : nat) :
  getElementById ICON_ID d = Some k <->
  exists n, first_node is_icon d = Some n /\ nid n = k.
Proof.
  rewrite getElementById_icon.
  destruct (first_node is_icon d) as [n|]; simpl; split.
  - intros H. inversion H. now exists n.
  - intros [n' [H <-]]. now inversion H.
  - discriminate.
  - intros [n' [H _]]. discriminate.
Qed.

Lemma getElementById_none (d : list node) :
  getElementById ICON_ID d = None <-> count_icons d = 0.
Proof.
  rewrite count_icons_zero, getElementById_icon.
  unfold first_node. rewrite <- find_none_iff.
  destruct (find is_icon (all_nodes d)); simpl; split; congruence.
Qed.

(** The icon of a well-formed document, as a node. *)
Lemma the_icon (d : list node) (k : nat) :
  NoDup (nids_f d) -> getElementById ICON_ID d = Some k ->
  exists n, lookup k d = Some n /\ In n (all_nodes d) /\ is_icon n = true /\ nid n = k.
Proof.
  intros Hnd H. apply getElementById_spec in H. destruct H as [n [Hf Hk]].
  apply first_node_in in Hf. destruct Hf as [Hin Hi]. exists n.
  subst k. split; [now apply lookup_unique|auto].
Qed.

(** * What each mutation does to a well-formed document *)

Lemma sound_weaken (d : list node) (f g : nat) :
  f <= g -> sound d f -> sound d g.
Proof.
  intros Hfg [H1 H2]. split; [exact H1|].
  eapply Forall_impl; [|exact H2]. simpl. intros; lia.
Qed.

Lemma sound_perm (d d' : list node) (f : nat) :
  Permutation (labels d') (labels d) -> sound d f -> sound d' f.
Proof.
  intros Hp [H1 H2].
  assert (Hn : Permutation (nids_f d) (nids_f d')).
  { rewrite !nids_f_labels. apply Permutation_map. now symmetry. }
  split.
  - exact (Permutation_NoDup Hn H1).
  - exact (Permutation_Forall Hn H2).
Qed.

Lemma count_perm (d d' : list node) :
  Permutation (labels d') (labels d) -> count_icons d' = count_icons d.
Proof.
  intros Hp. rewrite !count_icons_labels. now apply Permutation_filter_length.
Qed.

Section NewWrapper.
Variables (rt : runtime_env) (link : option jsstring) (f : nat) (w : node).
Hypothesis Hw : is_wrapper rt link f w.
Variables d d' : list node.
Hypothesis Hs : sound d f.
Hypothesis Hperm : Permutation (labels d') (labels d ++ labels [w]).

Lemma new_wrapper_sound : sound d' (f + 4).
Proof.
  destruct Hs as [H1 H2].
  assert (Hn : Permutation (nids_f d ++ nids_f [w]) (nids_f d')).
  { symmetry. now apply perm_nids. }
  assert (Ew : nids_f [w] = nids w).
  { unfold nids_f, nids, all_nodes. simpl. now rewrite app_nil_r. }
  rewrite Ew in Hn. split.
  - apply (Permutation_NoDup Hn). apply NoDup_app; [exact H1| |].
    + exact (wrapper_nodup rt link f w Hw).
    + intros k Hk Hk'. exact (wrapper_fresh rt link f w Hw d H2 k Hk' Hk).
  - apply (Permutation_Forall Hn). apply Forall_app. split.
    + eapply Forall_impl; [|exact H2]. simpl. intros; lia.
    + apply Forall_forall. intros k Hk.
      pose proof (wrapper_nids rt link f w Hw k Hk). lia.
Qed.

Lemma new_wrapper_count : count_icons d' = count_icons d + 1.
Proof.
  rewrite (perm_count _ _ _ Hperm). now rewrite (wrapper_count rt link f w Hw).
Qed.
End NewWrapper.

Lemma remove_sound (k : nat) (wn : node) (d : list node) (f : nat) :
  sound d f -> lookup k d = Some wn ->
  sound (remove_f k d) f /\ count_icons d = count_icons (remove_f k d) + count_icons [wn].
Proof.
  intros [H1 H2] Hl. pose proof (remove_perm _ _ _ H1 Hl) as Hp.
  pose proof (perm_nids _ _ _ Hp) as Hn. split; [split|].
  - exact (NoDup_app_l _ _ (Permutation_NoDup Hn H1)).
  - pose proof (Permutation_Forall Hn H2) as F. apply Forall_app in F. tauto.
  - exact (perm_count _ _ _ Hp).
Qed.

Lemma update_sound (k : nat) g (d : list node) (f : nat) :
  sound d f -> sound (update_f k g d) f.
Proof. unfold sound. now rewrite nids_f_update. Qed.

Lemma eid_add_classes cls e : eid (add_classes cls e) = eid e.
Proof. reflexivity. Qed.

Lemma tag_add_classes cls e : tag (add_classes cls e) = tag e.
Proof. reflexivity. Qed.

Lemma icon_root_count (n : node) : is_icon n = true -> 1 <= count_icons [n].
Proof.
  intros H. unfold count_icons, all_nodes. simpl. rewrite app_nil_r.
  rewrite preorder_children. simpl. rewrite H. simpl. lia.
Qed.

(** ** removeIcon *)

Lemma removeIcon_eq (d : list node) (el : nat) :
  NoDup (nids_f d) -> getElementById ICON_ID d = Some el ->
  removeIcon d = remove_f el d.
Proof.
  intros Hnd G. unfold removeIcon. rewrite G.
  destruct (parentNode el d) eqn:P; [reflexivity|].
  destruct (the_icon d el Hnd G) as [n [Hl [Hin [Hi Hk]]]].
  exfalso. unfold parentNode in P.
  destruct (existsb (has_nid el) d) eqn:E; [discriminate|].
  destruct (root_or_child d n Hin) as [Hr|[m [Hm Hc']]].
  - apply Bool.not_true_iff_false in E. apply E. apply existsb_has_nid.
    rewrite <- Hk. now apply in_map.
  - destruct (child_facts d m n Hnd Hm Hc') as [X _].
    rewrite Hk in X. rewrite X in P. discriminate.
Qed.

Lemma removeIcon_sound (d : list node) (f : nat) :
  sound d f -> count_icons d <= 1 ->
  sound (removeIcon d) f /\ count_icons (removeIcon d) = 0.
Proof.
  intros Hs Hc. destruct (getElementById ICON_ID d) as [el|] eqn:G.
  - rewrite (removeIcon_eq d el (proj1 Hs) G).
    destruct (the_icon d el (proj1 Hs) G) as [n [Hl [Hin [Hi Hk]]]].
    destruct (remove_sound el n d f Hs Hl) as [Hs' Hcount].
    pose proof (icon_root_count n Hi). split; [exact Hs'|lia].
  - unfold removeIcon. rewrite G. split; [exact Hs|]. now apply getElementById_none.
Qed.

(** ** Selectors inside an element *)

Lemma querySelectorIn_node (c a : nat) (sel : selector) (d : list node) :
  NoDup (nids_f d) -> querySelectorIn c sel d = Some a ->
  exists nc x,
    lookup c d = Some nc /\ In nc (all_nodes d) /\
    first_node (matches sel) (children nc) = Some x /\
    In x (all_nodes (children nc)) /\ In x (all_nodes d) /\
    nid x = a /\ matches sel x = true /\ lookup a d = Some x.
Proof.
  intros Hnd H. unfold querySelectorIn, querySelector in H.
  destruct (lookup c d) as [nc|] eqn:Hc; [|discriminate].
  destruct (first_node (matches sel) (children nc)) as [x|] eqn:Hx; [|discriminate].
  simpl in H. inversion H; subst a. clear H.
  pose proof (first_node_in _ _ _ Hx) as [Hin Hm].
  pose proof (lookup_in _ _ _ Hc) as [Hcin _].
  assert (Hxd : In x (all_nodes d)).
  { apply (all_nodes_trans d nc x Hcin). rewrite preorder_children. now right. }
  exists nc, x. repeat split; auto. now apply lookup_unique.
Qed.

Lemma matches_elem (sel : selector) (x : node) :
  matches sel x = true -> exists i e cs, x = Elem i e cs /\ sel e = true.
Proof. destruct x as [i data|i e cs]; [discriminate|]. intros H. now exists i, e, cs. Qed.

(** ** repairExisting keeps the document well formed *)

Lemma moveBefore_labels p k ref d d' :
  NoDup (nids_f d) -> moveBefore p k ref d = Ok d' ->
  exists w, lookup k d = Some w /\ nid w = k /\
            Permutation (labels d') (labels d) /\ In w (all_nodes d') /\
            exists ref', d' = insert_f p w ref' (remove_f k d).
Proof.
  intros Hnd H. unfold moveBefore in H.
  destruct (lookup k d) as [w|] eqn:Hl; [|discriminate].
  pose proof (lookup_in _ _ _ Hl) as [_ Hk]. exists w.
  rewrite <- Hk in Hl.
  destruct (insertBefore_move_labels p w ref d d' Hnd Hl H) as [H1 [H2 H3]].
  rewrite Hk in *. auto.
Qed.

Lemma insert_after_top_inv w c t d d' :
  insert_after_top w c t d = Ok d' ->
  exists p ref, insertBefore p w ref d = Ok d'.
Proof.
  unfold insert_after_top. destruct (index_of t (element_children c d)); eauto.
Qed.

Lemma repair_move_inv existing sc pa d d1 :
  repair_move existing sc pa d = Ok d1 ->
  exists w p ref, lookup existing d = Some w /\ insertBefore p w ref d = Ok d1.
Proof.
  unfold repair_move, moveBefore. intros H.
  destruct (lookup existing d) as [w|] eqn:Hl.
  - exists w. cbv beta iota in H.
    repeat match type of H with
           | context [match ?x with _ => _ end] =>
               destruct x eqn:?; cbv beta iota in H; try discriminate
           end;
      try match type of H with Ok _ = Ok _ => inversion H; subst; clear H end;
      match goal with
      | E : insertBefore _ w _ d = Ok d1 |- _ =>
          eexists _, _; split; [reflexivity|exact E]
      | E : insert_after_top w _ _ d = Ok d1 |- _ =>
          apply insert_after_top_inv in E; destruct E as [p [ref E]];
          exists p, ref; split; [reflexivity|exact E]
      end.
  - cbv beta iota in H.
    repeat match type of H with
           | context [match ?x with _ => _ end] =>
               destruct x eqn:?; cbv beta iota in H; try discriminate
           end.
Qed.

Lemma scrub_cases (k : nat) (d : list node) :
  NoDup (nids_f d) ->
  scrub k d = d \/
  exists child rect cn rn,
    querySelectorIn k img_or_svg_sel d = Some child /\
    querySelectorIn child rect_sel d = Some rect /\
    lookup child d = Some cn /\ lookup rect d = Some rn /\
    In rn (all_nodes (children cn)) /\
    scrub k d = remove_f rect d.
Proof.
  intros Hnd. unfold scrub.
  destruct (querySelectorIn k img_or_svg_sel d) as [child|] eqn:Q1; [|now left].
  destruct (lookup child d) as [[i data|i e cs]|] eqn:L1; try now left.
  destruct (String.eqb (tag e) "img"); [now left|].
  destruct (svg e); [|now left].
  destruct (querySelectorIn child rect_sel d) as [rect|] eqn:Q2; [|now left].
  destruct (parentNode rect d); [|now left].
  right. destruct (querySelectorIn_node _ _ _ _ Hnd Q2)
    as [nc [x [Hc [_ [_ [Hx1 [_ [Hx3 [_ Hx5]]]]]]]]].
  rewrite L1 in Hc. inversion Hc; subst nc.
  exists child, rect, (Elem i e cs), x. auto 10.
Qed.

Lemma scrub_sound (k : nat) (d : list node) (f : nat) :
  sound d f -> sound (scrub k d) f /\ count_icons (scrub k d) <= count_icons d.
Proof.
  intros Hs. destruct (scrub_cases k d (proj1 Hs))
    as [->|[child [rect [cn [rn [_ [_ [_ [Hl [_ ->]]]]]]]]]].
  - split; [exact Hs|lia].
  - destruct (remove_sound rect rn d f Hs Hl) as [H1 H2]. split; [exact H1|lia].
Qed.

Lemma copy_host_classes_sound pa k (d : list node) (f : nat) :
  sound d f ->
  sound (copy_host_classes pa k d) f /\
  count_icons (copy_host_classes pa k d) = count_icons d.
Proof.
  intros Hs. unfold copy_host_classes.
  destruct pa as [a|]; [|now split].
  destruct (parentElement a d); [|now split].
  split; [now apply update_sound|].
  apply count_icons_update. intros e. apply eid_add_classes.
Qed.

Lemma repairExisting_sound (d : list node) (f : nat) :
  sound d f ->
  sound (repairExisting d) f /\ count_icons (repairExisting d) <= count_icons d.
Proof.
  intros Hs. unfold repairExisting.
  destruct (getElementById ICON_ID d) as [existing|]; [|split; [exact Hs|lia]].
  destruct (querySelector container_sel d) as [sc|]; [|split; [exact Hs|lia]].
  destruct (repair_move existing sc (querySelectorIn sc protect_sel d) d) as [d1|] eqn:M;
    [|split; [exact Hs|lia]].
  apply repair_move_inv in M. destruct M as [w [p [ref [Hl M]]]].
  pose proof (lookup_in _ _ _ Hl) as [_ Hk]. rewrite <- Hk in Hl.
  destruct (insertBefore_move_labels p w ref d d1 (proj1 Hs) Hl M) as [Hp _].
  pose proof (sound_perm _ _ f Hp Hs) as Hs1.
  pose proof (count_perm _ _ Hp) as Hc1.
  destruct (copy_host_classes_sound (querySelectorIn sc protect_sel d) existing d1 f Hs1)
    as [Hs2 Hc2].
  destruct (scrub_sound existing _ f Hs2) as [Hs3 Hc3].
  split; [exact Hs3|lia].
Qed.

(** ** Every path of the placement *)

Lemma insertAdjacentAfterEnd_inv t w d d' :
  insertAdjacentAfterEnd t w d = Ok d' ->
  d' = d \/ exists p ref, insertBefore p w ref d = Ok d'.
Proof.
  unfold insertAdjacentAfterEnd. destruct (parentNode t d) as [[|p]|]; intros H.
  - discriminate.
  - right. eauto.
  - left. now inversion H.
Qed.

Lemma robust_insert_cases w c a d :
  match robust_insert w c a d with
  | Normal d' =>
      d' = d \/
      exists cls p ref, insertBefore p (add_classes_node cls w) ref d = Ok d'
  | Abrupt w' => exists cls, w' = add_classes_node cls w
  end.
Proof.
  unfold robust_insert.
  set (t := match findDirectChildContaining a c d with Some t => t | None => a end).
  set (cls := classes_of t d).
  destruct (insert_after_top (add_classes_node cls w) c t d) as [d'|] eqn:E1.
  { right. apply insert_after_top_inv in E1. destruct E1 as [p [ref E1]]. eauto. }
  destruct (insertAdjacentAfterEnd t (add_classes_node cls w) d) as [d'|] eqn:E2.
  { apply insertAdjacentAfterEnd_inv in E2. destruct E2 as [->|[p [ref E2]]];
      [now left|right; eauto]. }
  destruct (insertBefore (parent_or t c d) (add_classes_node cls w) (nextSibling t d) d)
    as [d'|] eqn:E3.
  - right. eauto.
  - eauto.
Qed.

(** The placement leaves the document as it is, or it is one successful
    [insertBefore] of the wrapper, followed by the copy of the parent's
    classes or by [repairExisting]. *)
Lemma place_cases rt link f w c d :
  is_wrapper rt link f w ->
  place w c d = d \/
  exists w' p ref d1,
    is_wrapper rt link f w' /\ insertBefore p w' ref d = Ok d1 /\
    (place w c d = d1 \/
     (exists cls, place w c d = update_f (f + 3) (add_classes cls) d1) \/
     place w c d = repairExisting d1).
Proof.
  intros Hw. unfold place, place_try.
  set (pa := querySelectorIn c protect_sel d).
  set (na := querySelectorIn c network_sel d).
  assert (R : forall a,
             match robust_insert w c a d with
             | Normal d' => d' = d \/
                 exists w' p ref d1, is_wrapper rt link f w' /\
                                     insertBefore p w' ref d = Ok d1 /\ d' = d1
             | Abrupt w' => is_wrapper rt link f w'
             end).
  { intros a. pose proof (robust_insert_cases w c a d) as R.
    destruct (robust_insert w c a d) as [d'|w'].
    - destruct R as [->|[cls [p [ref R]]]]; [now left|right].
      exists (add_classes_node cls w), p, ref, d'.
      split; [now apply add_classes_is_wrapper|auto].
    - destruct R as [cls ->]. now apply add_classes_is_wrapper. }
  assert (L : forall w', is_wrapper rt link f w' ->
             let r := match body d with
                      | Some b => match appendChild b w' d with
                                  | Ok d' => d'
                                  | Throw => d
                                  end
                      | None => d
                      end in
             r = d \/ exists w'' p ref d1, is_wrapper rt link f w'' /\
                                  insertBefore p w'' ref d = Ok d1 /\ r = d1).
  { intros w' Hw'. simpl. destruct (body d) as [b|]; [|now left].
    unfold appendChild. destruct (insertBefore b w' None d) as [d'|] eqn:E; [|now left].
    right. exists w', b, None, d'. auto. }
  destruct pa as [a|].
  - destruct (insertBefore (parent_or a c d) w (nextSibling a d) d) as [d'|] eqn:E.
    + right. exists w, (parent_or a c d), (nextSibling a d), d'.
      split; [exact Hw|]. split; [exact E|]. right. left.
      rewrite (wrapper_nid rt link f w Hw). eauto.
    + specialize (R a). destruct (robust_insert w c a d) as [d'|w'].
      * destruct R as [->|[w' [p [ref [d1 [H1 [H2 ->]]]]]]]; [now left|].
        right. exists w', p, ref, d1. auto.
      * destruct (L w' R) as [->|[w'' [p [ref [d1 [H1 [H2 H3]]]]]]]; [now left|].
        right. exists w'', p, ref, d1. auto.
  - destruct na as [n|].
    + specialize (R n). destruct (robust_insert w c n d) as [d'|w'].
      * destruct R as [->|[w' [p [ref [d1 [H1 [H2 ->]]]]]]]; [now left|].
        right. exists w', p, ref, d1. auto.
      * destruct (L w' R) as [->|[w'' [p [ref [d1 [H1 [H2 H3]]]]]]]; [now left|].
        right. exists w'', p, ref, d1. auto.
    + change (appendChild c w d) with (insertBefore c w None d).
      destruct (insertBefore c w None d) as [d1|] eqn:E.
      * right. exists w, c, None, d1. split; [exact Hw|]. split; [exact E|].
        right. right. reflexivity.
      * destruct (L w Hw) as [->|[w'' [p [ref [d1 [H1 [H2 H3]]]]]]]; [now left|].
        right. exists w'', p, ref, d1. auto.
Qed.

Lemma place_sound rt link f w c d :
  is_wrapper rt link f w -> sound d f -> count_icons d = 0 ->
  sound (place w c d) (f + 4) /\ count_icons (place w c d) <= 1.
Proof.
  intros Hw Hs Hc.
  destruct (place_cases rt link f w c d Hw)
    as [->|[w' [p [ref [d1 [Hw' [Hins Hpost]]]]]]].
  - split; [apply (sound_weaken d f); [lia|exact Hs]|lia].
  - destruct (insertBefore_new_labels p w' ref d d1 (proj1 Hs)
                (wrapper_fresh rt link f w' Hw' d (proj2 Hs)) Hins) as [Hp _].
    pose proof (new_wrapper_sound rt link f w' Hw' d d1 Hs Hp) as Hs1.
    pose proof (new_wrapper_count rt link f w' Hw' d d1 Hp) as Hc1.
    destruct Hpost as [->|[[cls ->]| ->]].
    + split; [exact Hs1|lia].
    + split; [now apply update_sound|].
      rewrite count_icons_update; [lia|]. intros e. apply eid_add_classes.
    + destruct (repairExisting_sound d1 (f + 4) Hs1) as [H1 H2]. split; [exact H1|lia].
Qed.

(** * The singleton invariant *)

Lemma createIcon_singleton link now s :
  singleton s -> singleton (state_of (createIcon link now s)).
Proof.
  intros [Hs Hc]. unfold createIcon.
  destruct (debounced now s); [now split|].
  destruct (removeIcon_sound (doc s) (fresh s) Hs Hc) as [Hs1 Hc1].
  destruct (resolve_container (removeIcon (doc s))) as [c|]; simpl.
  - exact (place_sound (runtime s) link (fresh s) _ c _
             (build_icon_is_wrapper _ _ _) Hs1 Hc1).
  - split; simpl; [apply (sound_weaken _ (fresh s)); [lia|exact Hs1]|].
    rewrite Hc1. lia.
Qed.

Lemma removeIcon_singleton s :
  singleton s -> singleton (with_doc (removeIcon (doc s)) s).
Proof.
  intros [Hs Hc]. destruct (removeIcon_sound (doc s) (fresh s) Hs Hc) as [H1 H2].
  split; simpl; [exact H1|lia].
Qed.

Lemma repairExisting_singleton s :
  singleton s -> singleton (with_doc (repairExisting (doc s)) s).
Proof.
  intros [Hs Hc]. destruct (repairExisting_sound (doc s) (fresh s) Hs) as [H1 H2].
  split; simpl; [exact H1|lia].
Qed.

Lemma apply_settings_singleton link q now now' s :
  singleton s -> singleton (state_of (apply_settings link q now now' s)).
Proof.
  intros H. unfold apply_settings.
  pose proof (createIcon_singleton (Some (JsString.or_else link DEFAULT_LINK)) now s H) as H1.
  destruct (createIcon (Some (JsString.or_else link DEFAULT_LINK)) now s) as [s1|s1];
    simpl in H1.
  - simpl. destruct (positive q); exact H1.
  - pose proof (createIcon_singleton (Some DEFAULT_LINK) now' s1 H1) as H2.
    destruct (createIcon (Some DEFAULT_LINK) now' s1) as [s2|s2]; simpl in *.
    + destruct (positive q); exact H2.
    + exact H2.
Qed.

Lemma loadAndCreate_singleton now now' s :
  singleton s -> singleton (state_of (loadAndCreate now now' s)).
Proof.
  intros H. unfold loadAndCreate.
  destruct (storage s); apply apply_settings_singleton; exact H.
Qed.

(** The call of [loadAndCreate] and the answer of the store make up
    [loadAndCreate]. *)
Lemma settle_call now now' s :
  settle now now' (loadAndCreate_call now now' s) = loadAndCreate now now' s.
Proof.
  unfold loadAndCreate_call.
  destruct (storage s); try reflexivity;
    now destruct (loadAndCreate now now' s).
Qed.

Lemma observer_unfold t now now' s :
  observer t now now' s =
  match icon_lost s with
  | Throw => Threw s
  | Ok false => Returned s
  | Ok true =>
      if (t - last_or_zero s <? 1000)%Z then Returned s
      else loadAndCreate now now' s
  end.
Proof.
  unfold observer, observer_callback.
  destruct (icon_lost s) as [[|]|]; try reflexivity.
  destruct (t - last_or_zero s <? 1000)%Z; [reflexivity|apply settle_call].
Qed.

Lemma storage_changed_unfold old new now now' s :
  storage_changed old new now now' s =
  if match driveLink old, driveLink new with
     | Some a, Some b => negb (jsstring_eqb a b)
     | None, None => false
     | _, _ => true
     end
  then state_of (loadAndCreate now now' s) else s.
Proof.
  unfold storage_changed, onChanged. cbv zeta.
  match goal with |- context [if ?b then _ else _] => destruct b end;
    [now rewrite settle_call|reflexivity].
Qed.

Lemma step_singleton (a : action) (s : state) :
  singleton s -> singleton (step a s).
Proof.
  intros H. destruct a as [link now| | |t now now'|now|i now|input delay now now']; simpl.
  - now apply createIcon_singleton.
  - now apply removeIcon_singleton.
  - now apply repairExisting_singleton.
  - rewrite observer_unfold. destruct (icon_lost s) as [[|]|]; simpl; try exact H.
    destruct (t - last_or_zero s <? 1000)%Z; [exact H|].
    now apply loadAndCreate_singleton.
  - unfold checkAndCreate.
    destruct (querySelector protect_sel (doc s)); [|exact H].
    destruct (getElementById ICON_ID (doc s)); [exact H|].
    pose proof (createIcon_singleton None now s H) as H1.
    destruct (createIcon None now s); exact H1.
  - unfold fire_timer. destruct (nth_error (timers s) i) as [[link ms]|]; [|exact H].
    apply createIcon_singleton. exact H.
  - destruct (storage s) as [|old|]; try exact H.
    rewrite storage_changed_unfold.
    match goal with |- singleton (if ?b then _ else _) => destruct b end.
    + apply loadAndCreate_singleton. exact H.
    + exact H.
Qed.

(** * C1: the singleton invariant *)

(** C1.  Start from a well-formed document with at most one element that
    carries the reserved identifier.  After any sequence of [createIcon],
    [removeIcon], [repairExisting], observer, poll, timer and save events
    the document has zero or one elements with [ICON_ID]. *)
Theorem singleton_invariant (s0 s : state) :
  wf_doc (doc s0) (fresh s0) = true ->
  count_icons (doc s0) <= 1 ->
  reachable s0 s ->
  count_icons (doc s) <= 1.
Proof.
  intros Hwf Hc Hr.
  assert (H0 : singleton s0) by (split; [now apply wf_doc_spec|exact Hc]).
  assert (H : singleton s).
  { induction Hr as [|a s Hr IH]; [exact H0|]. now apply step_singleton. }
  exact (proj2 H).
Qed.

(** * The reserved identifier and the elements the placer looks for *)

Lemma host_sel_container : host_sel container_sel.
Proof.
  intros e H. unfold container_sel in H.
  apply andb_true_iff in H. destruct H as [H _].
  apply andb_true_iff in H. destruct H as [H _].
  apply String.eqb_eq in H. rewrite H. split; [reflexivity|discriminate].
Qed.

Lemma host_sel_applink name : host_sel (applink_sel name).
Proof.
  intros e H. unfold applink_sel in H.
  apply andb_true_iff in H. destruct H as [H1 H2].
  apply String.eqb_eq in H1. rewrite H1. split; [reflexivity|].
  intros _. destruct (testid e); [discriminate|discriminate].
Qed.

Lemma host_sel_html : host_sel html_sel.
Proof.
  intros e H. unfold html_sel in H. apply String.eqb_eq in H. rewrite H.
  split; [reflexivity|discriminate].
Qed.

Lemma host_sel_body : host_sel body_sel.
Proof.
  intros e H. unfold body_sel in H. apply orb_true_iff in H.
  destruct H as [H|H]; apply String.eqb_eq in H; rewrite H;
    (split; [reflexivity|discriminate]).
Qed.

Section Reserved.
Variable d : list node.
Hypothesis Hnd : NoDup (nids_f d).
Hypothesis Hok : icons_ok d = true.

(** Nothing inside an icon matches a selector of the placer. *)
Lemma icon_no_host (n x : node) (sel : selector) :
  host_sel sel -> In n (all_nodes d) -> is_icon n = true -> In x (preorder n) ->
  matches sel x = false.
Proof.
  intros Hsel Hn Hi Hx.
  pose proof (proj1 (icons_ok_spec d) Hok n Hn Hi) as Hshape.
  destruct n as [i data|i e cs]; [discriminate|].
  simpl in Hshape. apply andb_true_iff in Hshape. destruct Hshape as [Hshape Hplain].
  apply andb_true_iff in Hshape. destruct Hshape as [Htag Htest].
  rewrite preorder_elem in Hx. destruct Hx as [<-|Hx].
  - simpl. apply Bool.not_true_iff_false. intros M.
    destruct (Hsel e M) as [_ H]. specialize (H Htag).
    destruct (testid e); [discriminate|]. now apply H.
  - rewrite forallb_forall in Hplain. specialize (Hplain x Hx).
    destruct x as [j data|j e' cs']; [reflexivity|]. simpl in *.
    apply Bool.not_true_iff_false. intros M.
    destruct (Hsel e' M) as [H _]. rewrite H in Hplain. discriminate.
Qed.

(** So whatever the placer finds is outside the icon. *)
Lemma host_outside_icon (n x : node) (sel : selector) :
  host_sel sel -> In n (all_nodes d) -> is_icon n = true ->
  In x (all_nodes d) -> matches sel x = true -> ~ In (nid x) (nids n).
Proof.
  intros Hsel Hn Hi Hx Hm Hin. unfold nids in Hin. apply in_map_iff in Hin.
  destruct Hin as [y [Ey Hy]].
  assert (y = x).
  { apply (node_inj d); auto. exact (all_nodes_trans d n y Hn Hy). }
  subst y. rewrite (icon_no_host n x sel Hsel Hn Hi Hy) in Hm. discriminate.
Qed.

Variable el : nat.
Hypothesis Hel : getElementById ICON_ID d = Some el.

Lemma clear_of_icon (sel : selector) (ns : list node) :
  host_sel sel -> incl (all_nodes ns) (all_nodes d) ->
  clear_of (matches sel) el ns.
Proof.
  intros Hsel Hincl m x Hm Hmk Hx.
  destruct (the_icon d el Hnd Hel) as [n [_ [Hn [Hi Hk]]]].
  assert (m = n).
  { apply (node_inj d); auto. congruence. }
  subst m. exact (icon_no_host n x sel Hsel Hn Hi Hx).
Qed.

Lemma removeIcon_querySelector (sel : selector) :
  host_sel sel -> querySelector sel (removeIcon d) = querySelector sel d.
Proof.
  intros Hsel. rewrite (removeIcon_eq d el Hnd Hel). unfold querySelector.
  rewrite (first_node_remove (matches sel) el (matches_remove sel el)).
  - destruct (first_node (matches sel) d); simpl; [now rewrite nid_remove|reflexivity].
  - apply clear_of_icon; [exact Hsel|apply incl_refl].
Qed.

Lemma removeIcon_lookup (x : node) (sel : selector) :
  host_sel sel -> In x (all_nodes d) -> matches sel x = true ->
  lookup (nid x) (removeIcon d) = Some (remove el x).
Proof.
  intros Hsel Hx Hm. rewrite (removeIcon_eq d el Hnd Hel).
  destruct (the_icon d el Hnd Hel) as [n [Hl [Hn [Hi Hk]]]].
  rewrite (lookup_remove el (nid x) n d Hnd Hl).
  - now rewrite (lookup_unique d x Hnd Hx).
  - exact (host_outside_icon n x sel Hsel Hn Hi Hx Hm).
Qed.

Lemma removeIcon_querySelectorIn (x : node) (sel0 sel : selector) :
  host_sel sel0 -> host_sel sel -> In x (all_nodes d) -> matches sel0 x = true ->
  querySelectorIn (nid x) sel (removeIcon d) = querySelectorIn (nid x) sel d.
Proof.
  intros Hsel0 Hsel Hx Hm. unfold querySelectorIn.
  rewrite (removeIcon_lookup x sel0 Hsel0 Hx Hm), (lookup_unique d x Hnd Hx).
  destruct x as [i data|i e cs]; [discriminate|].
  rewrite remove_elem. simpl children. unfold querySelector.
  rewrite (first_node_remove (matches sel) el (matches_remove sel el)).
  - destruct (first_node (matches sel) cs); simpl; [now rewrite nid_remove|reflexivity].
  - apply clear_of_icon; [exact Hsel|].
    intros y Hy. apply (all_nodes_trans d (Elem i e cs) y Hx).
    rewrite preorder_elem. now right.
Qed.

Lemma removeIcon_body (b : nat) :
  body d = Some b -> body (removeIcon d) = Some b.
Proof.
  intros Hb. rewrite (removeIcon_eq d el Hnd Hel).
  destruct (the_icon d el Hnd Hel) as [n [Hl [Hn [Hi Hk]]]].
  pose proof Hb as Hb'. apply body_spec in Hb'.
  destruct Hb' as [i [e [cs [hb [Hd [Ht [Hf Hbn]]]]]]].
  assert (Hh : In (Elem i e cs) (all_nodes d)).
  { apply top_in_all_nodes. unfold documentElement in Hd.
    apply find_some in Hd. tauto. }
  apply find_some in Hf. destruct Hf as [Hf1 Hf2].
  assert (Hbin : In hb (all_nodes d)).
  { exact (children_in_all_nodes d _ hb Hh Hf1). }
  apply body_remove; [exact Hb| |].
  - intros E. apply (host_outside_icon n hb body_sel host_sel_body Hn Hi Hbin Hf2).
    rewrite Hbn, <- E, <- Hk, nids_children. now left.
  - intros h Hh'. rewrite Hd in Hh'. inversion Hh'; subst h. simpl. intros E.
    apply (host_outside_icon n (Elem i e cs) html_sel host_sel_html Hn Hi Hh Ht).
    simpl. rewrite E, <- Hk, nids_children. now left.
Qed.
End Reserved.

(** * Siblings *)

Lemma NoDup_roots (cs : list node) : NoDup (nids_f cs) -> NoDup (map nid cs).
Proof.
  induction cs as [|c cs IH]; intros H; [constructor|].
  rewrite nids_f_cons in H. simpl. constructor.
  - intros X. apply (NoDup_app_disjoint _ _ (nid c) H).
    + rewrite nids_children. now left.
    + apply in_map_iff in X. destruct X as [y [E Hy]]. rewrite <- E.
      apply in_nids_f. now apply top_in_all_nodes.
  - exact (IH (NoDup_app_r _ _ H)).
Qed.

Lemma after_incl (a : nat) (cs : list node) (y : node) :
  In y (after a cs) -> In y cs.
Proof.
  induction cs as [|c cs IH]; simpl; [tauto|].
  destruct (has_nid a c); [now right|]. intros H. right. now apply IH.
Qed.

Lemma has_nid_false_of_NoDup (c : node) (rest : list node) (r : nat) :
  NoDup (map nid (c :: rest)) -> In r (map nid rest) -> has_nid r c = false.
Proof.
  intros H Hr. inversion H as [|? ? Hn _]; subst. unfold has_nid.
  apply Nat.eqb_neq. intros E. apply Hn. now rewrite E.
Qed.

Lemma insert_children_cons (w c : node) (ref : option nat) (rest : list node) :
  NoDup (map nid (c :: rest)) ->
  match ref with Some r => In r (map nid rest) | None => True end ->
  insert_children w ref (c :: rest) = c :: insert_children w ref rest.
Proof.
  intros Hnd Hr. destruct ref as [r|]; simpl; [|reflexivity].
  now rewrite (has_nid_false_of_NoDup c rest r Hnd Hr).
Qed.

(** Inserting before the next sibling of [a] puts the node right after
    [a]. *)
Lemma after_insert_next (a : nat) (w : node) (cs : list node) :
  NoDup (map nid cs) -> In a (map nid cs) ->
  after a (insert_children w (option_map nid (hd_error (after a cs))) cs)
  = w :: after a cs.
Proof.
  induction cs as [|c rest IH]; intros Hnd Ha; [contradiction|].
  simpl after at 2 3. destruct (has_nid a c) eqn:E.
  - destruct rest as [|r1 rest']; simpl; rewrite ?E; [reflexivity|].
    assert (E1 : has_nid (nid r1) c = false).
    { apply (has_nid_false_of_NoDup c (r1 :: rest')); [exact Hnd|now left]. }
    rewrite E1. simpl. rewrite E. unfold has_nid at 1. now rewrite Nat.eqb_refl.
  - assert (Ha' : In a (map nid rest)).
    { simpl in Ha. destruct Ha as [X|X]; [|exact X].
      unfold has_nid in E. apply Nat.eqb_neq in E. contradiction. }
    rewrite insert_children_cons; [|exact Hnd|].
    + simpl. rewrite E. apply IH; [now inversion Hnd|exact Ha'].
    + destruct (hd_error (after a rest)) as [y|] eqn:Hy; simpl; [|exact I].
      apply in_map. apply (after_incl a). destruct (after a rest); [discriminate|].
      inversion Hy. now left.
Qed.

Lemma index_of_in (t : nat) (l : list node) (idx : nat) :
  index_of t l = Some idx -> In t (map nid l).
Proof.
  revert idx. induction l as [|c l IH]; intros idx H; [discriminate|].
  simpl in H. destruct (has_nid t c) eqn:E.
  - left. unfold has_nid in E. now apply Nat.eqb_eq.
  - destruct (index_of t l) as [j|]; [|discriminate]. right. now apply (IH j).
Qed.

Lemma index_of_some (t : node) (l : list node) :
  In t l -> exists idx, index_of (nid t) l = Some idx.
Proof.
  induction l as [|c l IH]; intros H; [contradiction|]. simpl.
  destruct (has_nid (nid t) c) eqn:E; [now exists 0|].
  destruct H as [->|H].
  - unfold has_nid in E. now rewrite Nat.eqb_refl in E.
  - destruct (IH H) as [j ->]. now exists (S j).
Qed.

Lemma filter_nil_find {A : Type} (P : A -> bool) (l : list A) :
  filter P l = [] -> find P l = None.
Proof.
  induction l as [|x l IH]; simpl; [reflexivity|].
  destruct (P x); [discriminate|exact IH].
Qed.

Lemma in_map_filter (P : node -> bool) (l : list node) (r : nat) :
  In r (map nid (filter P l)) -> In r (map nid l).
Proof.
  intros H. apply in_map_iff in H. destruct H as [y [E Hy]].
  apply filter_In in Hy. rewrite <- E. apply in_map. tauto.
Qed.

Lemma find_insert_before_first (r0 w : node) (kf rest : list node) :
  filter is_element rest = r0 :: kf -> NoDup (map nid rest) ->
  is_element w = true ->
  find is_element (insert_before (nid r0) w rest) = Some w.
Proof.
  intros Hf Hnd Hw. induction rest as [|y rest IH]; [discriminate|].
  simpl in Hf. simpl. destruct (is_element y) eqn:Ey.
  - inversion Hf; subst y. unfold has_nid. rewrite Nat.eqb_refl. simpl. now rewrite Hw.
  - assert (E : has_nid (nid r0) y = false).
    { apply (has_nid_false_of_NoDup y rest); [exact Hnd|].
      apply (in_map_filter is_element). rewrite Hf. now left. }
    rewrite E. simpl. rewrite Ey. apply IH; [exact Hf|now inversion Hnd].
Qed.

(** Inserting before the element child that follows [t] among the element
    children puts the node at the place of the next element sibling of
    [t]. *)
Lemma after_insert_element (t : nat) (w : node) (cs : list node) (idx : nat) :
  NoDup (map nid cs) ->
  index_of t (filter is_element cs) = Some idx ->
  is_element w = true ->
  find is_element
    (after t (insert_children w
                (option_map nid (nth_error (filter is_element cs) (S idx))) cs))
  = Some w.
Proof.
  revert idx. induction cs as [|c rest IH]; intros idx Hnd Hi Hw; [discriminate|].
  assert (Hnd' : NoDup (map nid rest)) by now inversion Hnd.
  simpl filter in *. destruct (is_element c) eqn:Ec.
  - simpl in Hi. destruct (has_nid t c) eqn:Et.
    + inversion Hi; subst idx. simpl nth_error.
      destruct (filter is_element rest) as [|r0 kf] eqn:Hf; simpl.
      * rewrite Et, find_app, (filter_nil_find _ _ Hf). simpl. now rewrite Hw.
      * assert (E1 : has_nid (nid r0) c = false).
        { apply (has_nid_false_of_NoDup c rest); [exact Hnd|].
          apply (in_map_filter is_element). rewrite Hf. now left. }
        rewrite E1. simpl. rewrite Et.
        exact (find_insert_before_first r0 w kf rest Hf Hnd' Hw).
    + destruct (index_of t (filter is_element rest)) as [j|] eqn:Hj; [|discriminate].
      inversion Hi; subst idx.
      change (nth_error (c :: filter is_element rest) (S (S j)))
        with (nth_error (filter is_element rest) (S j)).
      rewrite insert_children_cons; [|exact Hnd|].
      * simpl. rewrite Et. now apply IH.
      * destruct (nth_error (filter is_element rest) (S j)) as [y|] eqn:Hy; simpl; [|exact I].
        apply nth_error_In in Hy. apply (in_map_filter is_element). now apply in_map.
  - assert (Et : has_nid t c = false).
    { apply (has_nid_false_of_NoDup c rest); [exact Hnd|].
      apply (in_map_filter is_element). exact (index_of_in _ _ _ Hi). }
    rewrite insert_children_cons; [|exact Hnd|].
    + simpl. rewrite Et. now apply IH.
    + destruct (nth_error (filter is_element rest) (S idx)) as [y|] eqn:Hy; simpl; [|exact I].
      apply nth_error_In in Hy. apply (in_map_filter is_element). now apply in_map.
Qed.

(** The siblings of a node once [w] has been inserted below its parent. *)
Lemma siblings_insert (d : list node) (m x w : node) (ref : option nat) :
  NoDup (nids_f d) -> In m (all_nodes d) -> In x (children m) ->
  (forall k, In k (nids w) -> ~ In k (nids_f d)) ->
  siblings (nid x) (insert_f (nid m) w ref d) = insert_children w ref (children m).
Proof.
  intros Hnd Hm Hx Hw.
  destruct (parent_unique d m x Hnd Hm Hx) as [Hp Htop].
  assert (Hxd : In (nid x) (nids_f d)).
  { apply in_nids_f. exact (children_in_all_nodes d m x Hm Hx). }
  assert (Hxw : ~ In (nid x) (nids w)) by (intros X; exact (Hw _ X Hxd)).
  unfold siblings.
  assert (E : existsb (has_nid (nid x)) (insert_f (nid m) w ref d) = false).
  { apply Bool.not_true_iff_false. intros X. apply existsb_has_nid in X.
    rewrite map_nid_insert_f in X. contradiction. }
  rewrite E.
  rewrite (first_node_insert (has_child (nid x)) (nid m) w ref).
  - rewrite Hp. simpl. destruct m as [i data|i e cs]; [contradiction|].
    rewrite insert_at_elem. simpl. rewrite Nat.eqb_refl.
    rewrite insert_f_fresh; [reflexivity|].
    pose proof (NoDup_sub d _ Hnd Hm) as Hn. apply NoDup_nids_children in Hn. tauto.
  - intros n. apply has_child_insert_at. intros X. apply Hxw.
    rewrite X, nids_children. now left.
  - apply find_none_iff. intros y Hy. apply Bool.not_true_iff_false. intros X.
    unfold has_child in X. apply existsb_has_nid in X.
    apply in_map_iff in X. destruct X as [z [Ez Hz]]. apply Hxw. rewrite <- Ez.
    apply in_nids. apply (preorder_trans w y z Hy). rewrite preorder_children.
    right. now apply top_in_all_nodes.
Qed.

Lemma after_map (a : nat) (T : node -> node) (cs : list node) :
  (forall n, nid (T n) = nid n) -> after a (map T cs) = map T (after a cs).
Proof.
  intros HT. induction cs as [|c cs IH]; simpl; [reflexivity|].
  unfold has_nid. rewrite HT. fold (has_nid a c). now destruct (has_nid a c).
Qed.

Lemma siblings_update (a k : nat) f (d : list node) :
  siblings a (update_f k f d) = update_f k f (siblings a d).
Proof.
  unfold siblings.
  assert (E : existsb (has_nid a) (update_f k f d) = existsb (has_nid a) d).
  { apply existsb_ext_in_nid. now rewrite map_nid_update_f. }
  rewrite E. destruct (existsb (has_nid a) d); [reflexivity|].
  rewrite (first_node_update (has_child a) k f (has_child_update a k f)).
  destruct (first_node (has_child a) d) as [[i data|i e cs]|]; reflexivity.
Qed.

Lemma nextSibling_update (a k : nat) f (d : list node) :
  nextSibling a (update_f k f d) = nextSibling a d.
Proof.
  unfold nextSibling. rewrite siblings_update. unfold update_f.
  rewrite (after_map a (update k f) _ (nid_update k f)).
  destruct (after a (siblings a d)); simpl; [reflexivity|now rewrite nid_update].
Qed.

(** * The three placements *)

Lemma elem_of_children (m x : node) :
  In x (children m) -> exists i e cs, m = Elem i e cs.
Proof. destruct m as [i data|i e cs]; [contradiction|]. intros _. now exists i, e, cs. Qed.

Lemma descendant_parent (d : list node) (nc x : node) :
  In nc (all_nodes d) -> In x (all_nodes (children nc)) ->
  exists m, In m (all_nodes d) /\ In x (children m).
Proof.
  intros Hc Hx. destruct (root_or_child _ _ Hx) as [H|[m [Hm H]]].
  - now exists nc.
  - exists m. split; [|exact H]. apply (all_nodes_trans d nc m Hc).
    rewrite preorder_children. now right.
Qed.

Section Placement.
Variables (rt : runtime_env) (link : option jsstring) (f : nat) (w : node).
Hypothesis Hw : is_wrapper rt link f w.
Variable d : list node.
Hypothesis Hs : sound d f.

Lemma wrapper_is_element : is_element w = true.
Proof. destruct Hw as [c ->]. reflexivity. Qed.

(** After the anchor that [querySelector] found in the container. *)
Lemma anchor_insert (c a : nat) (sel : selector) :
  querySelectorIn c sel d = Some a ->
  exists p,
    parentElement a d = Some p /\
    insertBefore (parent_or a c d) w (nextSibling a d) d
    = Ok (insert_f p w (nextSibling a d) d) /\
    nextSibling a (insert_f p w (nextSibling a d) d) = Some (nid w).
Proof.
  intros Q. destruct Hs as [Hnd Hb].
  destruct (querySelectorIn_node c a sel d Hnd Q)
    as [nc [x [Hc [Hcin [_ [Hx [Hxd [Hxa [Hm Hxl]]]]]]]]].
  subst a.
  destruct (descendant_parent d nc x Hcin Hx) as [m [Hmd Hxm]].
  destruct (child_facts d m x Hnd Hmd Hxm) as [Hpe [Hsib _]].
  exists (nid m). split; [exact Hpe|].
  pose proof (wrapper_fresh rt link f w Hw d Hb) as Hfresh.
  assert (Hroots : NoDup (map nid (children m))).
  { apply NoDup_roots. pose proof (NoDup_sub d m Hnd Hmd) as Hn.
    apply NoDup_nids_children in Hn. tauto. }
  assert (Hain : In (nid x) (map nid (children m))) by now apply in_map.
  assert (Hnext : nextSibling (nid x) d
                  = option_map nid (hd_error (after (nid x) (children m)))).
  { unfold nextSibling. now rewrite Hsib. }
  split.
  - unfold parent_or. rewrite Hpe.
    pose proof (lookup_unique d m Hnd Hmd) as Hl.
    destruct (elem_of_children m x Hxm) as [i [e [cs E]]]. subst m. simpl in *.
    apply (insertBefore_new i w _ d e cs Hnd Hl Hfresh).
    rewrite Hnext.
    destruct (hd_error (after (nid x) cs)) as [y|] eqn:Hy; simpl; [|exact I].
    apply in_map. apply (after_incl (nid x)). destruct (after (nid x) cs); [discriminate|].
    inversion Hy. now left.
  - rewrite Hnext. unfold nextSibling.
    rewrite (siblings_insert d m x w _ Hnd Hmd Hxm Hfresh).
    now rewrite (after_insert_next (nid x) w (children m) Hroots Hain).
Qed.

(** The direct child of the container that holds the anchor. *)
Lemma anchor_host (c n : nat) (sel : selector) :
  querySelectorIn c sel d = Some n ->
  exists t e cs,
    lookup c d = Some (Elem c e cs) /\ In (Elem c e cs) (all_nodes d) /\
    In t (filter is_element cs) /\
    existsb (Nat.eqb n) (nids t) = true /\
    findDirectChildContaining n c d = Some (nid t).
Proof.
  intros Q. destruct Hs as [Hnd Hb].
  destruct (querySelectorIn_node c n sel d Hnd Q)
    as [nc [x [Hc [Hcin [_ [Hx [Hxd [Hxa [Hm Hxl]]]]]]]]].
  apply in_all_nodes in Hx. destruct Hx as [ch [Hch Hxch]].
  destruct (elem_of_children nc ch Hch) as [i [e [cs E]]]. subst nc.
  pose proof (lookup_in _ _ _ Hc) as [_ Hi]. simpl in Hi. subst i. simpl in Hch.
  assert (Hel : is_element ch = true).
  { destruct ch as [j data|j e' cs']; [|reflexivity].
    simpl in Hxch. destruct Hxch as [<-|[]]. discriminate. }
  assert (Hp : existsb (Nat.eqb n) (nids ch) = true).
  { apply existsb_eqb_In. rewrite <- Hxa. now apply in_nids. }
  unfold findDirectChildContaining, element_children. rewrite Hc. simpl children.
  destruct (find (fun child => existsb (Nat.eqb n) (nids child)) (filter is_element cs))
    as [t|] eqn:F.
  - exists t, e, cs. apply find_some in F. simpl. tauto.
  - exfalso. pose proof (find_none _ _ F ch) as X. simpl in X.
    rewrite Hp in X. assert (false = true); [|discriminate].
    symmetry. apply X. apply filter_In. auto.
Qed.

(** After the direct child of the container that holds the anchor. *)
Lemma host_insert (c n : nat) (sel : selector) :
  querySelectorIn c sel d = Some n ->
  exists t w' ref,
    findDirectChildContaining n c d = Some t /\
    parentElement t d = Some c /\
    is_wrapper rt link f w' /\
    robust_insert w c n d = Normal (insert_f c w' ref d) /\
    insertBefore c w' ref d = Ok (insert_f c w' ref d) /\
    nextElementSibling t (insert_f c w' ref d) = Some (nid w') /\
    parentElement t (insert_f c w' ref d) = Some c /\
    contains t n (insert_f c w' ref d) = true.
Proof.
  intros Q. pose proof Hs as [Hnd Hb].
  destruct (anchor_host c n sel Q) as [t [e [cs [Hc [Hcin [Ht [Hcont Hfind]]]]]]].
  apply filter_In in Ht. destruct Ht as [Htin Htel].
  assert (Htk : In t (filter is_element cs)) by (apply filter_In; auto).
  destruct (index_of_some t _ Htk) as [idx Hidx].
  set (w' := add_classes_node (classes_of (nid t) d) w).
  assert (Hw' : is_wrapper rt link f w') by now apply add_classes_is_wrapper.
  set (ref := option_map nid (nth_error (filter is_element cs) (S idx))).
  pose proof (wrapper_fresh rt link f w' Hw' d Hb) as Hfresh.
  destruct (child_facts d (Elem c e cs) t Hnd Hcin Htin) as [Hpe [Hsib _]].
  simpl in Hpe, Hsib.
  assert (Hins : insertBefore c w' ref d = Ok (insert_f c w' ref d)).
  { apply (insertBefore_new c w' ref d e cs Hnd Hc Hfresh).
    unfold ref. destruct (nth_error (filter is_element cs) (S idx)) as [y|] eqn:Hy;
      simpl; [|exact I].
    apply nth_error_In in Hy. apply filter_In in Hy. apply in_map. tauto. }
  assert (Htw : ~ In (nid t) (nids w')).
  { intros X. apply (Hfresh _ X). apply in_nids_f.
    exact (children_in_all_nodes d _ t Hcin Htin). }
  assert (Hct : ~ In c (nids t)).
  { pose proof (NoDup_sub d _ Hnd Hcin) as Hn. apply NoDup_nids_children in Hn.
    simpl in Hn. destruct Hn as [_ Hn]. intros X. apply Hn.
    unfold nids in X. apply in_map_iff in X. destruct X as [y [Ey Hy]].
    rewrite <- Ey. apply in_nids_f. apply in_all_nodes. now exists t. }
  exists (nid t), w', ref. split; [exact Hfind|]. split; [exact Hpe|].
  split; [exact Hw'|]. split; [|split; [exact Hins|split; [|split]]].
  4:{ unfold contains. rewrite (lookup_insert c (nid t) w' ref d Htw).
      rewrite (lookup_unique d t Hnd (children_in_all_nodes d _ t Hcin Htin)).
      simpl. now rewrite (insert_at_fresh c w' ref t Hct). }
  3:{ unfold parentElement.
      rewrite (first_node_insert (has_child (nid t)) c w' ref).
      - unfold parentElement in Hpe.
        destruct (first_node (has_child (nid t)) d); simpl in *; [|discriminate].
        now rewrite nid_insert_at.
      - intros x. apply has_child_insert_at. intros X. apply Htw.
        rewrite X, nids_children. now left.
      - apply find_none_iff. intros y Hy. apply Bool.not_true_iff_false. intros X.
        unfold has_child in X. apply existsb_has_nid in X.
        apply in_map_iff in X. destruct X as [z [Ez Hz]]. apply Htw. rewrite <- Ez.
        apply in_nids. apply (preorder_trans w' y z Hy). rewrite preorder_children.
        right. now apply top_in_all_nodes. }
  - unfold robust_insert. rewrite Hfind. fold w'.
    unfold insert_after_top, element_children. rewrite Hc. simpl children.
    rewrite Hidx. fold ref. now rewrite Hins.
  - unfold nextElementSibling.
    change c with (nid (Elem c e cs)).
    rewrite (siblings_insert d (Elem c e cs) t w' ref Hnd Hcin Htin Hfresh).
    simpl children. unfold ref.
    rewrite (after_insert_element (nid t) w' cs idx); [reflexivity| |exact Hidx|].
    + apply NoDup_roots. pose proof (NoDup_sub d _ Hnd Hcin) as Hn.
      apply NoDup_nids_children in Hn. simpl in Hn. tauto.
    + destruct Hw' as [cl ->]. reflexivity.
Qed.

(** At the end of the container. *)
Lemma append_insert (c : nat) (e : element) (cs : list node) :
  lookup c d = Some (Elem c e cs) ->
  appendChild c w d = Ok (insert_f c w None d).
Proof.
  intros Hc. destruct Hs as [Hnd Hb]. unfold appendChild.
  exact (insertBefore_new c w None d e cs Hnd Hc
           (wrapper_fresh rt link f w Hw d Hb) I).
Qed.
End Placement.

(** * A document with the new wrapper in it *)

Lemma body_in (d : list node) (b : nat) : body d = Some b -> In b (nids_f d).
Proof.
  intros H. apply body_spec in H.
  destruct H as [i [e [cs [hb [Hd [_ [Hf <-]]]]]]].
  apply find_some in Hd. apply find_some in Hf. apply in_nids_f.
  apply (children_in_all_nodes d (Elem i e cs) hb); [|tauto].
  apply top_in_all_nodes. tauto.
Qed.

Lemma documentElement_in (d : list node) (h : node) :
  documentElement d = Some h -> In h (all_nodes d).
Proof. intros H. apply find_some in H. apply top_in_all_nodes. tauto. Qed.

Section Placed.
Variables (rt : runtime_env) (link : option jsstring) (f : nat).
Variable d0 : list node.
Hypothesis Hs : sound d0 f.
Hypothesis Hc : count_icons d0 = 0.

Lemma placed_facts (d' : list node) (w : node) :
  is_wrapper rt link f w -> placed_in d0 d' w ->
  sound d' (f + 4) /\ count_icons d' = 1 /\ lookup (f + 3) d' = Some w /\
  getElementById ICON_ID d' = Some (f + 3) /\ icons_ok d' = true.
Proof.
  intros Hw [Hp [Hin Hb]].
  pose proof (new_wrapper_sound rt link f w Hw d0 d' Hs Hp) as Hs'.
  pose proof (new_wrapper_count rt link f w Hw d0 d' Hp) as Hc'.
  rewrite Hc in Hc'. simpl in Hc'.
  pose proof (wrapper_is_icon rt link f w Hw) as Hi.
  assert (Hl : lookup (f + 3) d' = Some w).
  { rewrite <- (wrapper_nid rt link f w Hw). apply lookup_unique; [exact (proj1 Hs')|exact Hin]. }
  split; [exact Hs'|]. split; [exact Hc'|]. split; [exact Hl|]. split.
  - rewrite getElementById_icon.
    destruct (first_node is_icon d') as [n|] eqn:F.
    + apply first_node_in in F. destruct F as [Hn Hni].
      assert (n = w) by (apply (icon_unique d'); auto; lia). subst n.
      simpl. now rewrite (wrapper_nid rt link f w Hw).
    + exfalso. pose proof (proj1 (find_none_iff _ _) F w Hin) as X.
      rewrite Hi in X. discriminate.
  - apply (icons_ok_one d' w); [lia|exact Hin|exact Hi|].
    exact (wrapper_shape rt link f w Hw).
Qed.

Lemma placed_insert (p : nat) (w : node) (ref : option nat) (d' : list node) :
  is_wrapper rt link f w -> insertBefore p w ref d0 = Ok d' -> placed_in d0 d' w.
Proof.
  intros Hw H.
  destruct (insertBefore_new_labels p w ref d0 d' (proj1 Hs)
              (wrapper_fresh rt link f w Hw d0 (proj2 Hs)) H) as [Hp [Hin [ref' ->]]].
  split; [exact Hp|]. split; [exact Hin|].
  intros b Hb. apply body_insert; [|exact Hb].
  exact (wrapper_not_body rt link f w Hw).
Qed.

Lemma placed_update (cls : list string) (d' : list node) (w : node) :
  is_wrapper rt link f w -> placed_in d0 d' w ->
  placed_in d0 (update_f (f + 3) (add_classes cls) d') (add_classes_node cls w).
Proof.
  intros Hw Hpl. destruct (placed_facts d' w Hw Hpl) as [_ [_ [Hl _]]].
  destruct Hpl as [Hp [Hin Hb]]. split; [|split].
  - rewrite labels_update.
    assert (E0 : labels d0 = map (relabel (f + 3) (add_classes cls)) (labels d0)).
    { rewrite <- labels_update, update_f_fresh; [reflexivity|].
      intros X. destruct Hs as [_ Hbd]. rewrite Forall_forall in Hbd.
      specialize (Hbd _ X). lia. }
    assert (E1 : labels [add_classes_node cls w]
                 = map (relabel (f + 3) (add_classes cls)) (labels [w])).
    { rewrite <- labels_update. unfold update_f. simpl.
      now rewrite (wrapper_update rt link f w Hw). }
    rewrite E0 at 1. rewrite E1, <- map_app. now apply Permutation_map.
  - pose proof (lookup_update (f + 3) (f + 3) (add_classes cls) d') as X.
    rewrite Hl in X. simpl in X. rewrite (wrapper_update rt link f w Hw) in X.
    apply lookup_in in X. tauto.
  - intros b Hb0. rewrite body_update; [now apply Hb|]. intros e. apply tag_add_classes.
Qed.

(** [scrub] finds nothing to take out of a wrapper. *)
Lemma scrub_wrapper (d' : list node) (w : node) :
  is_wrapper rt link f w -> NoDup (nids_f d') -> In w (all_nodes d') ->
  scrub (f + 3) d' = d'.
Proof.
  intros Hw Hnd Hin.
  assert (Hl : lookup (f + 3) d' = Some w).
  { rewrite <- (wrapper_nid rt link f w Hw). now apply lookup_unique. }
  assert (Hch : forall x, In x (all_nodes (children w)) -> lookup (nid x) d' = Some x).
  { intros x Hx. apply lookup_unique; [exact Hnd|].
    apply (all_nodes_trans d' w x Hin). rewrite preorder_children. now right. }
  destruct Hw as [cls ->]. unfold scrub, querySelectorIn. rewrite Hl.
  destruct rt as [|url|]; simpl children in *; unfold querySelector;
    simpl first_node; simpl option_map.
  - assert (Hsvg : lookup (f + 1) d' = Some (makeInlineSvg (f + 1) "#60a5fa"))
      by (apply (Hch (makeInlineSvg (f + 1) "#60a5fa")); simpl; now left).
    cbv beta iota. rewrite Hsvg. reflexivity.
  - assert (Himg : lookup f d' = Some (make_img f url))
      by (apply (Hch (make_img f url)); simpl; now left).
    cbv beta iota. rewrite Himg. reflexivity.
  - assert (Hsvg : lookup (f + 1) d' = Some (makeInlineSvg (f + 1) "#60a5fa"))
      by (apply (Hch (makeInlineSvg (f + 1) "#60a5fa")); simpl; now left).
    cbv beta iota. rewrite Hsvg. reflexivity.
Qed.

Lemma placed_move (p : nat) (ref : option nat) (d' d1 : list node) (w : node) :
  is_wrapper rt link f w -> placed_in d0 d' w ->
  insertBefore p w ref d' = Ok d1 -> placed_in d0 d1 w.
Proof.
  intros Hw Hpl H. destruct (placed_facts d' w Hw Hpl) as [Hs' [_ [Hl _]]].
  destruct Hpl as [Hp [Hin Hb]].
  rewrite <- (wrapper_nid rt link f w Hw) in Hl.
  destruct (insertBefore_move_labels p w ref d' d1 (proj1 Hs') Hl H)
    as [Hp1 [Hin1 [ref' ->]]].
  split; [|split; [exact Hin1|]].
  - now rewrite Hp1.
  - intros b Hb0. apply body_insert; [exact (wrapper_not_body rt link f w Hw)|].
    pose proof (Hb b Hb0) as Hb'.
    apply body_remove; [exact Hb'| |].
    + rewrite (wrapper_nid rt link f w Hw). intros E.
      apply body_in in Hb0. destruct Hs as [_ Hbd]. rewrite Forall_forall in Hbd.
      specialize (Hbd _ Hb0). lia.
    + intros h Hh E. apply body_spec in Hb'.
      destruct Hb' as [i [e [cs [hb [Hd [Ht _]]]]]].
      rewrite Hd in Hh. inversion Hh; subst h.
      assert (Elem i e cs = w).
      { apply (node_inj d'); [exact (proj1 Hs')| |exact Hin|exact E].
        now apply documentElement_in. }
      destruct Hw as [cls Ew]. rewrite Ew in H0. inversion H0; subst e.
      discriminate.
Qed.

Lemma placed_repair (d' : list node) (w : node) :
  is_wrapper rt link f w -> placed_in d0 d' w ->
  exists w', is_wrapper rt link f w' /\ placed_in d0 (repairExisting d') w'.
Proof.
  intros Hw Hpl. destruct (placed_facts d' w Hw Hpl) as [Hs' [_ [Hl [Hg _]]]].
  unfold repairExisting. rewrite Hg.
  destruct (querySelector container_sel d') as [sc|]; [|now exists w].
  set (pa := querySelectorIn sc protect_sel d').
  destruct (repair_move (f + 3) sc pa d') as [d1|] eqn:M; [|now exists w].
  apply repair_move_inv in M. destruct M as [w0 [p [ref [Hl0 M]]]].
  rewrite Hl in Hl0. inversion Hl0; subst w0.
  pose proof (placed_move p ref d' d1 w Hw Hpl M) as Hpl1.
  assert (X : exists w', is_wrapper rt link f w' /\
                         placed_in d0 (copy_host_classes pa (f + 3) d1) w').
  { unfold copy_host_classes. destruct pa as [a|]; [|now exists w].
    destruct (parentElement a d1) as [host|]; [|now exists w].
    exists (add_classes_node (classes_of host d1) w).
    split; [now apply add_classes_is_wrapper|now apply placed_update]. }
  destruct X as [w' [Hw' Hpl2]]. exists w'. split; [exact Hw'|].
  destruct (placed_facts _ w' Hw' Hpl2) as [Hs2 _].
  rewrite (scrub_wrapper _ w' Hw' (proj1 Hs2) (proj1 (proj2 Hpl2))). exact Hpl2.
Qed.
End Placed.

(** ** Taking out what was just put in *)

Lemma remove_f_insert_children (w : node) (ref : option nat) (l : list node) :
  remove_f (nid w) (insert_children w ref l) = remove_f (nid w) l.
Proof.
  assert (E : has_nid (nid w) w = true) by (unfold has_nid; apply Nat.eqb_refl).
  destruct ref as [r|]; simpl.
  - induction l as [|c l IH]; simpl.
    + now rewrite remove_f_cons, E.
    + destruct (has_nid r c).
      * now rewrite remove_f_cons, E.
      * rewrite !remove_f_cons, IH. reflexivity.
  - induction l as [|c l IH]; simpl.
    + now rewrite remove_f_cons, E.
    + rewrite !remove_f_cons, IH. reflexivity.
Qed.

Lemma remove_insert_aux (p : nat) (w : node) (ref : option nat) (cs : list node) :
  Forall (fun c => ~ In (nid w) (nids c) ->
                   remove (nid w) (insert_at p w ref c) = c) cs ->
  ~ In (nid w) (nids_f cs) ->
  remove_f (nid w) (insert_f p w ref cs) = cs.
Proof.
  induction 1 as [|c cs Hc _ IH]; intros Hk; [reflexivity|].
  rewrite nids_f_cons in Hk.
  change (insert_f p w ref (c :: cs)) with (insert_at p w ref c :: insert_f p w ref cs).
  rewrite remove_f_cons.
  assert (Hc' : ~ In (nid w) (nids c)) by (intros X; apply Hk, in_or_app; now left).
  assert (E : has_nid (nid w) (insert_at p w ref c) = false).
  { rewrite has_nid_insert_at. unfold has_nid. apply Nat.eqb_neq. intros E.
    apply Hc'. rewrite <- E, nids_children. now left. }
  rewrite E, (Hc Hc'), IH; [reflexivity|].
  intros X; apply Hk, in_or_app; now right.
Qed.

Lemma remove_insert_node (p : nat) (w : node) (ref : option nat) (n : node) :
  ~ In (nid w) (nids n) -> remove (nid w) (insert_at p w ref n) = n.
Proof.
  induction n as [i data|i e cs IH] using node_ind'; intros Hk; [reflexivity|].
  rewrite nids_elem in Hk. rewrite insert_at_elem, remove_elem. f_equal.
  assert (Hk' : ~ In (nid w) (nids_f cs)) by (intros X; apply Hk; now right).
  destruct (i =? p).
  - rewrite remove_f_insert_children. now apply remove_insert_aux.
  - now apply remove_insert_aux.
Qed.

Lemma remove_insert (p : nat) (w : node) (ref : option nat) (d : list node) :
  ~ In (nid w) (nids_f d) -> remove_f (nid w) (insert_f p w ref d) = d.
Proof.
  apply remove_insert_aux. apply Forall_forall. intros c _. apply remove_insert_node.
Qed.

(** ** The container is an element *)

Lemma ancestors_go_elem (k j : nat) (cs : list node) (up : list nat) :
  Forall (fun c => forall up, ancestors_in k c = Some up ->
                   forall i, In i up -> exists e cs, In (Elem i e cs) (preorder c)) cs ->
  (fix go (l : list node) : option (list nat) :=
     match l with
     | [] => None
     | c :: r =>
         match ancestors_in k c with
         | Some up => Some (up ++ [j])
         | None => go r
         end
     end) cs = Some up ->
  forall i, In i up -> i = j \/ exists e' cs', In (Elem i e' cs') (all_nodes cs).
Proof.
  induction 1 as [|c cs Hc _ IH]; intros H i Hi; [discriminate|].
  destruct (ancestors_in k c) as [up'|] eqn:E.
  - inversion H; subst up. apply in_app_or in Hi. destruct Hi as [Hi|[<-|[]]]; [|now left].
    right. destruct (Hc up' eq_refl i Hi) as [e' [cs' X]]. exists e', cs'.
    rewrite all_nodes_cons. apply in_or_app. now left.
  - destruct (IH H i Hi) as [->|[e' [cs' X]]]; [now left|].
    right. exists e', cs'. rewrite all_nodes_cons. apply in_or_app. now right.
Qed.

Lemma ancestors_in_elem (k : nat) (n : node) (up : list nat) :
  ancestors_in k n = Some up ->
  forall i, In i up -> exists e cs, In (Elem i e cs) (preorder n).
Proof.
  revert up. induction n as [j data|j e cs IH] using node_ind'; intros up H i Hi.
  - simpl in H. destruct (j =? k); inversion H; subst. contradiction.
  - simpl in H. destruct (j =? k); [inversion H; subst; contradiction|].
    destruct (ancestors_go_elem k j cs up IH H i Hi) as [->|[e' [cs' X]]].
    + exists e, cs. apply preorder_self.
    + exists e', cs'. rewrite preorder_elem. now right.
Qed.

Lemma ancestors_elem (k : nat) (d : list node) (i : nat) :
  In i (ancestors k d) -> exists e cs, In (Elem i e cs) (all_nodes d).
Proof.
  induction d as [|n d IH]; [contradiction|]. simpl ancestors.
  destruct (ancestors_in k n) as [up|] eqn:E; intros Hi.
  - destruct (ancestors_in_elem k n up E i Hi) as [e [cs X]]. exists e, cs.
    rewrite all_nodes_cons. apply in_or_app. now left.
  - destruct (IH Hi) as [e [cs X]]. exists e, cs.
    rewrite all_nodes_cons. apply in_or_app. now right.
Qed.

Lemma querySelector_elem (sel : selector) (d : list node) (c : nat) :
  NoDup (nids_f d) -> querySelector sel d = Some c ->
  exists e cs, lookup c d = Some (Elem c e cs) /\ In (Elem c e cs) (all_nodes d) /\
               sel e = true.
Proof.
  intros Hnd H. unfold querySelector in H.
  destruct (first_node (matches sel) d) as [x|] eqn:F; [|discriminate].
  simpl in H. inversion H; subst c. apply first_node_in in F. destruct F as [Hin Hm].
  destruct x as [i data|i e cs]; [discriminate|]. exists e, cs.
  split; [exact (lookup_unique d _ Hnd Hin)|auto].
Qed.

Lemma body_elem (d : list node) (b : nat) :
  NoDup (nids_f d) -> body d = Some b ->
  exists e cs, lookup b d = Some (Elem b e cs) /\ In (Elem b e cs) (all_nodes d) /\
               body_sel e = true.
Proof.
  intros Hnd H. apply body_spec in H.
  destruct H as [i [e [cs [hb [Hd [_ [Hf <-]]]]]]].
  apply find_some in Hf. destruct Hf as [Hf1 Hf2].
  assert (Hin : In hb (all_nodes d)).
  { apply (children_in_all_nodes d (Elem i e cs) hb); [|exact Hf1].
    now apply documentElement_in. }
  destruct hb as [j data|j e' cs']; [discriminate|]. exists e', cs'.
  split; [exact (lookup_unique d _ Hnd Hin)|auto].
Qed.

Lemma resolve_container_elem (d : list node) (c : nat) :
  NoDup (nids_f d) -> resolve_container d = Some c ->
  exists e cs, lookup c d = Some (Elem c e cs).
Proof.
  intros Hnd H. unfold resolve_container in H.
  assert (B : body d = Some c -> exists e cs, lookup c d = Some (Elem c e cs)).
  { intros Hb. destruct (body_elem d c Hnd Hb) as [e [cs [X _]]]. eauto. }
  destruct (querySelector container_sel d) as [sc|] eqn:Q.
  - inversion H; subst sc.
    destruct (querySelector_elem _ d c Hnd Q) as [e [cs [X _]]]. eauto.
  - destruct (querySelector network_sel d) as [n|]; [|now apply B].
    destruct (querySelector protect_sel d) as [p|]; [|now apply B].
    destruct (find (fun anc => contains anc p d) (ancestors n d)) as [anc|] eqn:F;
      [|now apply B].
    inversion H; subst anc. apply find_some in F. destruct F as [F _].
    destruct (ancestors_elem n d c F) as [e [cs X]]. exists e, cs.
    exact (lookup_unique d _ Hnd X).
Qed.

(** * Where the placement puts the wrapper *)

Section PlaceResults.
Variables (rt : runtime_env) (link : option jsstring) (f : nat) (w : node).
Hypothesis Hw : is_wrapper rt link f w.
Variable d : list node.
Hypothesis Hs : sound d f.
Hypothesis Hc : count_icons d = 0.

(** With the protect anchor in the container: right after the anchor. *)
Lemma place_protect (c a : nat) :
  querySelectorIn c protect_sel d = Some a ->
  (exists w', is_wrapper rt link f w' /\ placed_in d (place w c d) w') /\
  nextSibling a (place w c d) = Some (f + 3).
Proof.
  intros Q. destruct (anchor_insert rt link f w Hw d Hs c a protect_sel Q)
    as [p [Hp [Hins Hnext]]].
  unfold place, place_try. rewrite Q, Hins.
  rewrite (wrapper_nid rt link f w Hw) in *. split.
  - eexists. split; [|apply (placed_update rt link f d Hs Hc); [exact Hw|]].
    + now apply add_classes_is_wrapper.
    + exact (placed_insert rt link f d Hs _ w _ _ Hw Hins).
  - now rewrite nextSibling_update.
Qed.

(** Without it, with the network anchor in the container: after the
    direct child of the container that holds the anchor. *)
Lemma place_network (c n : nat) :
  querySelectorIn c protect_sel d = None ->
  querySelectorIn c network_sel d = Some n ->
  (exists w', is_wrapper rt link f w' /\ placed_in d (place w c d) w') /\
  exists t, findDirectChildContaining n c d = Some t /\
            parentElement t (place w c d) = Some c /\
            contains t n (place w c d) = true /\
            nextElementSibling t (place w c d) = Some (f + 3).
Proof.
  intros Qp Qn. destruct (host_insert rt link f w Hw d Hs c n network_sel Qn)
    as [t [w' [ref [Hfind [Hpar [Hw' [Hrob [Hins [Hnext [Hpar' Hcont]]]]]]]]]].
  unfold place, place_try. rewrite Qp, Qn, Hrob. split.
  - exists w'. split; [exact Hw'|].
    exact (placed_insert rt link f d Hs _ w' _ _ Hw' Hins).
  - exists t. rewrite (wrapper_nid rt link f w' Hw') in Hnext. auto.
Qed.

(** With neither: at the end of the container; [repairExisting] then runs
    on the result. *)
Lemma place_neither (c : nat) (e : element) (cs : list node) :
  querySelectorIn c protect_sel d = None ->
  querySelectorIn c network_sel d = None ->
  lookup c d = Some (Elem c e cs) ->
  place w c d = repairExisting (insert_f c w None d) /\
  placed_in d (insert_f c w None d) w /\
  exists w', is_wrapper rt link f w' /\ placed_in d (place w c d) w'.
Proof.
  intros Qp Qn Hl. pose proof (append_insert rt link f w Hw d Hs c e cs Hl) as Hins.
  assert (Hpl : placed_in d (insert_f c w None d) w)
    by exact (placed_insert rt link f d Hs _ w _ _ Hw Hins).
  assert (E : place w c d = repairExisting (insert_f c w None d)).
  { unfold place, place_try. rewrite Qp, Qn, Hins. reflexivity. }
  split; [exact E|]. split; [exact Hpl|]. rewrite E.
  exact (placed_repair rt link f d Hs Hc _ w Hw Hpl).
Qed.

Lemma place_placed (c : nat) (e : element) (cs : list node) :
  lookup c d = Some (Elem c e cs) ->
  exists w', is_wrapper rt link f w' /\ placed_in d (place w c d) w'.
Proof.
  intros Hl.
  destruct (querySelectorIn c protect_sel d) as [a|] eqn:Qp.
  - exact (proj1 (place_protect c a Qp)).
  - destruct (querySelectorIn c network_sel d) as [n|] eqn:Qn.
    + exact (proj1 (place_network c n Qp Qn)).
    + exact (proj2 (proj2 (place_neither c e cs Qp Qn Hl))).
Qed.

(** When the container is the explicit header container, or there is no
    such container, [repairExisting] leaves the appended wrapper where it
    is: the last child of the container. *)
Lemma place_append (c : nat) (e : element) (cs : list node) :
  querySelectorIn c protect_sel d = None ->
  querySelectorIn c network_sel d = None ->
  lookup c d = Some (Elem c e cs) ->
  querySelector container_sel d = None \/ querySelector container_sel d = Some c ->
  place w c d = insert_f c w None d /\
  parentElement (f + 3) (place w c d) = Some c /\
  nextSibling (f + 3) (place w c d) = None.
Proof.
  intros Qp Qn Hl Hsc.
  destruct (place_neither c e cs Qp Qn Hl) as [E [Hpl _]].
  destruct (placed_facts rt link f d Hs Hc _ w Hw Hpl) as [Hs2 [_ [Hlw [Hg _]]]].
  pose proof (wrapper_fresh rt link f w Hw d (proj2 Hs)) as Hfresh.
  pose proof (wrapper_nid rt link f w Hw) as Hnid.
  assert (Hcw : ~ In c (nids w)).
  { intros X. apply (Hfresh c X). apply lookup_in in Hl. destruct Hl as [Hl _].
    apply in_nids_f in Hl. exact Hl. }
  assert (Hl2 : lookup c (insert_f c w None d) = Some (Elem c e (cs ++ [w]))).
  { rewrite (lookup_insert c c w None d Hcw), Hl. unfold option_map.
    rewrite insert_at_elem, Nat.eqb_refl, insert_f_fresh; [reflexivity|].
    apply lookup_in in Hl. destruct Hl as [Hl _].
    pose proof (NoDup_sub d _ (proj1 Hs) Hl) as Hn.
    apply NoDup_nids_children in Hn. tauto. }
  assert (Hq : querySelector container_sel (insert_f c w None d)
               = querySelector container_sel d).
  { unfold querySelector.
    rewrite (first_node_insert (matches container_sel) c w None
               (matches_insert_at container_sel c w None)
               (wrapper_no_match rt link f w Hw container_sel (or_introl eq_refl))).
    destruct (first_node (matches container_sel) d); simpl;
      [now rewrite nid_insert_at|reflexivity]. }
  assert (R : repairExisting (insert_f c w None d) = insert_f c w None d).
  { unfold repairExisting. rewrite Hg, Hq.
    destruct Hsc as [-> | ->]; [reflexivity|].
    assert (Qp2 : querySelectorIn c protect_sel (insert_f c w None d) = None).
    { unfold querySelectorIn. rewrite Hl2. simpl children. unfold querySelector, first_node.
      rewrite all_nodes_app, find_app.
      unfold querySelectorIn in Qp. rewrite Hl in Qp. simpl children in Qp.
      unfold querySelector, first_node in Qp.
      destruct (find (matches protect_sel) (all_nodes cs)); [discriminate|].
      unfold all_nodes. simpl. rewrite app_nil_r.
      now rewrite (wrapper_no_match rt link f w Hw protect_sel (or_intror (or_introl eq_refl))). }
    rewrite Qp2. unfold repair_move, moveBefore. rewrite Hlw.
    unfold insertBefore. rewrite Hl2.
    assert (X : existsb (Nat.eqb c) (nids w) = false).
    { apply Bool.not_true_iff_false. intros X. now apply existsb_eqb_In in X. }
    rewrite X. rewrite remove_insert.
    - unfold copy_host_classes.
      exact (scrub_wrapper rt link f _ w Hw (proj1 Hs2) (proj1 (proj2 Hpl))).
    - apply Hfresh. rewrite nids_children. now left. }
  rewrite E, R. split; [reflexivity|].
  assert (Hcin : In (Elem c e (cs ++ [w])) (all_nodes (insert_f c w None d))).
  { apply lookup_in in Hl2. tauto. }
  assert (Hwin : In w (children (Elem c e (cs ++ [w])))).
  { simpl. apply in_or_app. right. now left. }
  destruct (child_facts _ _ w (proj1 Hs2) Hcin Hwin) as [Hpe [Hsib _]].
  rewrite Hnid in Hpe, Hsib. split; [exact Hpe|].
  unfold nextSibling. rewrite Hsib. simpl children.
  assert (Hnot : ~ In (f + 3) (map nid cs)).
  { intros X. rewrite <- Hnid in X. apply (Hfresh (nid w)).
    - rewrite nids_children. now left.
    - apply in_map_iff in X. destruct X as [y [Ey Hy]]. rewrite <- Ey.
      apply in_nids_f. apply lookup_in in Hl. destruct Hl as [Hl _].
      exact (children_in_all_nodes d _ y Hl Hy). }
  clear -Hnot Hnid. induction cs as [|y cs IH]; simpl.
  - unfold has_nid. now rewrite Hnid, Nat.eqb_refl.
  - unfold has_nid at 1. destruct (nid y =? f + 3) eqn:E.
    + apply Nat.eqb_eq in E. exfalso. apply Hnot. now left.
    + apply IH. intros X. apply Hnot. now right.
Qed.
End PlaceResults.

(** * createIcon on a well-formed state *)

Lemma wf_state_spec (s : state) :
  wf_state s = true <->
  sound (doc s) (fresh s) /\ count_icons (doc s) <= 1 /\ icons_ok (doc s) = true.
Proof.
  unfold wf_state, sound. rewrite !andb_true_iff, wf_doc_spec, Nat.leb_le. tauto.
Qed.

(** What [removeIcon] leaves as it was. *)
Section AfterRemoval.
Variable d : list node.
Variable f : nat.
Hypothesis Hs : sound d f.
Hypothesis Hok : icons_ok d = true.

Lemma removeIcon_keeps_querySelector (sel : selector) :
  host_sel sel -> querySelector sel (removeIcon d) = querySelector sel d.
Proof.
  intros Hsel. destruct (getElementById ICON_ID d) as [el|] eqn:G.
  - exact (removeIcon_querySelector d (proj1 Hs) Hok el G sel Hsel).
  - unfold removeIcon. now rewrite G.
Qed.

Lemma removeIcon_keeps_querySelectorIn (c : nat) (sel0 sel : selector) :
  host_sel sel0 -> host_sel sel ->
  querySelector sel0 d = Some c \/ body d = Some c ->
  querySelectorIn c sel (removeIcon d) = querySelectorIn c sel d.
Proof.
  intros Hsel0 Hsel Hc. destruct (getElementById ICON_ID d) as [el|] eqn:G.
  - destruct Hc as [Hc|Hc].
    + destruct (querySelector_elem sel0 d c (proj1 Hs) Hc) as [e [cs [_ [Hin Hm]]]].
      exact (removeIcon_querySelectorIn d (proj1 Hs) Hok el G (Elem c e cs) sel0 sel
               Hsel0 Hsel Hin Hm).
    + destruct (body_elem d c (proj1 Hs) Hc) as [e [cs [_ [Hin Hm]]]].
      exact (removeIcon_querySelectorIn d (proj1 Hs) Hok el G (Elem c e cs) body_sel sel
               host_sel_body Hsel Hin Hm).
  - unfold removeIcon. now rewrite G.
Qed.

Lemma removeIcon_keeps_body (b : nat) :
  body d = Some b -> body (removeIcon d) = Some b.
Proof.
  intros Hb. destruct (getElementById ICON_ID d) as [el|] eqn:G.
  - exact (removeIcon_body d (proj1 Hs) Hok el G b Hb).
  - unfold removeIcon. now rewrite G.
Qed.
End AfterRemoval.

Lemma createIcon_run (link : option jsstring) (now : Z) (s : state) (c : nat) :
  debounced now s = false ->
  resolve_container (removeIcon (doc s)) = Some c ->
  createIcon link now s
  = Returned (with_doc (place (build_icon (runtime s) link (fresh s)) c
                              (removeIcon (doc s)))
                       (cleared now s)).
Proof. intros Hg Hr. unfold createIcon. now rewrite Hg, Hr. Qed.

(** * C3: next to the protect anchor *)

(** C3.  The document has the header container and, inside it, the protect
    anchor [a]; identities are distinct and the identifier is reserved for
    icons ([wf_state]).  A [createIcon] call that passes the debounce then
    returns, and in the document it leaves the one element with [ICON_ID]
    is the wrapper it built, and that wrapper is the next sibling of [a]:
    the insertion beside the anchor never fails, so the icon is never put
    after the host instead. *)
Theorem createIcon_protect (s : state) (link : option jsstring) (now : Z) (sc a : nat) :
  wf_state s = true ->
  debounced now s = false ->
  querySelector container_sel (doc s) = Some sc ->
  querySelectorIn sc protect_sel (doc s) = Some a ->
  exists s',
    createIcon link now s = Returned s' /\
    count_icons (doc s') = 1 /\
    getElementById ICON_ID (doc s') = Some (fresh s + 3) /\
    nextSibling a (doc s') = Some (fresh s + 3).
Proof.
  intros Hwf Hg Hsc Ha. apply wf_state_spec in Hwf. destruct Hwf as [Hs [Hc Hok]].
  destruct (removeIcon_sound (doc s) (fresh s) Hs Hc) as [Hs1 Hc1].
  assert (Hsc1 : querySelector container_sel (removeIcon (doc s)) = Some sc).
  { now rewrite (removeIcon_keeps_querySelector _ _ Hs Hok _ host_sel_container). }
  assert (Ha1 : querySelectorIn sc protect_sel (removeIcon (doc s)) = Some a).
  { rewrite (removeIcon_keeps_querySelectorIn _ _ Hs Hok sc container_sel protect_sel
               host_sel_container (host_sel_applink _) (or_introl Hsc)). exact Ha. }
  assert (Hr : resolve_container (removeIcon (doc s)) = Some sc).
  { unfold resolve_container. now rewrite Hsc1. }
  eexists. split; [exact (createIcon_run link now s sc Hg Hr)|]. simpl.
  destruct (place_protect (runtime s) link (fresh s) _ (build_icon_is_wrapper _ _ _)
              _ Hs1 Hc1 sc a Ha1) as [[w' [Hw' Hpl]] Hnext].
  destruct (placed_facts _ link (fresh s) _ Hs1 Hc1 _ w' Hw' Hpl) as [_ [H1 [_ [H2 _]]]].
  auto.
Qed.

(** * C4: the fallbacks *)

Lemma querySelector_none_in (sel : selector) (d : list node) (c : nat) :
  querySelector sel d = None -> querySelectorIn c sel d = None.
Proof.
  intros H. unfold querySelectorIn, querySelector in *.
  destruct (lookup c d) as [nc|] eqn:Hc; [|reflexivity].
  destruct (first_node (matches sel) (children nc)) as [x|] eqn:F; [|reflexivity].
  exfalso. apply first_node_in in F. destruct F as [Hx Hm].
  apply lookup_in in Hc. destruct Hc as [Hc _].
  destruct (first_node (matches sel) d) as [y|] eqn:G; [discriminate|].
  pose proof (proj1 (find_none_iff _ _) G x) as X. rewrite Hm in X.
  assert (false = true); [|discriminate]. symmetry. apply X.
  apply (all_nodes_trans d nc x Hc). rewrite preorder_children. now right.
Qed.

(** C4 (amended).  The document has no protect anchor, and [c] is its
    container: the header container, else the body.  A [createIcon] call
    that passes the debounce returns with exactly one icon, the wrapper it
    built.  When the network anchor [n] is found inside [c], the wrapper is
    the next element sibling of the child of [c] that holds [n]; when no
    network anchor is found inside [c], the wrapper is the last child of
    [c]. *)
Theorem createIcon_fallbacks (s : state) (link : option jsstring) (now : Z) (c : nat) :
  wf_state s = true ->
  debounced now s = false ->
  querySelector protect_sel (doc s) = None ->
  plain_container (doc s) c ->
  exists s',
    createIcon link now s = Returned s' /\
    count_icons (doc s') = 1 /\
    getElementById ICON_ID (doc s') = Some (fresh s + 3) /\
    (forall n, querySelectorIn c network_sel (doc s) = Some n ->
       exists host,
         parentElement host (doc s') = Some c /\
         contains host n (doc s') = true /\
         nextElementSibling host (doc s') = Some (fresh s + 3)) /\
    (querySelectorIn c network_sel (doc s) = None ->
       parentElement (fresh s + 3) (doc s') = Some c /\
       nextSibling (fresh s + 3) (doc s') = None).
Proof.
  intros Hwf Hg Hp Hc. apply wf_state_spec in Hwf. destruct Hwf as [Hs [Hcount Hok]].
  destruct (removeIcon_sound (doc s) (fresh s) Hs Hcount) as [Hs1 Hc1].
  set (d1 := removeIcon (doc s)) in *.
  assert (Hp1 : querySelector protect_sel d1 = None).
  { unfold d1.
    now rewrite (removeIcon_keeps_querySelector _ _ Hs Hok protect_sel (host_sel_applink _)). }
  assert (Hq1 : querySelector container_sel d1 = querySelector container_sel (doc s)).
  { exact (removeIcon_keeps_querySelector _ _ Hs Hok _ host_sel_container). }
  assert (Hin : querySelector container_sel (doc s) = Some c \/ body (doc s) = Some c).
  { destruct Hc as [Hc|[_ Hc]]; auto. }
  assert (Hn1 : querySelectorIn c network_sel d1 = querySelectorIn c network_sel (doc s)).
  { exact (removeIcon_keeps_querySelectorIn _ _ Hs Hok c container_sel network_sel
             host_sel_container (host_sel_applink _) Hin). }
  assert (Hr : resolve_container d1 = Some c).
  { unfold resolve_container. rewrite Hq1, Hp1.
    destruct Hc as [-> |[-> Hb]]; [reflexivity|].
    pose proof (removeIcon_keeps_body _ _ Hs Hok c Hb) as Hb1. fold d1 in Hb1.
    now destruct (querySelector network_sel d1). }
  destruct (resolve_container_elem d1 c (proj1 Hs1) Hr) as [e [cs Hl]].
  pose proof (querySelector_none_in protect_sel d1 c Hp1) as Hpin.
  eexists. split; [exact (createIcon_run link now s c Hg Hr)|]. simpl. fold d1.
  pose proof (build_icon_is_wrapper (runtime s) link (fresh s)) as Hw.
  destruct (place_placed _ link (fresh s) _ Hw d1 Hs1 Hc1 c e cs Hl) as [w' [Hw' Hpl]].
  destruct (placed_facts _ link (fresh s) _ Hs1 Hc1 _ w' Hw' Hpl) as [_ [H1 [_ [H2 _]]]].
  split; [exact H1|]. split; [exact H2|]. split.
  - intros n Hn. rewrite <- Hn1 in Hn.
    destruct (place_network _ link (fresh s) _ Hw d1 Hs1 c n Hpin Hn)
      as [_ [t [_ [Ht1 [Ht2 Ht3]]]]].
    exists t. auto.
  - intros Hn. rewrite <- Hn1 in Hn.
    assert (Hsc : querySelector container_sel d1 = None \/
                  querySelector container_sel d1 = Some c).
    { rewrite Hq1. destruct Hc as [Hc|[Hc _]]; auto. }
    destruct (place_append _ link (fresh s) _ Hw d1 Hs1 Hc1 c e cs Hpin Hn Hl Hsc)
      as [_ [Ha Hb]].
    auto.
Qed.

(** * A call that places *)

Lemma resolve_with_body (d : list node) (b : nat) :
  body d = Some b -> resolve_container d <> None.
Proof.
  intros Hb. unfold resolve_container. rewrite Hb.
  destruct (querySelector container_sel d); [discriminate|].
  destruct (querySelector network_sel d); [|discriminate].
  destruct (querySelector protect_sel d); [|discriminate].
  destruct (find _ _); discriminate.
Qed.

Lemma resolve_with_container (d : list node) (sc : nat) :
  querySelector container_sel d = Some sc -> resolve_container d = Some sc.
Proof. intros H. unfold resolve_container. now rewrite H. Qed.

(** The container is found once the old icon is out, when the document has
    a body or the explicit header container. *)
Lemma container_after_removal (s : state) :
  wf_state s = true ->
  body (doc s) <> None \/ querySelector container_sel (doc s) <> None ->
  resolve_container (removeIcon (doc s)) <> None.
Proof.
  intros Hwf H. apply wf_state_spec in Hwf. destruct Hwf as [Hs [_ Hok]].
  destruct (querySelector container_sel (doc s)) as [sc|] eqn:Q.
  - rewrite (resolve_with_container _ sc); [discriminate|].
    now rewrite (removeIcon_keeps_querySelector _ _ Hs Hok _ host_sel_container).
  - destruct H as [H|H]; [|contradiction].
    destruct (body (doc s)) as [b|] eqn:B; [|contradiction].
    apply (resolve_with_body _ b). exact (removeIcon_keeps_body _ _ Hs Hok b B).
Qed.

Lemma createIcon_places (s : state) (link : option jsstring) (now : Z) :
  wf_state s = true ->
  debounced now s = false ->
  resolve_container (removeIcon (doc s)) <> None ->
  exists s' w,
    createIcon link now s = Returned s' /\
    wf_state s' = true /\
    count_icons (doc s') = 1 /\
    getElementById ICON_ID (doc s') = Some (fresh s + 3) /\
    lookup (fresh s + 3) (doc s') = Some w /\
    is_wrapper (runtime s) link (fresh s) w /\
    (forall b, body (doc s) = Some b -> body (doc s') = Some b) /\
    last s' = Some now /\
    currentDriveLink s' = currentDriveLink s /\
    storage s' = storage s /\ runtime s' = runtime s /\ timers s' = timers s.
Proof.
  intros Hwf Hg Hr. pose proof Hwf as Hwf'.
  apply wf_state_spec in Hwf. destruct Hwf as [Hs [Hcount Hok]].
  destruct (removeIcon_sound (doc s) (fresh s) Hs Hcount) as [Hs1 Hc1].
  destruct (resolve_container (removeIcon (doc s))) as [c|] eqn:R; [|contradiction].
  destruct (resolve_container_elem _ c (proj1 Hs1) R) as [e [cs Hl]].
  pose proof (build_icon_is_wrapper (runtime s) link (fresh s)) as Hw.
  destruct (place_placed _ link (fresh s) _ Hw _ Hs1 Hc1 c e cs Hl) as [w' [Hw' Hpl]].
  destruct (placed_facts _ link (fresh s) _ Hs1 Hc1 _ w' Hw' Hpl)
    as [H0 [H1 [H2 [H3 H4]]]].
  eexists _, w'. split; [exact (createIcon_run link now s c Hg R)|]. simpl.
  split.
  { apply wf_state_spec. simpl. split; [exact H0|]. split; [lia|exact H4]. }
  split; [exact H1|]. split; [exact H3|]. split; [exact H2|]. split; [exact Hw'|].
  split; [|auto 10].
  intros b Hb. apply (proj2 (proj2 Hpl)).
  exact (removeIcon_keeps_body _ _ Hs Hok b Hb).
Qed.

(** * C2: two placements, one icon *)

(** C2 (amended).  The document is well formed and has a body, and the
    clock does not run backwards.  Two [createIcon] calls, the second at
    least 500 ms after the first, both return, and the document then has
    exactly one element with [ICON_ID]. *)
Theorem createIcon_twice (s : state) (link1 link2 : option jsstring) (t1 t2 : Z) (b : nat) :
  wf_state s = true ->
  body (doc s) = Some b ->
  (last_or_zero s <= t1)%Z ->
  (t1 + 500 <= t2)%Z ->
  exists s1 s2,
    createIcon link1 t1 s = Returned s1 /\
    createIcon link2 t2 s1 = Returned s2 /\
    count_icons (doc s2) = 1.
Proof.
  intros Hwf Hb Hlast Ht.
  assert (Second : forall s1, wf_state s1 = true -> body (doc s1) = Some b ->
            debounced t2 s1 = false ->
            exists s2, createIcon link2 t2 s1 = Returned s2 /\ count_icons (doc s2) = 1).
  { intros s1 Hwf1 Hb1 Hg1.
    destruct (createIcon_places s1 link2 t2 Hwf1 Hg1) as [s2 [w [H1 [_ [H2 _]]]]].
    - apply container_after_removal; [exact Hwf1|]. left. rewrite Hb1. discriminate.
    - now exists s2. }
  destruct (debounced t1 s) eqn:Hg.
  - exists s. unfold createIcon at 1. rewrite Hg.
    destruct (Second s Hwf Hb) as [s2 H2].
    + unfold debounced, last_or_zero in *. destruct (last s) as [l|]; [|reflexivity].
      apply andb_true_iff in Hg. destruct Hg as [Hl Hg]. rewrite Hl. simpl.
      apply Z.ltb_ge. lia.
    + exists s2. auto.
  - destruct (createIcon_places s link1 t1 Hwf Hg) as [s1 [w [H1 [Hwf1 [_ [_ [_ [_ [Hb1 [Hl1 _]]]]]]]]]].
    + apply container_after_removal; [exact Hwf|]. left. rewrite Hb. discriminate.
    + exists s1. destruct (Second s1 Hwf1 (Hb1 b Hb)) as [s2 H2].
      * unfold debounced. rewrite Hl1. apply andb_false_iff. right.
        apply Z.ltb_ge. lia.
      * exists s2. auto.
Qed.

(** * C5: the exception that escapes *)

(** C5.  [createIcon] does raise: exactly when the call is not debounced
    and no container is found once the old icon is out.  [container] is
    then [null], and [container.querySelector], which is outside the [try],
    raises a [TypeError] that nothing catches. *)
Theorem createIcon_throws_iff (s : state) (link : option jsstring) (now : Z) :
  (exists s', createIcon link now s = Threw s') <->
  debounced now s = false /\ resolve_container (removeIcon (doc s)) = None.
Proof.
  unfold createIcon. destruct (debounced now s).
  - split; [intros [s' H]; discriminate|intros [H _]; discriminate].
  - destruct (resolve_container (removeIcon (doc s))).
    + split; [intros [s' H]; discriminate|intros [_ H]; discriminate].
    + split; [auto|eauto].
Qed.

(** * C10: the debounce *)

Lemma createIcon_sets_last (s : state) (link : option jsstring) (now : Z) :
  debounced now s = false ->
  last (state_of (createIcon link now s)) = Some now.
Proof.
  intros Hg. unfold createIcon. rewrite Hg.
  now destruct (resolve_container (removeIcon (doc s))).
Qed.

Lemma createIcon_debounced (s : state) (link : option jsstring) (now l : Z) :
  last s = Some l -> l <> 0%Z -> (now - l < 500)%Z ->
  createIcon link now s = Returned s.
Proof.
  intros Hl Hz Ht. unfold createIcon, debounced. rewrite Hl.
  assert (E1 : (l =? 0)%Z = false) by now apply Z.eqb_neq.
  assert (E2 : (now - l <? 500)%Z = true) by now apply Z.ltb_lt.
  now rewrite E1, E2.
Qed.

(** C10 (amended).  A [createIcon] call at [t1] passes the debounce, and
    [t1] is not 0.  Whatever that call did, a call less than 500 ms after
    it, with any link, returns at once and leaves the state as it is: the
    document, the time stamp and all the rest. *)
Theorem createIcon_within_window (s : state) (link1 link2 : option jsstring) (t1 t2 : Z) :
  debounced t1 s = false ->
  t1 <> 0%Z ->
  (t2 - t1 < 500)%Z ->
  createIcon link2 t2 (state_of (createIcon link1 t1 s))
  = Returned (state_of (createIcon link1 t1 s)).
Proof.
  intros Hg Hz Ht.
  apply (createIcon_debounced _ link2 t2 t1); [|exact Hz|exact Ht].
  now apply createIcon_sets_last.
Qed.

(** * C8: the click *)

(** C8 (amended).  [createIcon link] passes the debounce and finds a
    container.  It returns, and a click on the icon it placed, whatever
    [_currentDriveLink] is by then ([cur]), suppresses the default action
    and opens exactly one window, with target [_blank]: on [link] when that
    is a non-empty string, and only otherwise on [cur], or on the default
    link when [cur] is empty. *)
Theorem click_placed (s : state) (link : option jsstring) (now : Z) (cur : jsstring)
  (c : nat) :
  wf_state s = true ->
  debounced now s = false ->
  resolve_container (removeIcon (doc s)) = Some c ->
  exists s',
    createIcon link now s = Returned s' /\
    getElementById ICON_ID (doc s') = Some (fresh s + 3) /\
    click (fresh s + 3) (with_currentDriveLink cur s')
    = [PreventDefault;
       WindowOpen
         (JsString.or_else (match link with Some l => l | None => [] end)
            (JsString.or_else cur DEFAULT_LINK))
         "_blank"].
Proof.
  intros Hwf Hg Hr.
  assert (Hr' : resolve_container (removeIcon (doc s)) <> None) by (rewrite Hr; discriminate).
  destruct (createIcon_places s link now Hwf Hg Hr')
    as [s' [w [H1 [_ [_ [H2 [H3 [Hw _]]]]]]]].
  exists s'. split; [exact H1|]. split; [exact H2|].
  unfold click. simpl doc. rewrite H3.
  destruct (wrapper_listeners _ _ _ _ Hw) as [e [cs [-> Hl]]].
  rewrite Hl. reflexivity.
Qed.

(** * C7: the settings *)

Lemma createIcon_currentDriveLink (s : state) (link : option jsstring) (now : Z) :
  currentDriveLink (state_of (createIcon link now s)) = currentDriveLink s.
Proof.
  unfold createIcon. destruct (debounced now s); [reflexivity|].
  now destruct (resolve_container (removeIcon (doc s))).
Qed.

Lemma apply_settings_currentDriveLink (s : state) l q now now' :
  currentDriveLink (state_of (apply_settings l q now now' s)) = currentDriveLink s.
Proof.
  unfold apply_settings.
  pose proof (createIcon_currentDriveLink s (Some (JsString.or_else l DEFAULT_LINK)) now) as H1.
  destruct (createIcon (Some (JsString.or_else l DEFAULT_LINK)) now s) as [s1|s1];
    simpl in H1.
  - simpl. now destruct (positive q).
  - pose proof (createIcon_currentDriveLink s1 (Some DEFAULT_LINK) now') as H2.
    destruct (createIcon (Some DEFAULT_LINK) now' s1) as [s2|s2]; simpl in *.
    + destruct (positive q); simpl; congruence.
    + congruence.
Qed.

Lemma loadAndCreate_link (s : state) (items : settings) (now now' : Z) :
  storage s = StorageLive items ->
  currentDriveLink (state_of (loadAndCreate now now' s))
  = JsString.or_else (stored_link items) DEFAULT_LINK.
Proof.
  intros H. unfold loadAndCreate. rewrite H.
  now rewrite apply_settings_currentDriveLink.
Qed.

Lemma loadAndCreate_default (s : state) (now now' : Z) :
  storage s = StorageAbsent \/ storage s = StorageThrows ->
  currentDriveLink (state_of (loadAndCreate now now' s)) = DEFAULT_LINK.
Proof.
  intros H. unfold loadAndCreate.
  destruct H as [-> | ->]; now rewrite apply_settings_currentDriveLink.
Qed.

(** C7 (amended).  What a save stores is the text of the input with the
    white space at its ends trimmed off.  The options page then loads
    that trimmed text, and the content script takes it as the link when it
    is not empty.  The link is the default, [https://example.com], when the
    trimmed text is empty, when the key was never written, and when there
    is no store. *)
Theorem settings_round_trip (s : state) (input : jsstring) (delay q : option Q)
  (now now' : Z) :
  options_load (save input delay) = JsString.trim input /\
  currentDriveLink
    (state_of (loadAndCreate now now' (with_storage (StorageLive (save input delay)) s)))
  = JsString.or_else (JsString.trim input) DEFAULT_LINK /\
  currentDriveLink
    (state_of (loadAndCreate now now' (with_storage (StorageLive (mkSettings None q)) s)))
  = DEFAULT_LINK /\
  currentDriveLink (state_of (loadAndCreate now now' (with_storage StorageAbsent s)))
  = DEFAULT_LINK /\
  DEFAULT_LINK = JsString.lit "https://example.com".
Proof.
  split.
  { unfold options_load, save, stored_link, JsString.or_else. simpl.
    now destruct (JsString.trim input). }
  split; [now rewrite (loadAndCreate_link _ (save input delay))|].
  split; [now rewrite (loadAndCreate_link _ (mkSettings None q))|].
  split; [|reflexivity].
  apply loadAndCreate_default. now left.
Qed.

(** * Siblings across a removal *)

Lemma after_remove_f (a r : nat) (l : list node) :
  a <> r -> after a (remove_f r l) = remove_f r (after a l).
Proof.
  intros Har. induction l as [|c l IH]; [reflexivity|].
  rewrite remove_f_cons. simpl after at 2.
  destruct (has_nid r c) eqn:Er.
  - destruct (has_nid a c) eqn:Ea; [|exact IH].
    unfold has_nid in *. apply Nat.eqb_eq in Er, Ea. congruence.
  - simpl. rewrite has_nid_remove. destruct (has_nid a c); [reflexivity|exact IH].
Qed.

Lemma hd_remove_f (r : nat) (y : node) (rest : list node) :
  nid y <> r ->
  option_map nid (hd_error (remove_f r (y :: rest))) = Some (nid y).
Proof.
  intros H. rewrite remove_f_cons. unfold has_nid.
  destruct (nid y =? r) eqn:E; [apply Nat.eqb_eq in E; contradiction|].
  simpl. now rewrite nid_remove.
Qed.

Lemma hd_remove_f_fresh (r : nat) (l : list node) :
  ~ In r (map nid l) ->
  option_map nid (hd_error (remove_f r l)) = option_map nid (hd_error l).
Proof.
  destruct l as [|y l]; [reflexivity|]. intros H. simpl hd_error at 2. simpl option_map at 2.
  apply hd_remove_f. intros E. apply H. now left.
Qed.

(** The next sibling of [a] once [i] has left the child list, in terms of
    the list before: the next sibling of [a], or of [i] when [i] was it. *)
Lemma after_remove_next (a i : nat) (cs : list node) :
  NoDup (map nid cs) -> a <> i ->
  option_map nid (hd_error (after a (remove_f i cs)))
  = match option_map nid (hd_error (after a cs)) with
    | Some r => if r =? i then option_map nid (hd_error (after i cs)) else Some r
    | None => None
    end.
Proof.
  intros Hnd Hai. rewrite (after_remove_f a i cs Hai).
  induction cs as [|c rest IH]; [reflexivity|].
  assert (Hnd' : NoDup (map nid rest)) by now inversion Hnd.
  simpl after. destruct (has_nid a c) eqn:Ea.
  - assert (Eic : has_nid i c = false).
    { unfold has_nid in *. apply Nat.eqb_eq in Ea. apply Nat.eqb_neq. congruence. }
    rewrite Eic. destruct rest as [|r1 rest']; [reflexivity|].
    change (option_map nid (hd_error (r1 :: rest'))) with (Some (nid r1)).
    cbv beta iota. destruct (nid r1 =? i) eqn:E1.
    + assert (E2 : has_nid i r1 = true) by exact E1.
      rewrite remove_f_cons, E2. simpl after. rewrite E2.
      apply hd_remove_f_fresh.
      apply Nat.eqb_eq in E1. subst i. now inversion Hnd'.
    + apply hd_remove_f. now apply Nat.eqb_neq.
  - rewrite (IH Hnd').
    destruct (option_map nid (hd_error (after a rest))) as [r|] eqn:Hr; [|reflexivity].
    destruct (r =? i) eqn:Eri; [|reflexivity].
    assert (Eic : has_nid i c = false).
    { apply (has_nid_false_of_NoDup c rest i Hnd). apply Nat.eqb_eq in Eri. subst r.
      destruct (hd_error (after a rest)) as [y|] eqn:Hy; [|discriminate].
      simpl in Hr. inversion Hr. apply in_map. apply (after_incl a).
      destruct (after a rest); [discriminate|]. inversion Hy. now left. }
    now rewrite Eic.
Qed.

Lemma siblings_remove (a r : nat) (d : list node) :
  a <> r -> clear_of (has_child a) r d ->
  siblings a (remove_f r d) = remove_f r (siblings a d).
Proof.
  intros Har Hcl. unfold siblings.
  assert (E : existsb (has_nid a) (remove_f r d) = existsb (has_nid a) d).
  { apply existsb_ext_in_nid. rewrite in_map_nid_remove_f. tauto. }
  rewrite E. destruct (existsb (has_nid a) d); [reflexivity|].
  rewrite (first_node_remove (has_child a) r (fun n => has_child_remove a r n Har) d Hcl).
  destruct (first_node (has_child a) d) as [[j data|j e cs]|]; reflexivity.
Qed.

(** No node below [rn] has [a] as a child when [a] is not below [rn]. *)
Lemma no_child_inside (a : nat) (rn : node) :
  ~ In a (nids rn) -> forall y, In y (preorder rn) -> has_child a y = false.
Proof.
  intros Ha y Hy. apply Bool.not_true_iff_false. intros X.
  unfold has_child in X. apply existsb_has_nid in X.
  apply in_map_iff in X. destruct X as [z [Ez Hz]]. apply Ha. rewrite <- Ez.
  apply in_nids. apply (preorder_trans rn y z Hy). rewrite preorder_children.
  right. now apply top_in_all_nodes.
Qed.

Lemma clear_of_node (P : node -> bool) (r : nat) (rn : node) (d : list node) :
  NoDup (nids_f d) -> lookup r d = Some rn ->
  (forall y, In y (preorder rn) -> P y = false) -> clear_of P r d.
Proof.
  intros Hnd Hl HP m x Hm Hmr Hx. apply lookup_in in Hl. destruct Hl as [Hrn Hr].
  assert (m = rn) by (apply (node_inj d); auto; congruence). subst m. now apply HP.
Qed.

Lemma nextSibling_remove (a r i : nat) (rn : node) (d : list node) :
  NoDup (nids_f d) -> lookup r d = Some rn -> ~ In a (nids rn) -> r <> i ->
  nextSibling a d = Some i -> nextSibling a (remove_f r d) = Some i.
Proof.
  intros Hnd Hl Ha Hri Hn.
  assert (Har : a <> r).
  { intros E. apply Ha. apply lookup_in in Hl. destruct Hl as [_ Hr].
    rewrite E, <- Hr, nids_children. now left. }
  unfold nextSibling in *.
  rewrite (siblings_remove a r d Har
             (clear_of_node _ r rn d Hnd Hl (no_child_inside a rn Ha))).
  rewrite (after_remove_f a r _ Har).
  destruct (after a (siblings a d)) as [|y rest]; [discriminate|].
  simpl in Hn. inversion Hn. rewrite hd_remove_f; [reflexivity|congruence].
Qed.

Lemma getElementById_of (d : list node) (n : node) :
  count_icons d <= 1 -> In n (all_nodes d) -> is_icon n = true ->
  getElementById ICON_ID d = Some (nid n).
Proof.
  intros Hc Hin Hi. rewrite getElementById_icon.
  destruct (first_node is_icon d) as [y|] eqn:F.
  - apply first_node_in in F. destruct F as [Hy Hyi].
    now rewrite (icon_unique d y n Hc Hy Hin Hyi Hi).
  - exfalso. pose proof (proj1 (find_none_iff _ _) F n Hin) as X.
    rewrite Hi in X. discriminate.
Qed.

(** ** Being inside an element *)

Lemma inside_contains (d : list node) (c a i : nat) :
  NoDup (nids_f d) -> inside d c a -> nextSibling a d = Some i ->
  contains c i d = true.
Proof.
  intros Hnd [nc [Hc Ha]] Hn. unfold contains. rewrite Hc.
  apply existsb_eqb_In. apply lookup_in in Hc. destruct Hc as [Hcin _].
  unfold nids_f in Ha. apply in_map_iff in Ha. destruct Ha as [x [Ex Hx]].
  assert (Hm : exists m, In m (preorder nc) /\ In x (children m)).
  { destruct (root_or_child _ _ Hx) as [H|[m [Hm H]]].
    - exists nc. split; [apply preorder_self|exact H].
    - exists m. split; [|exact H]. rewrite preorder_children. now right. }
  destruct Hm as [m [Hm Hxm]].
  assert (Hmd : In m (all_nodes d)) by exact (all_nodes_trans d nc m Hcin Hm).
  destruct (child_facts d m x Hnd Hmd Hxm) as [_ [Hsib _]].
  unfold nextSibling in Hn. rewrite <- Ex, Hsib in Hn.
  destruct (hd_error (after (nid x) (children m))) as [y|] eqn:Hy; [|discriminate].
  simpl in Hn. inversion Hn; subst i.
  assert (Hyin : In y (children m)).
  { apply (after_incl (nid x)). destruct (after (nid x) (children m)); [discriminate|].
    inversion Hy. now left. }
  apply in_nids. apply (preorder_trans nc m y Hm). rewrite preorder_children.
  right. now apply top_in_all_nodes.
Qed.

Lemma lookup_some_in (k : nat) (l : list node) :
  lookup k l <> None -> In k (nids_f l).
Proof.
  intros H. destruct (lookup k l) as [x|] eqn:E; [|contradiction].
  apply lookup_in in E. destruct E as [Hx <-]. now apply in_nids_f.
Qed.

Lemma in_lookup_some (k : nat) (l : list node) :
  In k (nids_f l) -> lookup k l <> None.
Proof. intros H E. apply lookup_none in E. contradiction. Qed.

Lemma inside_remove (d : list node) (c a r : nat) (rn : node) :
  NoDup (nids_f d) -> lookup r d = Some rn ->
  ~ In c (nids rn) -> ~ In a (nids rn) ->
  inside d c a -> inside (remove_f r d) c a.
Proof.
  intros Hnd Hr Hc Ha [nc [Hl Hin]].
  exists (remove r nc). split.
  - now rewrite (lookup_remove r c rn d Hnd Hr Hc), Hl.
  - destruct nc as [j data|j e cs]; [contradiction|].
    rewrite remove_elem. simpl children in *. apply lookup_some_in.
    unfold lookup. rewrite (first_node_remove (has_nid a) r (has_nid_remove r a)).
    + apply in_lookup_some in Hin. unfold lookup in Hin.
      destruct (first_node (has_nid a) cs); [discriminate|contradiction].
    + intros m x Hm Hmr Hx. apply lookup_in in Hl. destruct Hl as [Hcin _].
      assert (Hmd : In m (all_nodes d)).
      { apply (all_nodes_trans d _ m Hcin). rewrite preorder_elem. now right. }
      pose proof (lookup_in _ _ _ Hr) as [Hrn Hrr].
      assert (m = rn) by (apply (node_inj d); auto; congruence). subst m.
      unfold has_nid. apply Nat.eqb_neq. intros E. apply Ha. rewrite <- E.
      now apply in_nids.
Qed.

Lemma all_nodes_insert_children (w : node) (ref : option nat) (l : list node) (x : node) :
  In x (all_nodes l) -> In x (all_nodes (insert_children w ref l)).
Proof.
  destruct ref as [r|]; simpl.
  - induction l as [|c l IH]; [contradiction|]. simpl insert_before.
    destruct (has_nid r c).
    + intros H. rewrite all_nodes_cons. apply in_or_app. now right.
    + rewrite !all_nodes_cons. intros H. apply in_app_or in H. apply in_or_app.
      destruct H as [H|H]; [now left|right; now apply IH].
  - intros H. rewrite all_nodes_app. apply in_or_app. now left.
Qed.

Lemma inside_insert (d : list node) (c a p : nat) (w : node) (ref : option nat) :
  ~ In c (nids w) -> ~ In a (nids w) ->
  inside d c a -> inside (insert_f p w ref d) c a.
Proof.
  intros Hc Ha [nc [Hl Hin]].
  exists (insert_at p w ref nc). split.
  - now rewrite (lookup_insert p c w ref d Hc), Hl.
  - destruct nc as [j data|j e cs]; [contradiction|].
    rewrite insert_at_elem. simpl children in *.
    assert (G : In a (nids_f (insert_f p w ref cs))).
    { apply lookup_some_in. rewrite (lookup_insert p a w ref cs Ha).
      apply in_lookup_some in Hin. destruct (lookup a cs); [discriminate|contradiction]. }
    destruct (j =? p); [|exact G].
    unfold nids_f in *. apply in_map_iff in G. destruct G as [x [Ex Hx]].
    apply in_map_iff. exists x. split; [exact Ex|].
    now apply all_nodes_insert_children.
Qed.

Lemma inside_update (d : list node) (c a k : nat) g :
  inside d c a -> inside (update_f k g d) c a.
Proof.
  intros [nc [Hl Hin]]. exists (update k g nc). split.
  - now rewrite lookup_update, Hl.
  - destruct nc as [j data|j e cs]; [contradiction|].
    rewrite update_elem. simpl children in *. now rewrite nids_f_update.
Qed.

(** * C6: repairExisting *)

Lemma in_remove_f (r : nat) (x : node) (l : list node) :
  In x l -> nid x <> r -> In (remove r x) (remove_f r l).
Proof.
  intros Hx Hr. unfold remove_f. apply filter_In. split.
  - now apply in_map.
  - rewrite has_nid_remove. unfold has_nid. apply negb_true_iff. now apply Nat.eqb_neq.
Qed.

Lemma nids_update (k : nat) g (n : node) : nids (update k g n) = nids n.
Proof.
  pose proof (nids_f_update k g [n]) as H. unfold update_f in H. simpl in H.
  unfold nids_f, all_nodes in H. simpl in H. now rewrite !app_nil_r in H.
Qed.

Lemma is_icon_update (k : nat) cls (n : node) :
  is_icon (update k (add_classes cls) n) = is_icon n.
Proof. apply matches_update. intros e. reflexivity. Qed.

Lemma is_icon_remove (r : nat) (n : node) : is_icon (remove r n) = is_icon n.
Proof. apply matches_remove. Qed.

Section Repair.
Variables (d : list node) (f : nat).
Hypothesis Hs : sound d f.
Hypothesis Hcount : count_icons d <= 1.
Hypothesis Hok : icons_ok d = true.
Variables i sc a : nat.
Hypothesis Hi : getElementById ICON_ID d = Some i.
Hypothesis Hsc : querySelector container_sel d = Some sc.
Hypothesis Ha : querySelectorIn sc protect_sel d = Some a.

(** The move: the icon goes right after the anchor. *)
Lemma repair_move_adjacent :
  exists d1 wn,
    repair_move i sc (Some a) d = Ok d1 /\
    lookup i d = Some wn /\ is_icon wn = true /\
    ~ In a (nids wn) /\ ~ In sc (nids wn) /\
    sound d1 f /\ count_icons d1 <= 1 /\
    lookup i d1 = Some wn /\
    inside d1 sc a /\
    nextSibling a d1 = Some i.
Proof.
  pose proof Hs as [Hnd Hbd].
  destruct (the_icon d i Hnd Hi) as [wn [Hlw [Hwin [Hwi Hwn]]]].
  destruct (querySelectorIn_node sc a protect_sel d Hnd Ha)
    as [nsc [x [Hlsc [Hscin [_ [Hx [Hxd [Hxa [Hxm Hxl]]]]]]]]].
  destruct (descendant_parent d nsc x Hscin Hx) as [m [Hmd Hxc]].
  destruct (child_facts d m x Hnd Hmd Hxc) as [Hpe [Hsib _]].
  rewrite Hxa in Hpe, Hsib.
  assert (Haw : ~ In a (nids wn)).
  { rewrite <- Hxa.
    exact (host_outside_icon d Hnd Hok wn x protect_sel (host_sel_applink _) Hwin Hwi Hxd Hxm). }
  assert (Hscw : ~ In sc (nids wn)).
  { destruct (querySelector_elem _ d sc Hnd Hsc) as [e0 [cs0 [_ [Hin0 Hm0]]]].
    exact (host_outside_icon d Hnd Hok wn (Elem sc e0 cs0) container_sel
             host_sel_container Hwin Hwi Hin0 Hm0). }
  assert (Hmw : ~ In (nid m) (nids wn)).
  { intros X. unfold nids in X. apply in_map_iff in X. destruct X as [y [Ey Hy]].
    assert (y = m).
    { apply (node_inj d); auto. exact (all_nodes_trans d wn y Hwin Hy). }
    subst y. apply Haw. rewrite <- Hxa. apply in_nids.
    apply (preorder_trans wn m x Hy). rewrite preorder_children. right.
    now apply top_in_all_nodes. }
  assert (Hai : a <> i).
  { intros E. apply Haw. rewrite E, <- Hwn, nids_children. now left. }
  destruct (elem_of_children m x Hxc) as [p [e [cs Em]]]. subst m.
  simpl in Hpe, Hsib, Hxc, Hmw.
  pose proof (lookup_unique d _ Hnd Hmd) as Hlm. simpl in Hlm.
  assert (Hroots : NoDup (map nid cs)).
  { apply NoDup_roots. pose proof (NoDup_sub d _ Hnd Hmd) as Hn.
    apply NoDup_nids_children in Hn. simpl in Hn. tauto. }
  assert (Hnext : nextSibling a d = option_map nid (hd_error (after a cs))).
  { unfold nextSibling. now rewrite Hsib. }
  (* the reference of the insertion, once the icon is out *)
  set (ref := nextSibling a d).
  set (ref' := match ref with
               | Some r => if r =? nid wn then nextSibling (nid wn) d else ref
               | None => None
               end).
  assert (Hmove : repair_move i sc (Some a) d
                  = Ok (insert_f p wn ref' (remove_f (nid wn) d))).
  { unfold repair_move. rewrite Hpe. unfold moveBefore. rewrite Hlw.
    unfold insertBefore. rewrite Hlm.
    assert (E1 : existsb (Nat.eqb p) (nids wn) = false).
    { apply Bool.not_true_iff_false. intros X. now apply existsb_eqb_In in X. }
    rewrite E1. fold ref.
    assert (E2 : match ref with Some r => existsb (has_nid r) cs | None => true end = true).
    { unfold ref. rewrite Hnext.
      destruct (hd_error (after a cs)) as [y|] eqn:Hy; simpl; [|reflexivity].
      apply existsb_has_nid. apply in_map. apply (after_incl a).
      destruct (after a cs); [discriminate|]. inversion Hy. now left. }
    rewrite E2. reflexivity. }
  rewrite Hwn in *.
  pose proof (remove_perm _ _ _ Hnd Hlw) as Hperm.
  destruct (remove_sound i wn d f Hs Hlw) as [Hs0 _].
  assert (Hfresh : forall k, In k (nids wn) -> ~ In k (nids_f (remove_f i d))).
  { intros k Hk Hk0. pose proof (perm_nids _ _ _ Hperm) as Hn.
    pose proof (Permutation_NoDup Hn Hnd) as Hnd2.
    apply (NoDup_app_disjoint _ _ k Hnd2 Hk0).
    unfold nids_f, all_nodes. simpl. now rewrite app_nil_r. }
  assert (Hlm0 : lookup p (remove_f i d) = Some (Elem p e (remove_f i cs))).
  { now rewrite (lookup_remove i p wn d Hnd Hlw Hmw), Hlm. }
  assert (Hx0 : In (remove i x) (remove_f i cs)).
  { apply in_remove_f; [exact Hxc|congruence]. }
  assert (Href' : ref' = option_map nid (hd_error (after a (remove_f i cs)))).
  { rewrite (after_remove_next a i cs Hroots Hai). unfold ref', ref.
    rewrite Hnext, !Hwn.
    destruct (option_map nid (hd_error (after a cs))) as [r|] eqn:Hr; [|reflexivity].
    destruct (r =? i) eqn:Eri; [|reflexivity].
    apply Nat.eqb_eq in Eri. subst r.
    destruct (hd_error (after a cs)) as [y|] eqn:Hy; [|discriminate].
    simpl in Hr. inversion Hr as [Hyi].
    assert (Hyc : In y cs).
    { apply (after_incl a). destruct (after a cs); [discriminate|].
      inversion Hy. now left. }
    destruct (child_facts d (Elem p e cs) y Hnd Hmd Hyc) as [_ [Hsy _]].
    unfold nextSibling. rewrite Hyi in Hsy |- *. now rewrite Hsy. }
  exists (insert_f p wn ref' (remove_f i d)), wn.
  split; [exact Hmove|]. split; [exact Hlw|]. split; [exact Hwi|].
  split; [exact Haw|]. split; [exact Hscw|].
  assert (Hins : Permutation (labels (insert_f p wn ref' (remove_f i d)))
                             (labels (remove_f i d) ++ labels [wn])).
  { exact (insert_perm p wn ref' _ _ _ (proj1 Hs0) Hlm0). }
  assert (Hperm1 : Permutation (labels (insert_f p wn ref' (remove_f i d))) (labels d)).
  { rewrite Hins. now symmetry. }
  pose proof (sound_perm _ _ f Hperm1 Hs) as Hs1.
  split; [exact Hs1|]. split; [rewrite (count_perm _ _ Hperm1); exact Hcount|].
  split.
  { pose proof (lookup_unique _ wn (proj1 Hs1) (in_insert p wn ref' _ _ _ Hlm0)) as Hl.
    now rewrite Hwn in Hl. }
  split.
  { apply inside_insert; [exact Hscw|exact Haw|].
    apply (inside_remove d sc a i wn Hnd Hlw Hscw Haw).
    exists nsc. split; [exact Hlsc|]. rewrite <- Hxa. now apply in_nids_f. }
  unfold nextSibling.
  assert (Hm0 : In (Elem p e (remove_f i cs)) (all_nodes (remove_f i d))).
  { apply lookup_in in Hlm0. tauto. }
  pose proof (siblings_insert (remove_f i d) (Elem p e (remove_f i cs)) (remove i x)
                wn ref' (proj1 Hs0) Hm0 Hx0 Hfresh) as Hsib1.
  simpl in Hsib1. rewrite nid_remove, Hxa in Hsib1. rewrite Hsib1, Href'.
  rewrite (after_insert_next a wn (remove_f i cs)).
  - simpl. now rewrite Hwn.
  - apply NoDup_roots. pose proof (NoDup_sub _ _ (proj1 Hs0) Hm0) as Hn.
    apply NoDup_nids_children in Hn. simpl in Hn. tauto.
  - rewrite <- Hxa, <- (nid_remove i x). now apply in_map.
Qed.

(** The whole of [repairExisting]. *)
Lemma repairExisting_adjacent :
  nextSibling a (repairExisting d) = Some i /\
  contains sc i (repairExisting d) = true /\
  getElementById ICON_ID (repairExisting d) = Some i.
Proof.
  destruct repair_move_adjacent
    as [d1 [wn [Hmove [Hlw [Hwi [Haw [Hscw [Hs1 [Hc1 [Hl1 [Hin1 Hn1]]]]]]]]]]].
  pose proof (lookup_in _ _ _ Hlw) as [_ Hwn].
  (* the copy of the classes of the host *)
  set (d2 := copy_host_classes (Some a) i d1).
  assert (H2 : exists w2, sound d2 f /\ count_icons d2 <= 1 /\ lookup i d2 = Some w2 /\
                          nids w2 = nids wn /\ is_icon w2 = true /\
                          inside d2 sc a /\ nextSibling a d2 = Some i).
  { unfold d2, copy_host_classes. destruct (parentElement a d1) as [host|].
    - exists (update i (add_classes (classes_of host d1)) wn).
      split; [now apply update_sound|]. split.
      { rewrite count_icons_update; [exact Hc1|]. intros e. apply eid_add_classes. }
      split; [now rewrite lookup_update, Hl1|].
      split; [apply nids_update|]. split; [now rewrite is_icon_update|].
      split; [now apply inside_update|now rewrite nextSibling_update].
    - exists wn. auto 10. }
  destruct H2 as [w2 [Hs2 [Hc2 [Hl2 [Hnids2 [Hwi2 [Hin2 Hn2]]]]]]].
  assert (E : repairExisting d = scrub i d2).
  { unfold repairExisting. now rewrite Hi, Hsc, Ha, Hmove. }
  rewrite E. pose proof (lookup_in _ _ _ Hl2) as [Hw2in Hw2n].
  destruct (scrub_cases i d2 (proj1 Hs2))
    as [->|[child [rect [cn [rn [Q1 [Q2 [Lc [Lr [Hrn ->]]]]]]]]]].
  - split; [exact Hn2|]. split.
    + exact (inside_contains d2 sc a i (proj1 Hs2) Hin2 Hn2).
    + rewrite <- Hw2n. now apply getElementById_of.
  - (* a rect below the icon goes *)
    destruct (querySelectorIn_node i child img_or_svg_sel d2 (proj1 Hs2) Q1)
      as [nc [xc [Hlc [_ [_ [Hxc [_ [Hxcn [_ Hxcl]]]]]]]]].
    rewrite Hl2 in Hlc. inversion Hlc; subst nc. clear Hlc.
    rewrite Lc in Hxcl. inversion Hxcl; subst xc. clear Hxcl.
    assert (Hsub : incl (nids rn) (nids_f (children w2))).
    { intros k Hk. unfold nids in Hk. apply in_map_iff in Hk.
      destruct Hk as [y [Ey Hy]]. rewrite <- Ey. apply in_nids_f.
      apply (all_nodes_trans _ cn y Hxc). apply (preorder_trans cn rn y); [|exact Hy].
      rewrite preorder_children. now right. }
    assert (Hw2nd : ~ In i (nids_f (children w2))).
    { pose proof (NoDup_sub d2 w2 (proj1 Hs2) Hw2in) as Hn.
      apply NoDup_nids_children in Hn. rewrite Hw2n in Hn. tauto. }
    assert (Hsub2 : incl (nids rn) (nids wn)).
    { intros k Hk. rewrite <- Hnids2, nids_children. right. now apply Hsub. }
    assert (Hir : ~ In i (nids rn)) by (intros X; apply Hw2nd; now apply Hsub).
    assert (Har : ~ In a (nids rn)) by (intros X; apply Haw; now apply Hsub2).
    assert (Hscr : ~ In sc (nids rn)) by (intros X; apply Hscw; now apply Hsub2).
    assert (Hri : rect <> i).
    { intros Eq. apply Hir. apply lookup_in in Lr. destruct Lr as [_ Hr].
      rewrite <- Eq, <- Hr, nids_children. now left. }
    destruct (remove_sound rect rn d2 f Hs2 Lr) as [Hs3 Hc3].
    pose proof (nextSibling_remove a rect i rn d2 (proj1 Hs2) Lr Har Hri Hn2) as Hn3.
    pose proof (inside_remove d2 sc a rect rn (proj1 Hs2) Lr Hscr Har Hin2) as Hin3.
    split; [exact Hn3|]. split.
    + exact (inside_contains _ sc a i (proj1 Hs3) Hin3 Hn3).
    + assert (Hl3 : lookup i (remove_f rect d2) = Some (remove rect w2)).
      { now rewrite (lookup_remove rect i rn d2 (proj1 Hs2) Lr Hir), Hl2. }
      apply lookup_in in Hl3. destruct Hl3 as [Hin3' Hn3'].
      rewrite <- Hn3'. apply getElementById_of; [lia|exact Hin3'|].
      now rewrite is_icon_remove.
Qed.
End Repair.

(** C6.  The document is well formed, an element [i] has [ICON_ID], the
    header container [sc] is there and the protect anchor [a] is inside
    it.  Wherever the icon hangs, on the body in particular,
    [repairExisting] leaves it the element with [ICON_ID], the next sibling
    of [a], and inside [sc]. *)
Theorem repairExisting_converges (s : state) (i sc a : nat) :
  wf_state s = true ->
  getElementById ICON_ID (doc s) = Some i ->
  querySelector container_sel (doc s) = Some sc ->
  querySelectorIn sc protect_sel (doc s) = Some a ->
  getElementById ICON_ID (repairExisting (doc s)) = Some i /\
  nextSibling a (repairExisting (doc s)) = Some i /\
  contains sc i (repairExisting (doc s)) = true.
Proof.
  intros Hwf Hi Hsc Ha. apply wf_state_spec in Hwf. destruct Hwf as [Hs [Hc Hok]].
  destruct (repairExisting_adjacent (doc s) (fresh s) Hs Hc Hok i sc a Hi Hsc Ha)
    as [H1 [H2 H3]].
  auto.
Qed.

(** * Well-formedness is kept by every event *)

Lemma plain_label_spec (n : node) : plain n = plain_label (label n).
Proof. now destruct n. Qed.

Lemma forallb_plain_labels (ns : list node) :
  forallb plain (all_nodes ns) = forallb plain_label (labels ns).
Proof.
  unfold labels. induction (all_nodes ns) as [|n l IH]; [reflexivity|].
  simpl. now rewrite IH, plain_label_spec.
Qed.

Lemma plain_label_relabel (k : nat) cls (l : nat * option element) :
  plain_label (relabel k (add_classes cls) l) = plain_label l.
Proof.
  destruct l as [i [e|]]; unfold relabel, plain_label; simpl; [|now destruct (i =? k)].
  now destruct (i =? k).
Qed.

Lemma icon_shape_update (k : nat) cls (n : node) :
  icon_shape (update k (add_classes cls) n) = icon_shape n.
Proof.
  destruct n as [i data|i e cs]; [reflexivity|].
  simpl. fold (update_f k (add_classes cls) cs).
  rewrite !forallb_plain_labels, labels_update.
  assert (E : forallb plain_label (map (relabel k (add_classes cls)) (labels cs))
              = forallb plain_label (labels cs)).
  { induction (labels cs) as [|l r IH]; [reflexivity|].
    simpl. now rewrite IH, plain_label_relabel. }
  rewrite E. now destruct (i =? k).
Qed.

Lemma in_remove_f_aux (r : nat) (cs : list node) :
  Forall (fun c => forall y, In y (preorder (remove r c)) ->
                             exists x, In x (preorder c) /\ y = remove r x) cs ->
  forall y, In y (all_nodes (remove_f r cs)) ->
            exists x, In x (all_nodes cs) /\ y = remove r x.
Proof.
  induction 1 as [|c cs Hc _ IH]; intros y Hy; [contradiction|].
  rewrite remove_f_cons in Hy. rewrite all_nodes_cons.
  destruct (has_nid r c).
  - destruct (IH y Hy) as [x [Hx E]]. exists x. split; [|exact E].
    apply in_or_app. now right.
  - rewrite all_nodes_cons in Hy. apply in_app_or in Hy. destruct Hy as [Hy|Hy].
    + destruct (Hc y Hy) as [x [Hx E]]. exists x. split; [|exact E].
      apply in_or_app. now left.
    + destruct (IH y Hy) as [x [Hx E]]. exists x. split; [|exact E].
      apply in_or_app. now right.
Qed.

Lemma in_remove_node (r : nat) (n : node) :
  forall y, In y (preorder (remove r n)) ->
            exists x, In x (preorder n) /\ y = remove r x.
Proof.
  induction n as [i data|i e cs IH] using node_ind'; intros y Hy.
  - exists (Text i data). split; [now left|]. simpl in Hy. now destruct Hy.
  - rewrite remove_elem, preorder_elem in Hy. destruct Hy as [Hy|Hy].
    + exists (Elem i e cs). split; [now left|]. now rewrite remove_elem.
    + destruct (in_remove_f_aux r cs IH y Hy) as [x [Hx E]].
      exists x. split; [|exact E]. rewrite preorder_elem. now right.
Qed.

Lemma in_all_nodes_remove_f (r : nat) (l : list node) (y : node) :
  In y (all_nodes (remove_f r l)) ->
  exists x, In x (all_nodes l) /\ y = remove r x.
Proof.
  apply in_remove_f_aux. apply Forall_forall. intros c _. apply in_remove_node.
Qed.

Lemma icon_shape_remove (r : nat) (n : node) :
  icon_shape n = true -> icon_shape (remove r n) = true.
Proof.
  destruct n as [i data|i e cs]; [reflexivity|].
  rewrite remove_elem. simpl. rewrite !andb_true_iff. intros [Ht Hp].
  split; [exact Ht|]. apply forallb_forall. intros y Hy.
  destruct (in_all_nodes_remove_f r cs y Hy) as [x [Hx ->]].
  rewrite plain_label_spec, label_remove, <- plain_label_spec.
  exact (proj1 (forallb_forall _ _) Hp x Hx).
Qed.

(** The icon through the end of [repairExisting]. *)
Lemma scrub_icon (i : nat) (d : list node) (f : nat) (w : node) :
  sound d f -> count_icons d <= 1 ->
  lookup i d = Some w -> is_icon w = true -> icon_shape w = true ->
  icons_ok (scrub i d) = true.
Proof.
  intros Hs Hc Hl Hi Hsh. pose proof (lookup_in _ _ _ Hl) as [Hin Hn].
  destruct (scrub_cases i d (proj1 Hs))
    as [->|[child [rect [cn [rn [Q1 [Q2 [Lc [Lr [Hrn ->]]]]]]]]]].
  - exact (icons_ok_one d w Hc Hin Hi Hsh).
  - destruct (querySelectorIn_node i child img_or_svg_sel d (proj1 Hs) Q1)
      as [nc [xc [Hlc [_ [_ [Hxc [_ [Hxcn [_ Hxcl]]]]]]]]].
    rewrite Hl in Hlc. inversion Hlc; subst nc. clear Hlc.
    rewrite Lc in Hxcl. inversion Hxcl; subst xc. clear Hxcl.
    assert (Hir : ~ In i (nids rn)).
    { intros X. pose proof (NoDup_sub d w (proj1 Hs) Hin) as Hnd.
      apply NoDup_nids_children in Hnd. rewrite Hn in Hnd. apply (proj2 Hnd).
      unfold nids in X. apply in_map_iff in X. destruct X as [y [Ey Hy]].
      rewrite <- Ey. apply in_nids_f.
      apply (all_nodes_trans _ cn y Hxc). apply (preorder_trans cn rn y); [|exact Hy].
      rewrite preorder_children. now right. }
    destruct (remove_sound rect rn d f Hs Lr) as [Hs3 Hc3].
    assert (Hl3 : lookup i (remove_f rect d) = Some (remove rect w)).
    { now rewrite (lookup_remove rect i rn d (proj1 Hs) Lr Hir), Hl. }
    apply lookup_in in Hl3. destruct Hl3 as [Hin3 _].
    apply (icons_ok_one _ (remove rect w)); [lia|exact Hin3| |].
    + now rewrite is_icon_remove.
    + now apply icon_shape_remove.
Qed.

Lemma repairExisting_icons_ok (d : list node) (f : nat) :
  sound d f -> count_icons d <= 1 -> icons_ok d = true ->
  icons_ok (repairExisting d) = true.
Proof.
  intros Hs Hc Hok. unfold repairExisting.
  destruct (getElementById ICON_ID d) as [i|] eqn:Hi; [|exact Hok].
  destruct (querySelector container_sel d) as [sc|]; [|exact Hok].
  destruct (repair_move i sc (querySelectorIn sc protect_sel d) d) as [d1|] eqn:Hm;
    [|exact Hok].
  destruct (the_icon d i (proj1 Hs) Hi) as [w [Hlw [Hwin [Hwi Hwn]]]].
  destruct (repair_move_inv _ _ _ _ _ Hm) as [w' [p [ref [Hlw' Hins]]]].
  rewrite Hlw in Hlw'. inversion Hlw'; subst w'. clear Hlw'.
  pose proof (proj1 (icons_ok_spec d) Hok w Hwin Hwi) as Hsh.
  assert (Hlw2 : lookup (nid w) d = Some w) by now rewrite Hwn.
  destruct (insertBefore_move_labels p w ref d d1 (proj1 Hs) Hlw2 Hins)
    as [Hperm [Hin1 _]].
  pose proof (sound_perm _ _ f Hperm Hs) as Hs1.
  assert (Hc1 : count_icons d1 <= 1) by (rewrite (count_perm _ _ Hperm); exact Hc).
  pose proof (lookup_unique d1 w (proj1 Hs1) Hin1) as Hl1. rewrite Hwn in Hl1.
  destruct (copy_host_classes_sound (querySelectorIn sc protect_sel d) i d1 f Hs1)
    as [Hs2 Hc2].
  assert (H2 : exists w2, lookup i (copy_host_classes (querySelectorIn sc protect_sel d) i d1)
                          = Some w2 /\ is_icon w2 = true /\ icon_shape w2 = true).
  { unfold copy_host_classes. destruct (querySelectorIn sc protect_sel d) as [a|].
    - destruct (parentElement a d1) as [host|].
      + exists (update i (add_classes (classes_of host d1)) w).
        split; [now rewrite lookup_update, Hl1|].
        split; [now rewrite is_icon_update|now rewrite icon_shape_update].
      + now exists w.
    - now exists w. }
  destruct H2 as [w2 [Hl2 [Hi2 Hsh2]]].
  apply (scrub_icon i _ f w2 Hs2); [lia|exact Hl2|exact Hi2|exact Hsh2].
Qed.

Lemma repairExisting_wf (s : state) :
  wf_state s = true -> wf_state (with_doc (repairExisting (doc s)) s) = true.
Proof.
  intros Hwf. apply wf_state_spec in Hwf. destruct Hwf as [Hs [Hc Hok]].
  apply wf_state_spec. simpl.
  destruct (repairExisting_sound (doc s) (fresh s) Hs) as [H1 H2].
  split; [exact H1|]. split; [lia|].
  exact (repairExisting_icons_ok _ _ Hs Hc Hok).
Qed.

Lemma removeIcon_wf (s : state) :
  wf_state s = true -> wf_state (with_doc (removeIcon (doc s)) s) = true.
Proof.
  intros Hwf. apply wf_state_spec in Hwf. destruct Hwf as [Hs [Hc Hok]].
  apply wf_state_spec. simpl.
  destruct (removeIcon_sound (doc s) (fresh s) Hs Hc) as [H1 H2].
  split; [exact H1|]. split; [lia|]. now apply icons_ok_zero.
Qed.

Lemma createIcon_wf (link : option jsstring) (now : Z) (s : state) :
  wf_state s = true -> wf_state (state_of (createIcon link now s)) = true.
Proof.
  intros Hwf. destruct (debounced now s) eqn:Hg.
  - unfold createIcon. now rewrite Hg.
  - destruct (resolve_container (removeIcon (doc s))) as [c|] eqn:R.
    + destruct (createIcon_places s link now Hwf Hg) as [s' [w [H1 [H2 _]]]].
      * rewrite R. discriminate.
      * now rewrite H1.
    + unfold createIcon. rewrite Hg, R. simpl.
      apply wf_state_spec in Hwf. destruct Hwf as [Hs [Hc Hok]].
      apply wf_state_spec. simpl.
      destruct (removeIcon_sound (doc s) (fresh s) Hs Hc) as [H1 H2].
      split; [apply (sound_weaken _ (fresh s)); [lia|exact H1]|].
      split; [lia|]. now apply icons_ok_zero.
Qed.

Lemma apply_settings_wf link q now now' (s : state) :
  wf_state s = true -> wf_state (state_of (apply_settings link q now now' s)) = true.
Proof.
  intros H. unfold apply_settings.
  pose proof (createIcon_wf (Some (JsString.or_else link DEFAULT_LINK)) now s H) as H1.
  destruct (createIcon (Some (JsString.or_else link DEFAULT_LINK)) now s) as [s1|s1];
    simpl in H1.
  - simpl. destruct (positive q); exact H1.
  - pose proof (createIcon_wf (Some DEFAULT_LINK) now' s1 H1) as H2.
    destruct (createIcon (Some DEFAULT_LINK) now' s1) as [s2|s2]; simpl in *.
    + destruct (positive q); exact H2.
    + exact H2.
Qed.

Lemma loadAndCreate_wf now now' (s : state) :
  wf_state s = true -> wf_state (state_of (loadAndCreate now now' s)) = true.
Proof.
  intros H. unfold loadAndCreate.
  destruct (storage s); apply apply_settings_wf; exact H.
Qed.

Lemma step_wf (a : action) (s : state) :
  wf_state s = true -> wf_state (step a s) = true.
Proof.
  intros H. destruct a as [link now| | |t now now'|now|i now|input delay now now']; simpl.
  - now apply createIcon_wf.
  - now apply removeIcon_wf.
  - now apply repairExisting_wf.
  - rewrite observer_unfold. destruct (icon_lost s) as [[|]|]; simpl; try exact H.
    destruct (t - last_or_zero s <? 1000)%Z; [exact H|].
    now apply loadAndCreate_wf.
  - unfold checkAndCreate.
    destruct (querySelector protect_sel (doc s)); [|exact H].
    destruct (getElementById ICON_ID (doc s)); [exact H|].
    pose proof (createIcon_wf None now s H) as H1.
    destruct (createIcon None now s); exact H1.
  - unfold fire_timer. destruct (nth_error (timers s) i) as [[link ms]|]; [|exact H].
    apply createIcon_wf. exact H.
  - destruct (storage s) as [|old|]; try exact H.
    rewrite storage_changed_unfold.
    match goal with |- wf_state (if ?b then _ else _) = true => destruct b end.
    + apply loadAndCreate_wf. exact H.
    + exact H.
Qed.

(** Every state the script reaches from a well-formed one is well formed:
    identities stay distinct, there is at most one icon, and what carries
    the reserved identifier is an icon. *)
Theorem wf_state_invariant (s0 s : state) :
  wf_state s0 = true -> reachable s0 s -> wf_state s = true.
Proof.
  intros H0 Hr. induction Hr as [|a s Hr IH]; [exact H0|]. now apply step_wf.
Qed.

(** * The options page *)

Lemma trim_start_idem (s : jsstring) :
  JsString.trim_start (JsString.trim_start s) = JsString.trim_start s.
Proof.
  induction s as [|c r IH]; [reflexivity|].
  simpl. destruct (JsString.is_space c) eqn:E; [exact IH|].
  simpl. now rewrite E.
Qed.

Lemma trim_start_snoc (l : jsstring) (c : N) :
  JsString.is_space c = false ->
  JsString.trim_start (l ++ [c]) = JsString.trim_start l ++ [c].
Proof.
  intros Hc. induction l as [|x l IH]; simpl; [now rewrite Hc|].
  now destruct (JsString.is_space x).
Qed.

(** A text without white space in front keeps none when the white space at
    its end is cut off. *)
Lemma trim_start_trim_end (t : jsstring) :
  JsString.trim_start t = t ->
  JsString.trim_start (rev (JsString.trim_start (rev t)))
  = rev (JsString.trim_start (rev t)).
Proof.
  destruct t as [|c r]; [reflexivity|].
  simpl JsString.trim_start at 1. destruct (JsString.is_space c) eqn:E.
  - intros H. exfalso.
    assert (L : List.length (JsString.trim_start r) <= List.length r).
    { clear. induction r as [|x r IH]; simpl; [lia|].
      destruct (JsString.is_space x); simpl; lia. }
    rewrite H in L. simpl in L. lia.
  - intros _. simpl rev. rewrite (trim_start_snoc _ c E), rev_app_distr. simpl.
    now rewrite E.
Qed.

Lemma trim_idem (s : jsstring) : JsString.trim (JsString.trim s) = JsString.trim s.
Proof.
  unfold JsString.trim.
  rewrite (trim_start_trim_end (JsString.trim_start s) (trim_start_idem s)).
  now rewrite rev_involutive, trim_start_idem.
Qed.

Lemma options_load_save (input : jsstring) (delay : option Q) :
  options_load (save input delay) = JsString.trim input.
Proof.
  unfold options_load, save, stored_link, JsString.or_else. simpl.
  now destruct (JsString.trim input).
Qed.

(** After one save the link is stable: saving what the options page has
    loaded stores the same settings, and the page loads the same text
    again. *)
Theorem save_load_stable (input : jsstring) (delay delay' : option Q) :
  save (options_load (save input delay)) delay' = save input delay' /\
  options_load (save (options_load (save input delay)) delay')
  = options_load (save input delay).
Proof.
  rewrite !options_load_save. unfold save. now rewrite trim_idem.
Qed.

Lemma createIcon_timers (s : state) (link : option jsstring) (now : Z) :
  timers (state_of (createIcon link now s)) = timers s.
Proof.
  unfold createIcon. destruct (debounced now s); [reflexivity|].
  now destruct (resolve_container (removeIcon (doc s))).
Qed.

(** [apply] adds at most one timer and cancels none: the delayed create
    with the link it was given, when the delay is positive and the
    [createIcon] before it, or its retry, has returned. *)
Lemma apply_settings_timers (s : state) (l : jsstring) (q : Q) (now now' : Z) :
  match apply_settings l q now now' s with
  | Returned s' =>
      timers s' =
      timers s ++ (if positive q
                   then [DelayedCreate (JsString.or_else l DEFAULT_LINK) q]
                   else [])
  | Threw s' => timers s' = timers s
  end.
Proof.
  unfold apply_settings.
  pose proof (createIcon_timers s (Some (JsString.or_else l DEFAULT_LINK)) now) as H1.
  destruct (createIcon (Some (JsString.or_else l DEFAULT_LINK)) now s) as [s1|s1];
    simpl in H1.
  - destruct (positive q); simpl; rewrite H1; [reflexivity|now rewrite app_nil_r].
  - pose proof (createIcon_timers s1 (Some DEFAULT_LINK) now') as H2.
    destruct (createIcon (Some DEFAULT_LINK) now' s1) as [s2|s2]; simpl in H2.
    + destruct (positive q); simpl; rewrite H2, H1; [reflexivity|now rewrite app_nil_r].
    + congruence.
Qed.

(** A delay saved as 0, or typed as something that is no number, turns the
    delayed create off: [loadAndCreate] on these settings leaves the
    pending timers as they are.  The options page, opened again, shows 5
    for it all the same. *)
Theorem saved_zero_delay (s : state) (input : jsstring) (delay : option Q)
  (now now' : Z) :
  match delay with Some q => Qnum q | None => 0%Z end = 0%Z ->
  options_load_delay (save input delay) = 5%Q /\
  timers (state_of (loadAndCreate now now'
                      (with_storage (StorageLive (save input delay)) s)))
  = timers s.
Proof.
  intros Hz.
  assert (Hd : stored_delay (save input delay) = 0%Q /\
               options_load_delay (save input delay) = 5%Q).
  { unfold stored_delay, options_load_delay, save. simpl.
    destruct delay as [q|]; [|split; reflexivity].
    apply Z.eqb_eq in Hz. now rewrite Hz. }
  destruct Hd as [Hd Ho]. split; [exact Ho|].
  unfold loadAndCreate. simpl storage. cbv iota. rewrite Hd.
  match goal with
  | |- timers (state_of (apply_settings ?l ?q ?n ?n' ?s0)) = _ =>
      pose proof (apply_settings_timers s0 l q n n') as H;
      destruct (apply_settings l q n n' s0) as [s'|s']; simpl in *
  end.
  - rewrite H. apply app_nil_r.
  - exact H.
Qed.

(** The open button and the icon agree: the button opens, in a new
    window, exactly the link that the content script takes from a save of
    the same input, and it shows its alert exactly when that save makes the
    content script fall back on the default link. *)
Theorem open_click_agrees (s : state) (input : jsstring) (delay : option Q)
  (now now' : Z) :
  match open_click input with
  | OptionsOpen url target =>
      target = "_blank" /\ url = JsString.trim input /\
      currentDriveLink
        (state_of (loadAndCreate now now'
                     (with_storage (StorageLive (save input delay)) s)))
      = url
  | OptionsAlert _ =>
      JsString.trim input = [] /\
      currentDriveLink
        (state_of (loadAndCreate now now'
                     (with_storage (StorageLive (save input delay)) s)))
      = DEFAULT_LINK
  end.
Proof.
  rewrite (loadAndCreate_link _ (save input delay)) by reflexivity.
  unfold open_click, save, stored_link, JsString.or_else. simpl.
  destruct (JsString.trim input) as [|c r]; simpl; auto.
Qed.

(** * loadAndCreate and the exception of createIcon *)

Lemma truthy_or_default (l : jsstring) :
  JsString.truthy (JsString.or_else l DEFAULT_LINK) = true.
Proof. unfold JsString.or_else. now destruct (JsString.truthy l) eqn:E. Qed.

Lemma or_else_truthy (l d : jsstring) :
  JsString.truthy l = true -> JsString.or_else l d = l.
Proof. intros H. unfold JsString.or_else. now rewrite H. Qed.

Lemma configured_link_truthy (s : state) :
  JsString.truthy (configured_link s) = true.
Proof.
  unfold configured_link.
  destruct (storage s); first [apply truthy_or_default|reflexivity].
Qed.

Lemma loadAndCreate_apply (now now' : Z) (s : state) :
  loadAndCreate now now' s =
  apply_settings (configured_link s) (configured_delay s) now now'
    (with_currentDriveLink (configured_link s) s).
Proof.
  unfold loadAndCreate, configured_link, configured_delay. now destruct (storage s).
Qed.


Lemma createIcon_threw_last (s s' : state) (link : option jsstring) (now : Z) :
  createIcon link now s = Threw s' -> last s' = Some now.
Proof.
  unfold createIcon. destruct (debounced now s); [discriminate|].
  destruct (resolve_container (removeIcon (doc s))); [discriminate|].
  intros H. inversion H. reflexivity.
Qed.

Lemma apply_settings_returns (s : state) (l : jsstring) (q : Q) (now now' : Z) :
  now <> 0%Z -> (now' - now < 500)%Z ->
  exists s', apply_settings l q now now' s = Returned s'.
Proof.
  intros Hz Ht. unfold apply_settings.
  destruct (createIcon (Some (JsString.or_else l DEFAULT_LINK)) now s) as [s1|s1] eqn:E1;
    [eauto|].
  apply createIcon_threw_last in E1.
  rewrite (createIcon_debounced s1 (Some DEFAULT_LINK) now' now E1 Hz Ht). eauto.
Qed.

(** [createIcon] can raise inside [loadAndCreate], and the retry decides
    what comes of it.  The first [createIcon] of [apply] raises: by then it
    has taken the old icon out and set [_last].  A retry less than 500 ms
    later, with a clock that is not 0, is one the debounce suppresses: it
    returns with the state as it is, so [loadAndCreate] returns, and the
    document is the one the first call left, with no icon placed.  A retry
    outside that window runs: it sets [_last] again, and [loadAndCreate]
    raises exactly when the retry finds no container either. *)
Theorem loadAndCreate_returns (s s1 : state) (now now' : Z) :
  createIcon (Some (configured_link s)) now
    (with_currentDriveLink (configured_link s) s) = Threw s1 ->
  doc s1 = removeIcon (doc s) /\ last s1 = Some now /\
  (now <> 0%Z -> (now' - now < 500)%Z ->
   createIcon (Some DEFAULT_LINK) now' s1 = Returned s1 /\
   exists s', loadAndCreate now now' s = Returned s' /\
              doc s' = removeIcon (doc s) /\ last s' = Some now) /\
  (now = 0%Z \/ (500 <= now' - now)%Z ->
   last (state_of (loadAndCreate now now' s)) = Some now' /\
   ((exists s2, loadAndCreate now now' s = Threw s2) <->
    resolve_container (removeIcon (doc s1)) = None)).
Proof.
  intros E.
  assert (Hd : doc s1 = removeIcon (doc s) /\ last s1 = Some now).
  { unfold createIcon in E.
    destruct (debounced now (with_currentDriveLink (configured_link s) s));
      [discriminate|].
    simpl in E.
    destruct (resolve_container (removeIcon (doc s))); [discriminate|].
    inversion E. split; reflexivity. }
  destruct Hd as [Hd Hl]. split; [exact Hd|]. split; [exact Hl|].
  rewrite loadAndCreate_apply. unfold apply_settings. cbv zeta.
  rewrite (or_else_truthy _ _ (configured_link_truthy s)).
  change (@Some JsString.t (configured_link s)) with (@Some jsstring (configured_link s)).
  rewrite E. split.
  - intros Hz Ht.
    rewrite (createIcon_debounced s1 (Some DEFAULT_LINK) now' now Hl Hz Ht).
    split; [reflexivity|]. eexists. split; [reflexivity|].
    destruct (positive (configured_delay s)); simpl; auto.
  - intros Hor.
    assert (Hg : debounced now' s1 = false).
    { unfold debounced. rewrite Hl. destruct Hor as [-> | Hor]; [reflexivity|].
      apply andb_false_iff. right. now apply Z.ltb_ge. }
    unfold createIcon. rewrite Hg. cbv zeta. simpl doc.
    destruct (resolve_container (removeIcon (doc s1))) as [c|]; simpl.
    + split; [now destruct (positive (configured_delay s))|].
      split; [intros [s2 H]; discriminate|discriminate].
    + split; [reflexivity|]. split; [reflexivity|eauto].
Qed.

(** * The page bridges *)

(** A bridge answers every request that names an action, and it answers
    [error] for one kind only: a [create] that is not debounced on a
    document in which no container is found.  Anything else, an unknown
    action included, is answered [ok]. *)
Theorem bridge_response (action : string) (link : option jsstring) (now : Z)
  (s : state) :
  snd (bridge action link now s) =
  if String.eqb action "" then None
  else if String.eqb action "create" && negb (debounced now s)
          && match resolve_container (removeIcon (doc s)) with
             | Some _ => false
             | None => true
             end
       then Some (Failed action)
       else Some (Acknowledged action).
Proof.
  unfold bridge. destruct (String.eqb action ""); [reflexivity|].
  destruct (String.eqb action "create"); simpl.
  - unfold createIcon. destruct (debounced now s); [reflexivity|]. simpl.
    now destruct (resolve_container (removeIcon (doc s))).
  - destruct (String.eqb action "remove"); [reflexivity|].
    now destruct (String.eqb action "repair").
Qed.

(** * The observer after a creation *)

(** The changes that [createIcon] makes to the page do not set the
    observer going in circles: for 1000 ms after a [createIcon] call that
    passed the debounce, the callback of the observer leaves the state as
    it is, whether the icon is there or not. *)
Theorem observer_quiet (s : state) (link : option jsstring) (now t n n' : Z) :
  debounced now s = false ->
  (t - now < 1000)%Z ->
  state_of (observer t n n' (state_of (createIcon link now s)))
  = state_of (createIcon link now s).
Proof.
  intros Hg Ht. pose proof (createIcon_sets_last s link now Hg) as Hl.
  set (s' := state_of (createIcon link now s)) in *.
  rewrite observer_unfold. destruct (icon_lost s') as [[|]|]; try reflexivity.
  unfold last_or_zero. rewrite Hl.
  apply Z.ltb_lt in Ht. now rewrite Ht.
Qed.

(** * The page around the icon *)

Lemma remove_update_aux (k : nat) g (cs : list node) :
  Forall (fun c => remove k (update k g c) = remove k c \/ has_nid k c = true) cs ->
  remove_f k (update_f k g cs) = remove_f k cs.
Proof.
  induction 1 as [|c cs Hc _ IH]; [reflexivity|].
  unfold update_f in *. simpl map. rewrite !remove_f_cons.
  unfold has_nid at 1. rewrite nid_update. fold (has_nid k c).
  destruct (has_nid k c) eqn:E; [exact IH|].
  destruct Hc as [Hc|Hc]; [|discriminate]. now rewrite Hc, IH.
Qed.

Lemma remove_update_node (k : nat) g (n : node) :
  remove k (update k g n) = remove k n \/ has_nid k n = true.
Proof.
  induction n as [i data|i e cs IH] using node_ind'; [now left|].
  unfold has_nid. simpl nid. destruct (i =? k) eqn:E; [now right|left].
  rewrite update_elem, E, !remove_elem. f_equal.
  now apply remove_update_aux.
Qed.

(** Rewriting the attributes of a node that is then taken out is taking it
    out. *)
Lemma remove_update (k : nat) g (d : list node) :
  remove_f k (update_f k g d) = remove_f k d.
Proof.
  apply remove_update_aux. apply Forall_forall. intros c _. apply remove_update_node.
Qed.

Lemma remove_f_comm_aux (k r : nat) (cs : list node) :
  Forall (fun c => remove k (remove r c) = remove r (remove k c)) cs ->
  remove_f k (remove_f r cs) = remove_f r (remove_f k cs).
Proof.
  induction 1 as [|c cs Hc _ IH]; [reflexivity|].
  rewrite (remove_f_cons r), (remove_f_cons k).
  destruct (has_nid r c) eqn:Er; destruct (has_nid k c) eqn:Ek.
  - exact IH.
  - rewrite remove_f_cons, has_nid_remove, Er. exact IH.
  - rewrite remove_f_cons, has_nid_remove, Ek. exact IH.
  - rewrite !remove_f_cons, !has_nid_remove, Er, Ek. now rewrite Hc, IH.
Qed.

Lemma remove_comm_node (k r : nat) (n : node) :
  remove k (remove r n) = remove r (remove k n).
Proof.
  induction n as [i data|i e cs IH] using node_ind'; [reflexivity|].
  rewrite !remove_elem. f_equal. now apply remove_f_comm_aux.
Qed.

Lemma remove_f_comm (k r : nat) (d : list node) :
  remove_f k (remove_f r d) = remove_f r (remove_f k d).
Proof.
  apply remove_f_comm_aux. apply Forall_forall. intros c _. apply remove_comm_node.
Qed.

(** Once a node is out, so are all the identities of its subtree. *)
Lemma remove_f_gone (k : nat) (wn : node) (d : list node) :
  NoDup (nids_f d) -> lookup k d = Some wn ->
  forall j, In j (nids wn) -> ~ In j (nids_f (remove_f k d)).
Proof.
  intros Hnd Hl j Hj Hj0.
  pose proof (perm_nids _ _ _ (remove_perm _ _ _ Hnd Hl)) as Hn.
  pose proof (Permutation_NoDup Hn Hnd) as Hnd2.
  apply (NoDup_app_disjoint _ _ j Hnd2 Hj0).
  unfold nids_f, all_nodes. simpl. now rewrite app_nil_r.
Qed.

Lemma remove_inside (k r : nat) (wn : node) (d : list node) :
  NoDup (nids_f d) -> lookup k d = Some wn -> In r (nids wn) ->
  remove_f k (remove_f r d) = remove_f k d.
Proof.
  intros Hnd Hl Hr. rewrite remove_f_comm. apply remove_f_fresh.
  exact (remove_f_gone k wn d Hnd Hl r Hr).
Qed.

(** What [scrub] takes out is inside the icon. *)
Lemma scrub_rest (i : nat) (d : list node) (f : nat) (w : node) :
  sound d f -> lookup i d = Some w ->
  remove_f i (scrub i d) = remove_f i d /\
  exists w', lookup i (scrub i d) = Some w' /\ is_icon w' = is_icon w.
Proof.
  intros Hs Hl. pose proof (lookup_in _ _ _ Hl) as [Hin Hn].
  destruct (scrub_cases i d (proj1 Hs))
    as [->|[child [rect [cn [rn [Q1 [Q2 [Lc [Lr [Hrn ->]]]]]]]]]].
  - split; [reflexivity|]. now exists w.
  - destruct (querySelectorIn_node i child img_or_svg_sel d (proj1 Hs) Q1)
      as [nc [xc [Hlc [_ [_ [Hxc [_ [Hxcn [_ Hxcl]]]]]]]]].
    rewrite Hl in Hlc. inversion Hlc; subst nc. clear Hlc.
    rewrite Lc in Hxcl. inversion Hxcl; subst xc. clear Hxcl.
    assert (Hsub : incl (nids rn) (nids_f (children w))).
    { intros k Hk. unfold nids in Hk. apply in_map_iff in Hk.
      destruct Hk as [y [Ey Hy]]. rewrite <- Ey. apply in_nids_f.
      apply (all_nodes_trans _ cn y Hxc). apply (preorder_trans cn rn y); [|exact Hy].
      rewrite preorder_children. now right. }
    assert (Hir : ~ In i (nids rn)).
    { intros X. pose proof (NoDup_sub d w (proj1 Hs) Hin) as Hnd.
      apply NoDup_nids_children in Hnd. rewrite Hn in Hnd. apply (proj2 Hnd).
      now apply Hsub. }
    assert (Hrw : In rect (nids w)).
    { rewrite nids_children. right. apply Hsub.
      apply lookup_in in Lr. destruct Lr as [_ Hr]. rewrite <- Hr, nids_children.
      now left. }
    split; [exact (remove_inside i rect w d (proj1 Hs) Hl Hrw)|].
    exists (remove rect w). split; [|apply is_icon_remove].
    now rewrite (lookup_remove rect i rn d (proj1 Hs) Lr Hir), Hl.
Qed.

(** [repairExisting] touches the icon only: with the icon taken out, the
    document is the one from before without its icon. *)
Lemma repairExisting_rest (d : list node) (f i : nat) :
  sound d f -> getElementById ICON_ID d = Some i ->
  remove_f i (repairExisting d) = remove_f i d /\
  exists w', lookup i (repairExisting d) = Some w' /\ is_icon w' = true.
Proof.
  intros Hs Hi.
  destruct (the_icon d i (proj1 Hs) Hi) as [w [Hlw [Hwin [Hwi Hwn]]]].
  assert (Same : remove_f i d = remove_f i d /\
                 exists w', lookup i d = Some w' /\ is_icon w' = true).
  { split; [reflexivity|]. now exists w. }
  unfold repairExisting. rewrite Hi.
  destruct (querySelector container_sel d) as [sc|]; [|exact Same].
  destruct (repair_move i sc (querySelectorIn sc protect_sel d) d) as [d1|] eqn:Hm;
    [|exact Same].
  clear Same.
  destruct (repair_move_inv _ _ _ _ _ Hm) as [w' [p [ref [Hlw' Hins]]]].
  rewrite Hlw in Hlw'. inversion Hlw'; subst w'. clear Hlw'.
  assert (Hlw2 : lookup (nid w) d = Some w) by now rewrite Hwn.
  destruct (insertBefore_move_labels p w ref d d1 (proj1 Hs) Hlw2 Hins)
    as [Hperm [Hin1 [ref' Hd1]]].
  pose proof (sound_perm _ _ f Hperm Hs) as Hs1.
  pose proof (lookup_unique d1 w (proj1 Hs1) Hin1) as Hl1. rewrite Hwn in Hl1.
  assert (R1 : remove_f i d1 = remove_f i d).
  { rewrite Hd1, Hwn. rewrite <- Hwn at 1. apply remove_insert. rewrite Hwn.
    apply (remove_f_gone i w d (proj1 Hs) Hlw). rewrite <- Hwn, nids_children.
    now left. }
  destruct (copy_host_classes_sound (querySelectorIn sc protect_sel d) i d1 f Hs1)
    as [Hs2 _].
  assert (H2 : remove_f i (copy_host_classes (querySelectorIn sc protect_sel d) i d1)
               = remove_f i d1 /\
               exists w2, lookup i (copy_host_classes (querySelectorIn sc protect_sel d) i d1)
                          = Some w2 /\ is_icon w2 = true).
  { unfold copy_host_classes. destruct (querySelectorIn sc protect_sel d) as [a|].
    - destruct (parentElement a d1) as [host|].
      + split; [apply remove_update|].
        exists (update i (add_classes (classes_of host d1)) w).
        split; [now rewrite lookup_update, Hl1|now rewrite is_icon_update].
      + split; [reflexivity|now exists w].
    - split; [reflexivity|now exists w]. }
  destruct H2 as [R2 [w2 [Hl2 Hi2]]].
  destruct (scrub_rest i _ f w2 Hs2 Hl2) as [R3 [w3 [Hl3 Hi3]]].
  split; [now rewrite R3, R2, R1|].
  exists w3. split; [exact Hl3|now rewrite Hi3].
Qed.

(** Repair and removal: a repair changes nothing that a removal leaves. *)
Theorem repairExisting_removeIcon (s : state) :
  wf_state s = true ->
  removeIcon (repairExisting (doc s)) = removeIcon (doc s).
Proof.
  intros Hwf. apply wf_state_spec in Hwf. destruct Hwf as [Hs [Hc _]].
  destruct (getElementById ICON_ID (doc s)) as [i|] eqn:Hi.
  - destruct (repairExisting_rest (doc s) (fresh s) i Hs Hi) as [R [w' [Hl Hw]]].
    destruct (repairExisting_sound (doc s) (fresh s) Hs) as [Hs' Hc'].
    rewrite (removeIcon_eq (doc s) i (proj1 Hs) Hi).
    rewrite (removeIcon_eq (repairExisting (doc s)) i (proj1 Hs')); [exact R|].
    apply lookup_in in Hl. destruct Hl as [Hin Hn]. rewrite <- Hn.
    apply getElementById_of; [lia|exact Hin|exact Hw].
  - unfold repairExisting. now rewrite Hi.
Qed.

Section PlaceRest.
Variables (rt : runtime_env) (link : option jsstring) (f : nat) (w : node).
Hypothesis Hw : is_wrapper rt link f w.
Variable d : list node.
Hypothesis Hs : sound d f.
Hypothesis Hc : count_icons d = 0.

(** The placement adds the wrapper and changes nothing else. *)
Lemma place_rest (c : nat) : remove_f (f + 3) (place w c d) = d.
Proof.
  assert (Hfresh : ~ In (f + 3) (nids_f d)).
  { intros X. pose proof (proj1 (Forall_forall _ _) (proj2 Hs) _ X). simpl in H. lia. }
  destruct (place_cases rt link f w c d Hw)
    as [->|[w' [p [ref [d1 [Hw' [Hins Hpost]]]]]]].
  - now apply remove_f_fresh.
  - destruct (insertBefore_new_labels p w' ref d d1 (proj1 Hs)
                (wrapper_fresh rt link f w' Hw' d (proj2 Hs)) Hins) as [_ [_ [ref' Hd1]]].
    pose proof (wrapper_nid rt link f w' Hw') as Hn.
    assert (R1 : remove_f (f + 3) d1 = d).
    { rewrite Hd1, <- Hn. apply remove_insert. now rewrite Hn. }
    destruct Hpost as [->|[[cls ->]| ->]].
    + exact R1.
    + now rewrite remove_update.
    + pose proof (placed_insert rt link f d Hs p w' ref d1 Hw' Hins) as Hpl.
      destruct (placed_facts rt link f d Hs Hc d1 w' Hw' Hpl) as [Hs1 [_ [_ [Hg _]]]].
      destruct (repairExisting_rest d1 (f + 4) (f + 3) Hs1 Hg) as [R _].
      now rewrite R.
Qed.
End PlaceRest.

(** Creation and removal: whatever [createIcon] did, a [removeIcon] after
    it leaves the document that a [removeIcon] before it would have left.
    The page itself is never changed by a creation, neither its nodes nor
    their attributes nor their order. *)
Theorem createIcon_removeIcon (s : state) (link : option jsstring) (now : Z) :
  wf_state s = true ->
  removeIcon (doc (state_of (createIcon link now s))) = removeIcon (doc s).
Proof.
  intros Hwf. destruct (debounced now s) eqn:Hg.
  { unfold createIcon. now rewrite Hg. }
  pose proof Hwf as Hwf'. apply wf_state_spec in Hwf'. destruct Hwf' as [Hs [Hc _]].
  destruct (removeIcon_sound (doc s) (fresh s) Hs Hc) as [Hs1 Hc1].
  destruct (resolve_container (removeIcon (doc s))) as [c|] eqn:R.
  - destruct (createIcon_places s link now Hwf Hg) as [s' [w [H1 [H2 [_ [H3 _]]]]]].
    { rewrite R. discriminate. }
    rewrite H1. simpl state_of.
    apply wf_state_spec in H2. destruct H2 as [Hs' _].
    rewrite (removeIcon_eq (doc s') (fresh s + 3) (proj1 Hs') H3).
    rewrite (createIcon_run link now s c Hg R) in H1. inversion H1. simpl.
    exact (place_rest (runtime s) link (fresh s) _ (build_icon_is_wrapper _ _ _)
             _ Hs1 Hc1 c).
  - unfold createIcon. rewrite Hg, R. simpl.
    unfold removeIcon at 1.
    now rewrite (proj2 (getElementById_none _) Hc1).
Qed.

(** [removeIcon] on a well-formed document: no element has the reserved
    identifier afterwards, a second removal changes nothing, and what has
    gone is the icon with its descendants and nothing else. *)
Theorem removeIcon_removes (d : list node) (f : nat) :
  wf_doc d f = true -> count_icons d <= 1 ->
  getElementById ICON_ID (removeIcon d) = None /\
  removeIcon (removeIcon d) = removeIcon d /\
  forall i, getElementById ICON_ID d = Some i ->
            exists w, lookup i d = Some w /\
                      Permutation (labels d) (labels (removeIcon d) ++ labels [w]).
Proof.
  intros Hs Hc. apply wf_doc_spec in Hs.
  destruct (removeIcon_sound d f Hs Hc) as [_ Hc1].
  pose proof (proj2 (getElementById_none _) Hc1) as Hg.
  split; [exact Hg|]. split.
  - unfold removeIcon at 1. now rewrite Hg.
  - intros i Hi. destruct (the_icon d i (proj1 Hs) Hi) as [w [Hlw _]].
    exists w. split; [exact Hlw|].
    rewrite (removeIcon_eq d i (proj1 Hs) Hi). exact (remove_perm i w d (proj1 Hs) Hlw).
Qed.

(** * The watchers *)

Lemma with_doc_same (s : state) : with_doc (doc s) s = s.
Proof. now destruct s. Qed.

(** A click on a wrapper. *)
Lemma click_wrapper (s : state) rt link f (w : node) (k : nat) :
  lookup k (doc s) = Some w -> is_wrapper rt link f w ->
  click k s = [PreventDefault; WindowOpen (click_target link s) "_blank"].
Proof.
  intros Hl Hw. unfold click. rewrite Hl.
  destruct (wrapper_listeners _ _ _ _ Hw) as [e [cs [-> Hls]]].
  now rewrite Hls.
Qed.

(** [apply] with a link on a state where [createIcon] places. *)
Lemma apply_settings_places (s : state) (l : jsstring) (q : Q) (now now' : Z) :
  wf_state s = true ->
  debounced now s = false ->
  resolve_container (removeIcon (doc s)) <> None ->
  JsString.truthy l = true ->
  exists s',
    apply_settings l q now now' s = Returned s' /\
    wf_state s' = true /\
    count_icons (doc s') = 1 /\
    getElementById ICON_ID (doc s') = Some (fresh s + 3) /\
    click (fresh s + 3) s' = [PreventDefault; WindowOpen l "_blank"] /\
    currentDriveLink s' = currentDriveLink s.
Proof.
  intros Hwf Hg Hr Hl. unfold apply_settings. cbv zeta. rewrite (or_else_truthy l _ Hl).
  destruct (createIcon_places s (@Some JsString.t l) now Hwf Hg Hr)
    as [s1 [w [H1 [H2 [H3 [H4 [H5 [H6 [_ [_ [H7 _]]]]]]]]]]].
  assert (Hc : click (fresh s + 3) s1 = [PreventDefault; WindowOpen l "_blank"]).
  { rewrite (click_wrapper s1 _ _ _ w _ H5 H6). unfold click_target.
    now rewrite (or_else_truthy l _ Hl). }
  eexists. split; [rewrite H1; reflexivity|].
  destruct (positive q); auto 10.
Qed.

(** * C9: the observer *)

Lemma observer_not_debounced (s : state) (t now : Z) :
  (1000 <= t - last_or_zero s)%Z -> (t <= now)%Z -> debounced now s = false.
Proof.
  intros Ht Hn. unfold debounced. unfold last_or_zero in Ht.
  destruct (last s) as [l|]; [|reflexivity].
  apply andb_false_iff. right. apply Z.ltb_ge. lia.
Qed.


(** [loadAndCreate] on a state where [createIcon] places. *)
Lemma loadAndCreate_places (s : state) (now now' : Z) :
  wf_state s = true ->
  debounced now s = false ->
  resolve_container (removeIcon (doc s)) <> None ->
  exists s',
    loadAndCreate now now' s = Returned s' /\
    count_icons (doc s') = 1 /\
    getElementById ICON_ID (doc s') = Some (fresh s + 3) /\
    click (fresh s + 3) s' = [PreventDefault; WindowOpen (configured_link s) "_blank"] /\
    currentDriveLink s' = configured_link s.
Proof.
  intros Hwf Hg Hr. rewrite loadAndCreate_apply.
  destruct (apply_settings_places (with_currentDriveLink (configured_link s) s)
              (configured_link s) (configured_delay s) now now' Hwf Hg Hr
              (configured_link_truthy s))
    as [s' [H1 [_ [H2 [H3 [H4 H5]]]]]].
  exists s'. auto.
Qed.


(** The observer heals the page: the icon is missing, the page has a body,
    and the last creation is at least 1000 ms back.  Without a live store
    the callback returns with exactly one icon in the document again.  With
    a live store it returns with the [get] issued and the document as it
    was, and the icon is back when the store has answered.  A click on the
    icon opens the link that is configured at that moment. *)
Theorem observer_restores (s : state) (t now now' : Z) (b : nat) :
  wf_state s = true ->
  body (doc s) = Some b ->
  getElementById ICON_ID (doc s) = None ->
  (1000 <= t - last_or_zero s)%Z ->
  (t <= now)%Z ->
  exists s' i,
    match storage s with
    | StorageLive _ =>
        observer_callback t now now' s = (Returned s, [GetCallback]) /\
        loadAndCreate now now' s = Returned s'
    | StorageAbsent | StorageThrows =>
        observer_callback t now now' s = (Returned s', [])
    end /\
    count_icons (doc s') = 1 /\
    getElementById ICON_ID (doc s') = Some i /\
    click i s' = [PreventDefault; WindowOpen (currentDriveLink s') "_blank"].
Proof.
  intros Hwf Hb Hi Ht Hn.
  pose proof (observer_not_debounced s t now Ht Hn) as Hg.
  assert (Hr : resolve_container (removeIcon (doc s)) <> None).
  { apply container_after_removal; [exact Hwf|]. left. rewrite Hb. discriminate. }
  destruct (loadAndCreate_places s now now' Hwf Hg Hr) as [s' [H1 [H2 [H3 [H4 H5]]]]].
  exists s', (fresh s + 3). rewrite H5. repeat split; try assumption.
  unfold observer_callback, icon_lost. rewrite Hi.
  apply Z.ltb_ge in Ht. rewrite Ht. unfold loadAndCreate_call.
  rewrite <- H1. destruct (storage s); auto.
Qed.

(** The poll can stop with no icon on the page: the protect anchor is
    there and the icon is not, yet the [createIcon] of the check is one the
    debounce suppresses.  The check reports that it is done all the same,
    so the interval is cleared, and the document is as it was. *)
Theorem poll_stops_without_icon (s : state) (now : Z) (a : nat) :
  querySelector protect_sel (doc s) = Some a ->
  getElementById ICON_ID (doc s) = None ->
  debounced now s = true ->
  checkAndCreate now s = (true, s) /\ count_icons (doc s) = 0.
Proof.
  intros Hp Hi Hg. split; [|now apply getElementById_none].
  unfold checkAndCreate, createIcon. now rewrite Hp, Hi, Hg.
Qed.

(** [loadAndCreate] never cancels a timer, and it adds at most one.  On a
    live store the call adds none before it returns, with the [get]
    pending; the callback of the [get] adds the delayed create, with the
    link in force and the stored [delayedSeconds], when that number is
    positive and [apply] got past its [createIcon].  Without a live store
    the call itself adds the delayed create for 5 seconds. *)
Theorem loadAndCreate_timers (s : state) (now now' : Z) :
  (forall items, storage s = StorageLive items ->
     loadAndCreate_call now now' s = (Returned s, [GetCallback]) /\
     match loadAndCreate now now' s with
     | Returned s' =>
         timers s' =
         timers s ++
         (if positive (stored_delay items)
          then [DelayedCreate (JsString.or_else (stored_link items) DEFAULT_LINK)
                  (stored_delay items)]
          else [])
     | Threw s' => timers s' = timers s
     end) /\
  (storage s = StorageAbsent \/ storage s = StorageThrows ->
     snd (loadAndCreate_call now now' s) = [] /\
     match fst (loadAndCreate_call now now' s) with
     | Returned s' => timers s' = timers s ++ [DelayedCreate DEFAULT_LINK 5]
     | Threw s' => timers s' = timers s
     end).
Proof.
  split.
  - intros items Hst. unfold loadAndCreate_call, loadAndCreate. rewrite Hst.
    split; [reflexivity|].
    match goal with
    | |- match apply_settings ?l ?q ?n ?n' ?s0 with _ => _ end =>
        pose proof (apply_settings_timers s0 l q n n') as H;
        destruct (apply_settings l q n n' s0) as [s'|s']; simpl in *
    end; [|exact H].
    rewrite H. f_equal. destruct (positive (stored_delay items)); [|reflexivity].
    now rewrite (or_else_truthy _ _ (truthy_or_default (stored_link items))).
  - intros Hst. unfold loadAndCreate_call, loadAndCreate.
    destruct Hst as [-> | ->]; (split; [reflexivity|]); simpl fst;
      match goal with
      | |- match apply_settings ?l ?q ?n ?n' ?s0 with _ => _ end =>
          pose proof (apply_settings_timers s0 l q n n') as H;
          destruct (apply_settings l q n n' s0) as [s'|s']; simpl in *
      end; exact H.
Qed.

(** * The start of the script *)

(** A creation beside the protect anchor, with all that is known of the
    state after it. *)
Lemma createIcon_beside (s : state) (link : option jsstring) (now : Z) (sc a : nat) :
  wf_state s = true ->
  debounced now s = false ->
  querySelector container_sel (doc s) = Some sc ->
  querySelectorIn sc protect_sel (doc s) = Some a ->
  exists s' w,
    createIcon link now s = Returned s' /\
    wf_state s' = true /\
    getElementById ICON_ID (doc s') = Some (fresh s + 3) /\
    lookup (fresh s + 3) (doc s') = Some w /\
    is_wrapper (runtime s) link (fresh s) w /\
    nextSibling a (doc s') = Some (fresh s + 3) /\
    last s' = Some now /\
    currentDriveLink s' = currentDriveLink s /\
    storage s' = storage s.
Proof.
  intros Hwf Hg Hsc Ha. pose proof Hwf as Hwf'.
  apply wf_state_spec in Hwf'. destruct Hwf' as [Hs [Hc Hok]].
  destruct (removeIcon_sound (doc s) (fresh s) Hs Hc) as [Hs1 Hc1].
  assert (Hsc1 : querySelector container_sel (removeIcon (doc s)) = Some sc).
  { now rewrite (removeIcon_keeps_querySelector _ _ Hs Hok _ host_sel_container). }
  assert (Ha1 : querySelectorIn sc protect_sel (removeIcon (doc s)) = Some a).
  { rewrite (removeIcon_keeps_querySelectorIn _ _ Hs Hok sc container_sel protect_sel
               host_sel_container (host_sel_applink _) (or_introl Hsc)). exact Ha. }
  assert (Hr : resolve_container (removeIcon (doc s)) = Some sc).
  { unfold resolve_container. now rewrite Hsc1. }
  destruct (createIcon_places s link now Hwf Hg)
    as [s' [w [H1 [H2 [_ [H3 [H4 [H5 [_ [H6 [H7 [H8 _]]]]]]]]]]]].
  { rewrite Hr. discriminate. }
  exists s', w. repeat (split; [assumption|]). split; [|auto].
  rewrite (createIcon_run link now s sc Hg Hr) in H1. inversion H1. simpl.
  exact (proj2 (place_protect (runtime s) link (fresh s) _ (build_icon_is_wrapper _ _ _)
                  _ Hs1 Hc1 sc a Ha1)).
Qed.

(** The start on a console page with a live store.  The script has just
    been loaded, the page has the header with the protect anchor and no
    icon.  [start] returns with the icon beside the anchor: the first check
    of the watcher has created it, without a link.  When the answer of the
    store comes less than 500 ms after that check, its [createIcon] is
    suppressed and the document stays as it is; a click on the icon then
    opens the stored link, or the default link when none is stored. *)
Theorem start_live (s : state) (items : settings) (now now' t t1 t1' : Z) (sc a : nat) :
  wf_state s = true ->
  storage s = StorageLive items ->
  getElementById ICON_ID (doc s) = None ->
  querySelector container_sel (doc s) = Some sc ->
  querySelectorIn sc protect_sel (doc s) = Some a ->
  debounced t s = false ->
  t <> 0%Z ->
  (t1 - t < 500)%Z ->
  exists s1 s2 i,
    start now now' t s
    = (Returned s1,
       [GetCallback; Watcher; Observer (observer_target (doc s1)); DelayedCreate5]) /\
    getElementById ICON_ID (doc s1) = Some i /\
    nextSibling a (doc s1) = Some i /\
    loadAndCreate t1 t1' s1 = Returned s2 /\
    doc s2 = doc s1 /\
    click i s2
    = [PreventDefault;
       WindowOpen (JsString.or_else (stored_link items) DEFAULT_LINK) "_blank"].
Proof.
  intros Hwf Hst Hi Hsc Ha Hg Hz Ht.
  destruct (createIcon_beside s None t sc a Hwf Hg Hsc Ha)
    as [s1 [w [H1 [_ [H3 [H4 [H5 [H6 [H7 [H8 H9]]]]]]]]]].
  assert (Hp : exists p, querySelector protect_sel (doc s) = Some p).
  { destruct (querySelector protect_sel (doc s)) as [p|] eqn:Q; [eauto|].
    rewrite (querySelector_none_in protect_sel (doc s) sc Q) in Ha. discriminate. }
  destruct Hp as [p Hp].
  set (l := JsString.or_else (stored_link items) DEFAULT_LINK).
  assert (Hl : JsString.truthy l = true) by apply truthy_or_default.
  assert (Hdeb : createIcon (@Some JsString.t l) t1 (with_currentDriveLink l s1)
                 = Returned (with_currentDriveLink l s1)).
  { apply (createIcon_debounced _ _ t1 t); [exact H7|exact Hz|exact Ht]. }
  assert (Hload : exists s2, loadAndCreate t1 t1' s1 = Returned s2 /\
                             doc s2 = doc s1 /\ currentDriveLink s2 = l).
  { unfold loadAndCreate. rewrite H9, Hst. fold l. unfold apply_settings. cbv zeta.
    rewrite (or_else_truthy l _ Hl), Hdeb.
    destruct (positive (stored_delay items)); eexists; split; reflexivity || auto. }
  destruct Hload as [s2 [L1 [L2 L3]]].
  exists s1, s2, (fresh s + 3).
  split.
  { assert (E0 : with_doc (repairExisting (doc s)) s = s).
    { unfold repairExisting. rewrite Hi. apply with_doc_same. }
    unfold start. cbv zeta. rewrite E0, Hst.
    unfold checkAndCreate. now rewrite Hp, Hi, H1. }
  split; [exact H3|]. split; [exact H6|]. split; [exact L1|]. split; [exact L2|].
  assert (H4' : lookup (fresh s + 3) (doc s2) = Some w) by now rewrite L2.
  rewrite (click_wrapper s2 _ _ _ w _ H4' H5). unfold click_target. simpl.
  now rewrite L3, (or_else_truthy l _ Hl).
Qed.

(** * A repair without the protect anchor *)

Lemma after_last (k : nat) (w : node) (cs : list node) :
  nid w = k -> ~ In k (map nid cs) -> after k (cs ++ [w]) = [].
Proof.
  intros Hn Hnot. induction cs as [|y cs IH]; simpl.
  - unfold has_nid. now rewrite Hn, Nat.eqb_refl.
  - unfold has_nid at 1. destruct (nid y =? k) eqn:E.
    + apply Nat.eqb_eq in E. exfalso. apply Hnot. now left.
    + apply IH. intros X. apply Hnot. now right.
Qed.

Lemma parentElement_remove (a r : nat) (rn : node) (d : list node) :
  NoDup (nids_f d) -> lookup r d = Some rn -> ~ In a (nids rn) ->
  parentElement a (remove_f r d) = parentElement a d.
Proof.
  intros Hnd Hl Ha.
  assert (Har : a <> r).
  { intros E. apply Ha. apply lookup_in in Hl. destruct Hl as [_ Hr].
    rewrite E, <- Hr, nids_children. now left. }
  unfold parentElement.
  rewrite (first_node_remove (has_child a) r (fun n => has_child_remove a r n Har) d
             (clear_of_node _ r rn d Hnd Hl (no_child_inside a rn Ha))).
  destruct (first_node (has_child a) d); simpl; [now rewrite nid_remove|reflexivity].
Qed.

Lemma last_sibling_remove (a r : nat) (rn : node) (d : list node) :
  NoDup (nids_f d) -> lookup r d = Some rn -> ~ In a (nids rn) ->
  nextSibling a d = None -> nextSibling a (remove_f r d) = None.
Proof.
  intros Hnd Hl Ha Hn.
  assert (Har : a <> r).
  { intros E. apply Ha. apply lookup_in in Hl. destruct Hl as [_ Hr].
    rewrite E, <- Hr, nids_children. now left. }
  unfold nextSibling in *.
  rewrite (siblings_remove a r d Har
             (clear_of_node _ r rn d Hnd Hl (no_child_inside a rn Ha))).
  rewrite (after_remove_f a r _ Har).
  destruct (after a (siblings a d)) as [|y rest]; [reflexivity|discriminate].
Qed.

(** The header container is there and holds no protect anchor: the repair
    puts the icon at the end of the container. *)
Theorem repairExisting_appends (s : state) (i sc : nat) :
  wf_state s = true ->
  getElementById ICON_ID (doc s) = Some i ->
  querySelector container_sel (doc s) = Some sc ->
  querySelectorIn sc protect_sel (doc s) = None ->
  getElementById ICON_ID (repairExisting (doc s)) = Some i /\
  parentElement i (repairExisting (doc s)) = Some sc /\
  nextSibling i (repairExisting (doc s)) = None.
Proof.
  intros Hwf Hi Hsc Hp. apply wf_state_spec in Hwf. destruct Hwf as [Hs [Hc Hok]].
  set (d := doc s) in *. set (f := fresh s) in *.
  pose proof Hs as [Hnd _].
  destruct (the_icon d i Hnd Hi) as [w [Hlw [Hwin [Hwi Hwn]]]].
  destruct (querySelector_elem _ d sc Hnd Hsc) as [e [cs [Hlsc [Hscin Hm]]]].
  assert (Hscw : ~ In sc (nids w)).
  { exact (host_outside_icon d Hnd Hok w (Elem sc e cs) container_sel
             host_sel_container Hwin Hwi Hscin Hm). }
  (* the identifier stays where it is *)
  split.
  { destruct (repairExisting_rest d f i Hs Hi) as [_ [w' [Hl Hw']]].
    destruct (repairExisting_sound d f Hs) as [_ Hc'].
    apply lookup_in in Hl. destruct Hl as [Hin Hn]. rewrite <- Hn.
    apply getElementById_of; [lia|exact Hin|exact Hw']. }
  (* the move *)
  set (d0 := remove_f i d).
  set (d1 := insert_f sc w None d0).
  assert (Hmove : repair_move i sc None d = Ok d1).
  { unfold repair_move, moveBefore. rewrite Hlw. unfold insertBefore. rewrite Hlsc.
    assert (X : existsb (Nat.eqb sc) (nids w) = false).
    { apply Bool.not_true_iff_false. intros X. now apply existsb_eqb_In in X. }
    rewrite X. cbv beta iota zeta. now rewrite Hwn. }
  assert (Hlw2 : lookup (nid w) d = Some w) by now rewrite Hwn.
  assert (Hins : insertBefore sc w None d = Ok d1).
  { unfold repair_move, moveBefore in Hmove. now rewrite Hlw in Hmove. }
  destruct (insertBefore_move_labels sc w None d d1 Hnd Hlw2 Hins) as [Hperm [Hin1 _]].
  pose proof (sound_perm _ _ f Hperm Hs) as Hs1.
  destruct (remove_sound i w d f Hs Hlw) as [Hs0 _].
  assert (Hl0 : lookup sc d0 = Some (Elem sc e (remove_f i cs))).
  { unfold d0. now rewrite (lookup_remove i sc w d Hnd Hlw Hscw), Hlsc. }
  assert (Hl1 : lookup sc d1 = Some (Elem sc e (remove_f i cs ++ [w]))).
  { unfold d1. rewrite (lookup_insert sc sc w None d0 Hscw), Hl0. unfold option_map.
    rewrite insert_at_elem, Nat.eqb_refl, insert_f_fresh; [reflexivity|].
    apply lookup_in in Hl0. destruct Hl0 as [Hl0 _].
    pose proof (NoDup_sub d0 _ (proj1 Hs0) Hl0) as Hn.
    apply NoDup_nids_children in Hn. tauto. }
  assert (Hcin : In (Elem sc e (remove_f i cs ++ [w])) (all_nodes d1)).
  { apply lookup_in in Hl1. tauto. }
  assert (Hwc : In w (children (Elem sc e (remove_f i cs ++ [w])))).
  { simpl. apply in_or_app. right. now left. }
  destruct (child_facts d1 _ w (proj1 Hs1) Hcin Hwc) as [Hpe [Hsib _]].
  rewrite Hwn in Hpe, Hsib. simpl in Hpe.
  assert (Hnext : nextSibling i d1 = None).
  { unfold nextSibling. rewrite Hsib. simpl children.
    rewrite (after_last i w _ Hwn); [reflexivity|].
    intros X. apply in_map_iff in X. destruct X as [y [Ey Hy]].
    apply (remove_f_gone i w d Hnd Hlw i).
    - rewrite <- Hwn, nids_children. now left.
    - apply lookup_in in Hl0. destruct Hl0 as [Hl0 _].
      pose proof (in_nids_f d0 y (children_in_all_nodes d0 _ y Hl0 Hy)) as Hy0.
      now rewrite Ey in Hy0. }
  assert (E : repairExisting d = scrub i d1).
  { unfold repairExisting. now rewrite Hi, Hsc, Hp, Hmove. }
  rewrite E. pose proof (lookup_unique d1 w (proj1 Hs1) Hin1) as Hl1w.
  rewrite Hwn in Hl1w.
  destruct (scrub_cases i d1 (proj1 Hs1))
    as [->|[child [rect [cn [rn [Q1 [Q2 [Lc [Lr [Hrn ->]]]]]]]]]].
  - split; [exact Hpe|exact Hnext].
  - destruct (querySelectorIn_node i child img_or_svg_sel d1 (proj1 Hs1) Q1)
      as [nc [xc [Hlc [_ [_ [Hxc [_ [Hxcn [_ Hxcl]]]]]]]]].
    rewrite Hl1w in Hlc. inversion Hlc; subst nc. clear Hlc.
    rewrite Lc in Hxcl. inversion Hxcl; subst xc. clear Hxcl.
    assert (Hir : ~ In i (nids rn)).
    { intros X. pose proof (NoDup_sub d1 w (proj1 Hs1) Hin1) as Hn.
      apply NoDup_nids_children in Hn. rewrite Hwn in Hn. apply (proj2 Hn).
      unfold nids in X. apply in_map_iff in X. destruct X as [y [Ey Hy]].
      rewrite <- Ey. apply in_nids_f.
      apply (all_nodes_trans _ cn y Hxc). apply (preorder_trans cn rn y); [|exact Hy].
      rewrite preorder_children. now right. }
    split.
    + now rewrite (parentElement_remove i rect rn d1 (proj1 Hs1) Lr Hir).
    + exact (last_sibling_remove i rect rn d1 (proj1 Hs1) Lr Hir Hnext).
Qed.

(** * The container found by the heuristic *)

Lemma ancestors_go_holds (k j : nat) (cs : list node) (up : list nat) :
  Forall (fun c => forall up, ancestors_in k c = Some up ->
                   In k (nids c) /\
                   forall i, In i up ->
                             exists e cs', In (Elem i e cs') (preorder c) /\
                                           In k (nids_f cs')) cs ->
  (fix go (l : list node) : option (list nat) :=
     match l with
     | [] => None
     | c :: r =>
         match ancestors_in k c with
         | Some up => Some (up ++ [j])
         | None => go r
         end
     end) cs = Some up ->
  In k (nids_f cs) /\
  forall i, In i up ->
            i = j \/ exists e' cs', In (Elem i e' cs') (all_nodes cs) /\
                                    In k (nids_f cs').
Proof.
  induction 1 as [|c cs Hc _ IH]; intros H; [discriminate|].
  destruct (ancestors_in k c) as [up'|] eqn:E.
  - inversion H; subst up. destruct (Hc up' eq_refl) as [Hk Hup]. split.
    + rewrite nids_f_cons. apply in_or_app. now left.
    + intros i Hi. apply in_app_or in Hi. destruct Hi as [Hi|[<-|[]]]; [|now left].
      right. destruct (Hup i Hi) as [e' [cs' [X Y]]]. exists e', cs'.
      split; [|exact Y]. rewrite all_nodes_cons. apply in_or_app. now left.
  - destruct (IH H) as [Hk Hup]. split.
    + rewrite nids_f_cons. apply in_or_app. now right.
    + intros i Hi. destruct (Hup i Hi) as [->|[e' [cs' [X Y]]]]; [now left|].
      right. exists e', cs'. split; [|exact Y].
      rewrite all_nodes_cons. apply in_or_app. now right.
Qed.

(** What [ancestors_in] returns are elements above [k]. *)
Lemma ancestors_in_holds (k : nat) (n : node) (up : list nat) :
  ancestors_in k n = Some up ->
  In k (nids n) /\
  forall i, In i up ->
            exists e cs, In (Elem i e cs) (preorder n) /\ In k (nids_f cs).
Proof.
  revert up. induction n as [j data|j e cs IH] using node_ind'; intros up H.
  - simpl in H. destruct (j =? k) eqn:E; inversion H; subst.
    apply Nat.eqb_eq in E. subst. split; [now left|intros i []].
  - simpl in H. destruct (j =? k) eqn:E.
    + inversion H; subst. apply Nat.eqb_eq in E. subst.
      split; [rewrite nids_elem; now left|intros i []].
    + destruct (ancestors_go_holds k j cs up IH H) as [Hk Hup]. split.
      * rewrite nids_elem. now right.
      * intros i Hi. destruct (Hup i Hi) as [->|[e' [cs' [X Y]]]].
        -- exists e, cs. split; [apply preorder_self|exact Hk].
        -- exists e', cs'. split; [rewrite preorder_elem; now right|exact Y].
Qed.

Lemma ancestors_holds (k : nat) (d : list node) (i : nat) :
  In i (ancestors k d) ->
  exists e cs, In (Elem i e cs) (all_nodes d) /\ In k (nids_f cs).
Proof.
  induction d as [|n d IH]; [contradiction|]. simpl ancestors.
  destruct (ancestors_in k n) as [up|] eqn:E; intros Hi.
  - destruct (ancestors_in_holds k n up E) as [_ Hup].
    destruct (Hup i Hi) as [e [cs [X Y]]]. exists e, cs. split; [|exact Y].
    rewrite all_nodes_cons. apply in_or_app. now left.
  - destruct (IH Hi) as [e [cs [X Y]]]. exists e, cs. split; [|exact Y].
    rewrite all_nodes_cons. apply in_or_app. now right.
Qed.

Lemma ancestors_go_found (k j : nat) (cs : list node) :
  Forall (fun c => In k (nids c) -> ancestors_in k c <> None) cs ->
  In k (nids_f cs) ->
  exists up',
    (fix go (l : list node) : option (list nat) :=
       match l with
       | [] => None
       | c :: r =>
           match ancestors_in k c with
           | Some up => Some (up ++ [j])
           | None => go r
           end
       end) cs = Some (up' ++ [j]).
Proof.
  induction 1 as [|c cs Hc _ IH]; intros Hk; [contradiction|].
  destruct (ancestors_in k c) as [up'|] eqn:E; [eauto|].
  apply IH. rewrite nids_f_cons in Hk. apply in_app_or in Hk.
  destruct Hk as [Hk|Hk]; [|exact Hk]. now destruct (Hc Hk).
Qed.

Lemma ancestors_in_found (k : nat) (n : node) :
  In k (nids n) -> ancestors_in k n <> None.
Proof.
  induction n as [j data|j e cs IH] using node_ind'; intros Hk.
  - simpl in *. destruct Hk as [->|[]]. now rewrite Nat.eqb_refl.
  - simpl. destruct (j =? k) eqn:E; [discriminate|].
    rewrite nids_elem in Hk. destruct Hk as [->|Hk]; [now rewrite Nat.eqb_refl in E|].
    destruct (ancestors_go_found k j cs IH Hk) as [up' ->]. discriminate.
Qed.

Lemma ancestors_go_complete (k j : nat) (cs : list node) (x : node) (i : nat) :
  Forall (fun c => NoDup (nids c) -> In x (preorder c) ->
                   exists up, ancestors_in k c = Some up /\ In i up) cs ->
  NoDup (nids_f cs) -> In x (all_nodes cs) -> In k (nids x) ->
  exists up,
    (fix go (l : list node) : option (list nat) :=
       match l with
       | [] => None
       | c :: r =>
           match ancestors_in k c with
           | Some up => Some (up ++ [j])
           | None => go r
           end
       end) cs = Some up /\ In i up.
Proof.
  induction 1 as [|c cs Hc _ IH]; intros Hnd Hx Hk; [contradiction|].
  rewrite nids_f_cons in Hnd. rewrite all_nodes_cons in Hx.
  apply in_app_or in Hx. destruct Hx as [Hx|Hx].
  - destruct (Hc (NoDup_app_l _ _ Hnd) Hx) as [up [-> Hi]].
    exists (up ++ [j]). split; [reflexivity|]. apply in_or_app. now left.
  - destruct (ancestors_in k c) as [up'|] eqn:E.
    + exfalso. destruct (ancestors_in_holds k c up' E) as [Hkc _].
      apply (NoDup_app_disjoint _ _ k Hnd Hkc). exact (nids_sub cs x Hx k Hk).
    + exact (IH (NoDup_app_r _ _ Hnd) Hx Hk).
Qed.

Lemma ancestors_in_complete (k : nat) (n : node) (i : nat) e0 cs0 :
  In k (nids_f cs0) -> NoDup (nids n) -> In (Elem i e0 cs0) (preorder n) ->
  exists up, ancestors_in k n = Some up /\ In i up.
Proof.
  intros Hk. induction n as [j data|j e cs IH] using node_ind'; intros Hnd Hx.
  - destruct Hx as [Hx|[]]. discriminate.
  - assert (Hkx : In k (nids (Elem i e0 cs0))) by (rewrite nids_elem; now right).
    pose proof (NoDup_nids_children _ Hnd) as [Hndc Hj]. simpl in Hndc, Hj.
    rewrite preorder_elem in Hx. destruct Hx as [Hx|Hx].
    + inversion Hx; subst i e0 cs0. simpl.
      destruct (j =? k) eqn:E; [apply Nat.eqb_eq in E; subst; contradiction|].
      assert (F : Forall (fun c => In k (nids c) -> ancestors_in k c <> None) cs).
      { apply Forall_forall. intros c _. apply ancestors_in_found. }
      destruct (ancestors_go_found k j cs F Hk) as [up' ->].
      exists (up' ++ [j]). split; [reflexivity|]. apply in_or_app. right. now left.
    + simpl. destruct (j =? k) eqn:E.
      { apply Nat.eqb_eq in E. subst. exfalso. apply Hj.
        exact (nids_sub cs _ Hx k Hkx). }
      exact (ancestors_go_complete k j cs _ i IH Hndc Hx Hkx).
Qed.

(** Every element above [k] is among [ancestors k]. *)
Lemma ancestors_complete (k : nat) (d : list node) (i : nat) e0 cs0 :
  NoDup (nids_f d) -> In (Elem i e0 cs0) (all_nodes d) -> In k (nids_f cs0) ->
  In i (ancestors k d).
Proof.
  intros Hnd Hx Hk.
  assert (Hkx : In k (nids (Elem i e0 cs0))) by (rewrite nids_elem; now right).
  induction d as [|n d IH]; [contradiction|].
  rewrite nids_f_cons in Hnd. rewrite all_nodes_cons in Hx. simpl ancestors.
  apply in_app_or in Hx. destruct Hx as [Hx|Hx].
  - destruct (ancestors_in_complete k n i e0 cs0 Hk (NoDup_app_l _ _ Hnd) Hx)
      as [up [-> Hi]]. exact Hi.
  - destruct (ancestors_in k n) as [up'|] eqn:E.
    + exfalso. destruct (ancestors_in_holds k n up' E) as [Hkn _].
      apply (NoDup_app_disjoint _ _ k Hnd Hkn). exact (nids_sub d _ Hx k Hkx).
    + exact (IH (NoDup_app_r _ _ Hnd) Hx).
Qed.

Lemma preorder_split_aux (m : node) (cs : list node) :
  Forall (fun c => In m (preorder c) ->
                   exists l1 l2, preorder c = l1 ++ preorder m ++ l2) cs ->
  In m (all_nodes cs) -> exists l1 l2, all_nodes cs = l1 ++ preorder m ++ l2.
Proof.
  induction 1 as [|c cs Hc _ IH]; intros Hm; [contradiction|].
  rewrite all_nodes_cons in *. apply in_app_or in Hm. destruct Hm as [Hm|Hm].
  - destruct (Hc Hm) as [l1 [l2 ->]]. exists l1, (l2 ++ all_nodes cs).
    now rewrite <- !app_assoc.
  - destruct (IH Hm) as [l1 [l2 ->]]. exists (preorder c ++ l1), l2.
    now rewrite <- !app_assoc.
Qed.

Lemma preorder_split (m n : node) :
  In m (preorder n) -> exists l1 l2, preorder n = l1 ++ preorder m ++ l2.
Proof.
  induction n as [j data|j e cs IH] using node_ind'; intros Hm.
  - destruct Hm as [<-|[]]. exists [], []. reflexivity.
  - rewrite preorder_elem in Hm. destruct Hm as [<-|Hm].
    + exists [], []. now rewrite app_nil_r.
    + destruct (preorder_split_aux m cs IH Hm) as [l1 [l2 E]].
      exists (Elem j e cs :: l1), l2. rewrite preorder_elem, E. reflexivity.
Qed.

(** The nodes of a subtree are consecutive in document order. *)
Lemma all_nodes_split (m : node) (d : list node) :
  In m (all_nodes d) -> exists l1 l2, all_nodes d = l1 ++ preorder m ++ l2.
Proof.
  apply preorder_split_aux. apply Forall_forall. intros c _. apply preorder_split.
Qed.

(** The first match of the document, when it lies below [m], is the first
    match below [m]. *)
Lemma first_node_inside (P : node -> bool) (d : list node) (m x : node) :
  NoDup (nids_f d) -> In m (all_nodes d) ->
  first_node P d = Some x -> In (nid x) (nids_f (children m)) ->
  first_node P (children m) = Some x.
Proof.
  intros Hnd Hm Hf Hx. destruct (all_nodes_split m d Hm) as [l1 [l2 E]].
  unfold first_node in *. unfold nids_f in Hnd. rewrite E in Hf, Hnd.
  rewrite preorder_children in Hf, Hnd.
  rewrite !map_app in Hnd. simpl map in Hnd.
  fold (nids_f (children m)) in Hnd.
  assert (H1 : ~ In (nid x) (map nid l1)).
  { intros X. apply (NoDup_app_disjoint _ _ _ Hnd X). right.
    apply in_or_app. now left. }
  pose proof (NoDup_app_r _ _ Hnd) as Hnd2.
  assert (H2 : nid m <> nid x).
  { intros X. apply NoDup_cons_iff in Hnd2. apply (proj1 Hnd2).
    rewrite X. apply in_or_app. now left. }
  assert (H3 : ~ In (nid x) (map nid l2)).
  { intros X. apply NoDup_cons_iff in Hnd2. destruct Hnd2 as [_ Hnd2].
    exact (NoDup_app_disjoint _ _ _ Hnd2 Hx X). }
  rewrite find_app in Hf. destruct (find P l1) as [y|] eqn:F1.
  { inversion Hf; subst y. apply find_in in F1. exfalso. apply H1.
    apply in_map. tauto. }
  simpl in Hf. destruct (P m).
  { inversion Hf; subst. now contradiction H2. }
  rewrite find_app in Hf. destruct (find P (all_nodes (children m))) as [y|]; [exact Hf|].
  apply find_in in Hf. exfalso. apply H3. apply in_map. tauto.
Qed.

Lemma contains_in (d : list node) (c k : nat) (nc : node) :
  lookup c d = Some nc -> contains c k d = true -> In k (nids nc).
Proof.
  intros Hl H. unfold contains in H. rewrite Hl in H. now apply existsb_eqb_In.
Qed.

Lemma in_contains (d : list node) (c k : nat) (nc : node) :
  lookup c d = Some nc -> In k (nids nc) -> contains c k d = true.
Proof.
  intros Hl H. unfold contains. rewrite Hl. now apply existsb_eqb_In.
Qed.

(** Without the header container the heuristic still finds a place beside
    the protect anchor.  The page has no icon yet, both anchors are in the
    body, and the protect anchor is not wrapped around the network anchor.
    The container is then an element that holds both anchors, and
    [createIcon] returns with the icon as the next sibling of the protect
    anchor. *)
Theorem createIcon_heuristic (s : state) (link : option jsstring) (now : Z)
  (n p b : nat) :
  wf_state s = true ->
  getElementById ICON_ID (doc s) = None ->
  debounced now s = false ->
  querySelector container_sel (doc s) = None ->
  querySelector network_sel (doc s) = Some n ->
  querySelector protect_sel (doc s) = Some p ->
  contains p n (doc s) = false ->
  body (doc s) = Some b ->
  contains b n (doc s) = true ->
  contains b p (doc s) = true ->
  exists s' c,
    createIcon link now s = Returned s' /\
    resolve_container (doc s) = Some c /\
    contains c n (doc s) = true /\
    contains c p (doc s) = true /\
    count_icons (doc s') = 1 /\
    getElementById ICON_ID (doc s') = Some (fresh s + 3) /\
    nextSibling p (doc s') = Some (fresh s + 3).
Proof.
  intros Hwf Hi Hg Hsc Hn Hp Hpn Hb Hbn Hbp. pose proof Hwf as Hwf'.
  apply wf_state_spec in Hwf'. destruct Hwf' as [Hs [Hc _]].
  set (d := doc s) in *. pose proof Hs as [Hnd _].
  assert (Hrm : removeIcon d = d) by (unfold removeIcon; now rewrite Hi).
  assert (Hc0 : count_icons d = 0) by now apply getElementById_none.
  destruct (body_elem d b Hnd Hb) as [eb [csb [Hlb [Hbin Hbs]]]].
  destruct (querySelector_elem _ d n Hnd Hn) as [en [csn [Hln [Hnin Hns]]]].
  assert (Hbn' : In n (nids_f csb)).
  { pose proof (contains_in d b n _ Hlb Hbn) as X. rewrite nids_elem in X.
    destruct X as [X|X]; [|exact X]. exfalso. subst n.
    rewrite Hlb in Hln. inversion Hln; subst en csn.
    unfold body_sel in Hbs. unfold network_sel, applink_sel in Hns.
    apply andb_true_iff in Hns. destruct Hns as [Ha _]. apply String.eqb_eq in Ha.
    rewrite Ha in Hbs. discriminate. }
  pose proof (ancestors_complete n d b eb csb Hnd Hbin Hbn') as Hanc.
  destruct (find (fun anc => contains anc p d) (ancestors n d)) as [c|] eqn:F.
  2:{ exfalso. pose proof (proj1 (find_none_iff _ _) F b Hanc) as X. simpl in X.
      congruence. }
  pose proof F as F0. apply find_in in F. destruct F as [Hcin Hcp].
  destruct (ancestors_holds n d c Hcin) as [e [cs [Hcd Hcn]]].
  pose proof (lookup_unique d _ Hnd Hcd) as Hlc. simpl in Hlc.
  assert (Hres : resolve_container d = Some c).
  { unfold resolve_container. now rewrite Hsc, Hn, Hp, F0. }
  assert (Hccn : contains c n d = true).
  { apply (in_contains d c n _ Hlc). rewrite nids_elem. now right. }
  assert (Hpc : In p (nids_f cs)).
  { pose proof (contains_in d c p _ Hlc Hcp) as X. rewrite nids_elem in X.
    destruct X as [X|X]; [|exact X]. exfalso. subst c. congruence. }
  assert (Hq : querySelectorIn c protect_sel d = Some p).
  { unfold querySelector in Hp.
    destruct (first_node (matches protect_sel) d) as [x|] eqn:Fx; [|discriminate].
    simpl in Hp. inversion Hp as [Hxp].
    unfold querySelectorIn. rewrite Hlc. unfold querySelector.
    rewrite (first_node_inside _ d (Elem c e cs) x Hnd Hcd Fx); [reflexivity|].
    simpl children. now rewrite Hxp. }
  assert (Hr : resolve_container (removeIcon (doc s)) = Some c).
  { fold d. now rewrite Hrm. }
  destruct (createIcon_places s link now Hwf Hg) as [s' [w [H1 [_ [H2 [H3 _]]]]]].
  { rewrite Hr. discriminate. }
  exists s', c. split; [exact H1|]. split; [exact Hres|]. split; [exact Hccn|].
  split; [exact Hcp|]. split; [exact H2|]. split; [exact H3|].
  rewrite (createIcon_run link now s c Hg Hr) in H1. inversion H1. simpl.
  fold d. rewrite Hrm.
  exact (proj2 (place_protect (runtime s) link (fresh s) _ (build_icon_is_wrapper _ _ _)
                  d Hs Hc0 c p Hq)).
Qed.

(** * A save and the content script *)

Lemma jsstring_eqb_spec (a b : jsstring) : jsstring_eqb a b = true <-> a = b.
Proof.
  revert b. induction a as [|x a IH]; intros [|y b]; simpl; split; intros H;
    try reflexivity; try discriminate.
  - apply andb_true_iff in H. destruct H as [H1 H2].
    apply N.eqb_eq in H1. apply IH in H2. now subst.
  - inversion H; subst. rewrite N.eqb_refl. simpl. now apply IH.
Qed.

(** The listener of [storage.onChanged] looks at the link only.  A save
    that stores the link that is stored already, with whatever delay, goes
    unnoticed: the page, the time stamp and the timers stay, and the new
    delay waits for the next [loadAndCreate].  A save that stores another
    link makes that link, or the default link when it is empty, the
    configured one. *)
Theorem storage_listener (s : state) (old : settings) (l0 input : jsstring)
  (delay : option Q) (now now' : Z) :
  storage s = StorageLive old ->
  driveLink old = Some l0 ->
  (JsString.trim input = l0 ->
   step (ASave input delay now now') s
   = with_storage (StorageLive (save input delay)) s) /\
  (JsString.trim input <> l0 ->
   currentDriveLink (step (ASave input delay now now') s)
   = JsString.or_else (JsString.trim input) DEFAULT_LINK).
Proof.
  intros Hst Hold. simpl step. rewrite Hst, storage_changed_unfold. rewrite Hold.
  simpl driveLink. split; intros H.
  - rewrite (proj2 (jsstring_eqb_spec l0 (JsString.trim input))) by now symmetry.
    reflexivity.
  - destruct (jsstring_eqb l0 (JsString.trim input)) eqn:E.
    + apply jsstring_eqb_spec in E. congruence.
    + simpl negb. cbv iota.
      now rewrite (loadAndCreate_link _ (save input delay)) by reflexivity.
Qed.

(** * start on any page *)

(** [start] gets to the end on whatever page it runs, also on one where
    [createIcon] raises: it returns, and the watcher, the observer and the
    delayed create are set up, after the callback of the store when there
    is a live one. *)
Theorem start_sets_up (s : state) (now now' t : Z) :
  now <> 0%Z -> (now' - now < 500)%Z ->
  exists s' pending,
    start now now' t s
    = (Returned s',
       pending ++ [Watcher; Observer (observer_target (doc s')); DelayedCreate5]) /\
    pending = match storage s with
              | StorageLive _ => [GetCallback]
              | StorageAbsent | StorageThrows => []
              end.
Proof.
  intros Hz Ht. unfold start. cbv zeta.
  change (storage (with_doc (repairExisting (doc s)) s)) with (storage s).
  set (s1 := with_doc (repairExisting (doc s)) s).
  assert (L : storage s1 = storage s) by reflexivity.
  destruct (storage s) as [|items|] eqn:St.
  - assert (R : exists s2, loadAndCreate now now' s1 = Returned s2).
    { unfold loadAndCreate. rewrite L. now apply apply_settings_returns. }
    destruct R as [s2 ->]. eexists _, []. split; reflexivity.
  - eexists _, [GetCallback]. split; reflexivity.
  - assert (R : exists s2, loadAndCreate now now' s1 = Returned s2).
    { unfold loadAndCreate. rewrite L. now apply apply_settings_returns. }
    destruct R as [s2 ->]. eexists _, []. split; reflexivity.
Qed.

(** * A delayed create *)

(** A timer of [loadAndCreate] that fires is gone from the queue, and on a
    page with a body it puts the icon there anew with the link it was set
    up with: a click opens that link, or the default link when it is
    empty, whatever link is configured by then. *)
Theorem fire_timer_recreates (s : state) (i : nat) (l cur : jsstring) (ms : Q)
  (now : Z) (b : nat) :
  wf_state s = true ->
  body (doc s) = Some b ->
  debounced now s = false ->
  nth_error (timers s) i = Some (DelayedCreate l ms) ->
  exists k,
    timers (fire_timer i now s) = firstn i (timers s) ++ skipn (S i) (timers s) /\
    count_icons (doc (fire_timer i now s)) = 1 /\
    getElementById ICON_ID (doc (fire_timer i now s)) = Some k /\
    click k (with_currentDriveLink cur (fire_timer i now s))
    = [PreventDefault; WindowOpen (JsString.or_else l DEFAULT_LINK) "_blank"].
Proof.
  intros Hwf Hb Hg Hn. unfold fire_timer. rewrite Hn.
  set (s0 := with_timers (firstn i (timers s) ++ skipn (S i) (timers s)) s).
  assert (Hr : resolve_container (removeIcon (doc s0)) <> None).
  { apply (container_after_removal s0 Hwf). left. simpl. rewrite Hb. discriminate. }
  destruct (createIcon_places s0 (@Some JsString.t (JsString.or_else l DEFAULT_LINK))
              now Hwf Hg Hr)
    as [s1 [w [H1 [_ [H2 [H3 [H4 [H5 [_ [_ [_ [_ [_ H6]]]]]]]]]]]]].
  rewrite H1. simpl state_of. exists (fresh s + 3).
  split; [exact H6|]. split; [exact H2|]. split; [exact H3|].
  assert (H4' : lookup (fresh s + 3) (doc (with_currentDriveLink cur s1)) = Some w)
    by exact H4.
  rewrite (click_wrapper _ _ _ _ w _ H4' H5). unfold click_target.
  now rewrite (or_else_truthy _ _ (truthy_or_default l)).
Qed.

(** * The theorems on the example pages *)

Lemma run_reachable (l : list action) (s0 s : state) :
  reachable s0 s -> reachable s0 (run l s).
Proof.
  revert s. induction l as [|a l IH]; intros s H; [exact H|].
  simpl. apply IH. now constructor.
Qed.

(** The console through a creation, a repair, a removal, the observer, the
    poll, a timer and a save. *)
Lemma singleton_invariant_witness :
  count_icons
    (doc (run [ACreate None 1000; ARepair; ARemove; AObserver 3000 3000 3001;
               APoll 4000; ATimer 0 9000; ASave Page.files None 9500 9501]
              (Page.start Page.console 9 (StorageLive (mkSettings None None)))))
  <= 1.
Proof.
  apply (singleton_invariant
           (Page.start Page.console 9 (StorageLive (mkSettings None None)))).
  - reflexivity.
  - vm_compute. lia.
  - apply run_reachable. constructor.
Defined.

(** Two calls on the console, 500 ms apart. *)
Lemma createIcon_twice_witness :
  exists s1 s2,
    createIcon None 1000 (Page.start Page.console 9 StorageAbsent) = Returned s1 /\
    createIcon (Some Page.files) 1500 s1 = Returned s2 /\
    count_icons (doc s2) = 1.
Proof.
  apply (createIcon_twice (Page.start Page.console 9 StorageAbsent)
           None (Some Page.files) 1000 1500 3).
  - reflexivity.
  - reflexivity.
  - unfold last_or_zero, Page.start. simpl. lia.
  - lia.
Defined.

(** A document without body and without header container: both calls
    raise, and no icon is in the document after them. *)
Lemma createIcon_twice_no_body :
  wf_state (Page.start Page.bare 2 StorageAbsent) = true /\
  debounced 2000 (state_of (createIcon None 1000 (Page.start Page.bare 2 StorageAbsent)))
  = false /\
  count_icons
    (doc (state_of
            (createIcon None 2000
               (state_of (createIcon None 1000 (Page.start Page.bare 2 StorageAbsent))))))
  = 0.
Proof. repeat split; vm_compute; reflexivity. Qed.

(** On the console the wrapper, node 12, comes right after the protect
    anchor, node 6. *)
Lemma createIcon_protect_witness :
  exists s',
    createIcon None 1000 (Page.start Page.console 9 StorageAbsent) = Returned s' /\
    count_icons (doc s') = 1 /\
    getElementById ICON_ID (doc s') = Some 12 /\
    nextSibling 6 (doc s') = Some 12.
Proof.
  apply (createIcon_protect (Page.start Page.console 9 StorageAbsent) None 1000 4 6);
    reflexivity.
Defined.

(** The network anchor inside a [div] of the body: the wrapper, node 13,
    follows that [div], node 8. *)
Lemma createIcon_fallbacks_witness :
  exists s',
    createIcon None 1000 (Page.start Page.network_only 10 StorageAbsent) = Returned s' /\
    count_icons (doc s') = 1 /\
    getElementById ICON_ID (doc s') = Some 13 /\
    (forall n, querySelectorIn 3 network_sel Page.network_only = Some n ->
       exists host,
         parentElement host (doc s') = Some 3 /\
         contains host n (doc s') = true /\
         nextElementSibling host (doc s') = Some 13) /\
    (querySelectorIn 3 network_sel Page.network_only = None ->
       parentElement 13 (doc s') = Some 3 /\
       nextSibling 13 (doc s') = None).
Proof.
  apply (createIcon_fallbacks (Page.start Page.network_only 10 StorageAbsent) None 1000 3).
  - reflexivity.
  - reflexivity.
  - reflexivity.
  - right. split; reflexivity.
Defined.

(** The network anchor, node 5, is in the document and outside the header
    container, node 4: the wrapper, node 9, becomes the only child of the
    container, and the anchor, a child of the body, has no element after
    it.  And on a document with neither anchor and no body the call
    raises. *)
Lemma createIcon_stray_network :
  (querySelector protect_sel Page.stray = None /\
   querySelector network_sel Page.stray = Some 5 /\
   exists s',
     createIcon None 1000 (Page.start Page.stray 6 StorageAbsent) = Returned s' /\
     getElementById ICON_ID (doc s') = Some 9 /\
     parentElement 9 (doc s') = Some 4 /\
     siblings 9 (doc s') = [build_icon RuntimeAbsent None 6] /\
     parentElement 5 (doc s') = Some 3 /\
     nextElementSibling 5 (doc s') = None) /\
  (querySelector protect_sel Page.bare = None /\
   querySelector network_sel Page.bare = None /\
   exists s', createIcon None 1000 (Page.start Page.bare 2 StorageAbsent) = Threw s').
Proof.
  split.
  - split; [reflexivity|]. split; [reflexivity|].
    eexists. split; [reflexivity|]. repeat split; vm_compute; reflexivity.
  - split; [reflexivity|]. split; [reflexivity|]. eexists. reflexivity.
Qed.

(** No body and no header container: the call raises, the time stamp is
    set and nothing was placed. *)
Lemma createIcon_throws_no_body :
  exists s',
    createIcon (Some Page.files) 1000 (Page.start Page.bare 2 StorageAbsent) = Threw s' /\
    last s' = Some 1000%Z /\
    getElementById ICON_ID (doc s') = None.
Proof. eexists. split; [reflexivity|]. split; reflexivity. Qed.

(** The icon of [Page.fallen], node 30, hangs on the body, node 3; the
    repair puts it after the protect anchor, node 6, in the header,
    node 4. *)
Lemma repairExisting_converges_witness :
  (body Page.fallen = Some 3 /\ parentElement 30 Page.fallen = Some 3) /\
  getElementById ICON_ID (repairExisting Page.fallen) = Some 30 /\
  nextSibling 6 (repairExisting Page.fallen) = Some 30 /\
  contains 4 30 (repairExisting Page.fallen) = true.
Proof.
  split; [split; reflexivity|].
  apply (repairExisting_converges (Page.start Page.fallen 33 StorageAbsent) 30 4 6);
    reflexivity.
Defined.

(** A link typed with a space before it: what is stored and loaded is the
    link without the space. *)
Lemma save_trims :
  options_load (save (JsString.lit " https://files.example.org/x") None) = Page.files /\
  Page.files <> JsString.lit " https://files.example.org/x" /\
  currentDriveLink
    (state_of
       (loadAndCreate 1000 1001
          (Page.start Page.console 9
             (StorageLive (save (JsString.lit " https://files.example.org/x") None)))))
  = Page.files.
Proof.
  split; [reflexivity|]. split; [|reflexivity].
  intros H. vm_compute in H. discriminate H.
Qed.

(** A click on the icon of the console, created without a link, after the
    configured link became [Page.other]. *)
Lemma click_placed_witness :
  exists s',
    createIcon None 1000 (Page.start Page.console 9 StorageAbsent) = Returned s' /\
    getElementById ICON_ID (doc s') = Some 12 /\
    click 12 (with_currentDriveLink Page.other s')
    = [PreventDefault; WindowOpen Page.other "_blank"].
Proof.
  apply (click_placed (Page.start Page.console 9 StorageAbsent) None 1000 Page.other 4);
    reflexivity.
Defined.

(** The stored link is [Page.files] when the script places the icon at
    1000.  A save of [Page.other] at 1100 makes that the configured link;
    the [loadAndCreate] it triggers is debounced, the icon stays, and a
    click on it still opens [Page.files]. *)
Lemma click_stale_link :
  getElementById ICON_ID
    (doc (run [AObserver 1000 1000 1001; ASave Page.other (Some 0%Q) 1100 1101]
              (Page.start Page.console 9
                 (StorageLive (mkSettings (Some Page.files) (Some 0%Q))))))
  = Some 12 /\
  currentDriveLink
    (run [AObserver 1000 1000 1001; ASave Page.other (Some 0%Q) 1100 1101]
         (Page.start Page.console 9
            (StorageLive (mkSettings (Some Page.files) (Some 0%Q)))))
  = Page.other /\
  click 12
    (run [AObserver 1000 1000 1001; ASave Page.other (Some 0%Q) 1100 1101]
         (Page.start Page.console 9
            (StorageLive (mkSettings (Some Page.files) (Some 0%Q)))))
  = [PreventDefault; WindowOpen Page.files "_blank"].
Proof. repeat split; vm_compute; reflexivity. Qed.



(** A second call 499 ms after the first. *)
Lemma createIcon_within_window_witness :
  createIcon (Some Page.other) 1499
    (state_of (createIcon None 1000 (Page.start Page.console 9 StorageAbsent)))
  = Returned (state_of (createIcon None 1000 (Page.start Page.console 9 StorageAbsent))).
Proof.
  apply (createIcon_within_window (Page.start Page.console 9 StorageAbsent)
           None (Some Page.other) 1000 1499).
  - reflexivity.
  - lia.
  - lia.
Defined.

(** Calls at 1000, 1400 and 1600: the second is suppressed, and the third,
    200 ms after it, runs all the same; it takes the icon, node 12, out and
    puts a new one, node 16, with the other link in. *)
Lemma createIcon_after_suppressed_call :
  createIcon None 1400
    (state_of (createIcon None 1000 (Page.start Page.console 9 StorageAbsent)))
  = Returned (state_of (createIcon None 1000 (Page.start Page.console 9 StorageAbsent))) /\
  getElementById ICON_ID
    (doc (state_of (createIcon None 1000 (Page.start Page.console 9 StorageAbsent))))
  = Some 12 /\
  getElementById ICON_ID
    (doc (run [ACreate None 1000; ACreate None 1400; ACreate (Some Page.other) 1600]
              (Page.start Page.console 9 StorageAbsent)))
  = Some 16 /\
  lookup 12
    (doc (run [ACreate None 1000; ACreate None 1400; ACreate (Some Page.other) 1600]
              (Page.start Page.console 9 StorageAbsent)))
  = None /\
  doc (run [ACreate None 1000; ACreate None 1400; ACreate (Some Page.other) 1600]
           (Page.start Page.console 9 StorageAbsent))
  <> doc (run [ACreate None 1000; ACreate None 1400]
              (Page.start Page.console 9 StorageAbsent)).
Proof.
  split; [vm_compute; reflexivity|]. split; [vm_compute; reflexivity|].
  split; [vm_compute; reflexivity|]. split; [vm_compute; reflexivity|].
  intros H. vm_compute in H. discriminate H.
Qed.

(** From the page with the fallen icon through a repair, a creation, a
    removal and the poll. *)
Lemma wf_state_invariant_witness :
  wf_state (run [ARepair; ACreate (Some Page.files) 1000; ARemove; APoll 2000]
                (Page.start Page.fallen 33 StorageAbsent))
  = true.
Proof.
  apply (wf_state_invariant (Page.start Page.fallen 33 StorageAbsent)).
  - reflexivity.
  - apply run_reachable. constructor.
Defined.

(** A delay saved as 0. *)
Lemma saved_zero_delay_witness :
  options_load_delay (save Page.files (Some 0%Q)) = 5%Q /\
  timers (state_of (loadAndCreate 1000 1001
                      (with_storage (StorageLive (save Page.files (Some 0%Q)))
                         (Page.start Page.console 9 StorageAbsent))))
  = [].
Proof.
  apply (saved_zero_delay (Page.start Page.console 9 StorageAbsent) Page.files
           (Some 0%Q) 1000 1001).
  reflexivity.
Defined.

(** [loadAndCreate] on the document without body, where [createIcon]
    raises: with the retry 1 ms later it returns, and with the retry 600 ms
    later it raises. *)
Lemma loadAndCreate_returns_witness :
  (exists s',
     loadAndCreate 1000 1001 (Page.start Page.bare 2 StorageAbsent) = Returned s' /\
     doc s' = Page.bare /\ last s' = Some 1000%Z) /\
  (exists s2, loadAndCreate 1000 1600 (Page.start Page.bare 2 StorageAbsent) = Threw s2).
Proof.
  split.
  - destruct (loadAndCreate_returns (Page.start Page.bare 2 StorageAbsent)
                (state_of (createIcon (Some DEFAULT_LINK) 1000
                             (Page.start Page.bare 2 StorageAbsent)))
                1000 1001) as [_ [_ [H _]]]; [reflexivity|].
    destruct H as [_ H]; [lia|lia|exact H].
  - destruct (loadAndCreate_returns (Page.start Page.bare 2 StorageAbsent)
                (state_of (createIcon (Some DEFAULT_LINK) 1000
                             (Page.start Page.bare 2 StorageAbsent)))
                1000 1600) as [_ [_ [_ H]]]; [reflexivity|].
    destruct H as [_ H]; [right; lia|]. apply H. reflexivity.
Defined.

(** The observer 300 ms after a creation on the console. *)
Lemma observer_quiet_witness :
  state_of (observer 1300 1300 1301
              (state_of (createIcon None 1000 (Page.start Page.console 9 StorageAbsent))))
  = state_of (createIcon None 1000 (Page.start Page.console 9 StorageAbsent)).
Proof.
  apply (observer_quiet (Page.start Page.console 9 StorageAbsent) None 1000 1300 1300 1301).
  - reflexivity.
  - lia.
Defined.

(** A repair of the page with the fallen icon, then a removal. *)
Lemma repairExisting_removeIcon_witness :
  removeIcon (repairExisting Page.fallen) = removeIcon Page.fallen.
Proof.
  apply (repairExisting_removeIcon (Page.start Page.fallen 33 StorageAbsent)).
  reflexivity.
Defined.

(** A creation on the page with the fallen icon, then a removal. *)
Lemma createIcon_removeIcon_witness :
  removeIcon
    (doc (state_of (createIcon (Some Page.files) 1000
                      (Page.start Page.fallen 33 StorageAbsent))))
  = removeIcon Page.fallen.
Proof.
  apply (createIcon_removeIcon (Page.start Page.fallen 33 StorageAbsent)
           (Some Page.files) 1000).
  reflexivity.
Defined.

(** The removal of the fallen icon. *)
Lemma removeIcon_removes_witness :
  getElementById ICON_ID (removeIcon Page.fallen) = None /\
  removeIcon (removeIcon Page.fallen) = removeIcon Page.fallen /\
  forall i, getElementById ICON_ID Page.fallen = Some i ->
            exists w, lookup i Page.fallen = Some w /\
                      Permutation (labels Page.fallen)
                                  (labels (removeIcon Page.fallen) ++ labels [w]).
Proof.
  apply (removeIcon_removes Page.fallen 33).
  - reflexivity.
  - vm_compute. lia.
Defined.

(** The observer on the console, five seconds in, with nothing created
    yet and no store. *)
Lemma observer_restores_witness :
  exists s' i,
    observer_callback 5000 5000 5001 (Page.start Page.console 9 StorageAbsent)
    = (Returned s', []) /\
    count_icons (doc s') = 1 /\
    getElementById ICON_ID (doc s') = Some i /\
    click i s' = [PreventDefault; WindowOpen (currentDriveLink s') "_blank"].
Proof.
  apply (observer_restores (Page.start Page.console 9 StorageAbsent) 5000 5000 5001 3).
  - reflexivity.
  - reflexivity.
  - reflexivity.
  - unfold last_or_zero, Page.start. simpl. lia.
  - lia.
Defined.

(** The icon is created at 1000 and taken out again; the poll at 1300
    finds the protect anchor, node 6, and no icon, and stops. *)
Lemma poll_stops_without_icon_witness :
  checkAndCreate 1300
    (step ARemove (step (ACreate None 1000) (Page.start Page.console 9 StorageAbsent)))
  = (true, step ARemove (step (ACreate None 1000) (Page.start Page.console 9 StorageAbsent)))
  /\
  count_icons
    (doc (step ARemove (step (ACreate None 1000) (Page.start Page.console 9 StorageAbsent))))
  = 0.
Proof.
  apply (poll_stops_without_icon
           (step ARemove (step (ACreate None 1000) (Page.start Page.console 9 StorageAbsent)))
           1300 6); reflexivity.
Defined.

(** The start on the console with [Page.files] stored; the answer of the
    store comes 300 ms after the first check of the watcher. *)
Lemma start_live_witness :
  exists s1 s2 i,
    start 1000 1001 1002
      (Page.start Page.console 9 (StorageLive (mkSettings (Some Page.files) (Some 0%Q))))
    = (Returned s1,
       [GetCallback; Watcher; Observer (observer_target (doc s1)); DelayedCreate5]) /\
    getElementById ICON_ID (doc s1) = Some i /\
    nextSibling 6 (doc s1) = Some i /\
    loadAndCreate 1302 1303 s1 = Returned s2 /\
    doc s2 = doc s1 /\
    click i s2 = [PreventDefault; WindowOpen Page.files "_blank"].
Proof.
  apply (start_live
           (Page.start Page.console 9 (StorageLive (mkSettings (Some Page.files) (Some 0%Q))))
           (mkSettings (Some Page.files) (Some 0%Q)) 1000 1001 1002 1302 1303 4 6);
    try reflexivity; lia.
Defined.

(** The repair on the page whose header has no protect anchor: the icon,
    node 30, ends up last in the header, node 4. *)
Lemma repairExisting_appends_witness :
  getElementById ICON_ID (repairExisting Page.no_protect) = Some 30 /\
  parentElement 30 (repairExisting Page.no_protect) = Some 4 /\
  nextSibling 30 (repairExisting Page.no_protect) = None.
Proof.
  apply (repairExisting_appends (Page.start Page.no_protect 33 StorageAbsent) 30 4);
    reflexivity.
Defined.

(** The anchors in a [nav]: the container is that [nav], node 4, and the
    icon, node 12, follows the protect anchor, node 6. *)
Lemma createIcon_heuristic_witness :
  exists s' c,
    createIcon None 1000 (Page.start Page.other_header 9 StorageAbsent) = Returned s' /\
    resolve_container Page.other_header = Some c /\
    contains c 5 Page.other_header = true /\
    contains c 6 Page.other_header = true /\
    count_icons (doc s') = 1 /\
    getElementById ICON_ID (doc s') = Some 12 /\
    nextSibling 6 (doc s') = Some 12.
Proof.
  apply (createIcon_heuristic (Page.start Page.other_header 9 StorageAbsent) None 1000
           5 6 3); reflexivity.
Defined.

(** [Page.files] is stored; a save of the same link with a delay of 3 s,
    and a save of [Page.other]. *)
Lemma storage_listener_witness :
  step (ASave Page.files (Some 3%Q) 2000 2001)
    (Page.start Page.console 9 (StorageLive (mkSettings (Some Page.files) (Some 0%Q))))
  = with_storage (StorageLive (save Page.files (Some 3%Q)))
      (Page.start Page.console 9 (StorageLive (mkSettings (Some Page.files) (Some 0%Q))))
  /\
  currentDriveLink
    (step (ASave Page.other None 2000 2001)
       (Page.start Page.console 9 (StorageLive (mkSettings (Some Page.files) (Some 0%Q)))))
  = Page.other.
Proof.
  split.
  - apply (storage_listener
             (Page.start Page.console 9 (StorageLive (mkSettings (Some Page.files) (Some 0%Q))))
             (mkSettings (Some Page.files) (Some 0%Q)) Page.files Page.files (Some 3%Q)
             2000 2001); reflexivity.
  - apply (storage_listener
             (Page.start Page.console 9 (StorageLive (mkSettings (Some Page.files) (Some 0%Q))))
             (mkSettings (Some Page.files) (Some 0%Q)) Page.files Page.other None
             2000 2001); try reflexivity.
    intros H. vm_compute in H. discriminate H.
Defined.

(** The start on the document without body. *)
Lemma start_sets_up_witness :
  exists s' pending,
    start 1000 1001 1002 (Page.start Page.bare 2 StorageAbsent)
    = (Returned s',
       pending ++ [Watcher; Observer (observer_target (doc s')); DelayedCreate5]) /\
    pending = [].
Proof.
  apply (start_sets_up (Page.start Page.bare 2 StorageAbsent) 1000 1001 1002); lia.
Defined.

(** The five-second timer that [loadAndCreate] set up without a store,
    firing after [Page.other] has become the configured link. *)
Lemma fire_timer_recreates_witness :
  exists k,
    timers (fire_timer 0 6000
              (state_of (loadAndCreate 1000 1001
                           (Page.start Page.console 9 StorageAbsent))))
    = [] /\
    count_icons
      (doc (fire_timer 0 6000
              (state_of (loadAndCreate 1000 1001
                           (Page.start Page.console 9 StorageAbsent)))))
    = 1 /\
    getElementById ICON_ID
      (doc (fire_timer 0 6000
              (state_of (loadAndCreate 1000 1001
                           (Page.start Page.console 9 StorageAbsent)))))
    = Some k /\
    click k
      (with_currentDriveLink Page.other
         (fire_timer 0 6000
            (state_of (loadAndCreate 1000 1001
                         (Page.start Page.console 9 StorageAbsent)))))
    = [PreventDefault; WindowOpen DEFAULT_LINK "_blank"].
Proof.
  apply (fire_timer_recreates
           (state_of (loadAndCreate 1000 1001 (Page.start Page.console 9 StorageAbsent)))
           0 DEFAULT_LINK Page.other 5%Q 6000 3); reflexivity.
Defined.
